(** * persia: a file-backed key-value store over a memory-mapped file

    A shallow embedding of [persia::mapped_file] (mapped_file.hpp),
    [persia::storage] (storage.hpp) and of the ring allocator and
    [persia::map] of queue.hpp.

    The operating system is a [world]: a file system from paths to file
    contents, the platform the library was compiled for, a table of injected
    system-call failures, and a trace of the handles acquired and released.
    C++ objects are records; a method that mutates its object returns the new
    object; a function that calls the system threads the [world]. *)

From stdpp Require Import gmap strings list fin_maps.
From Stdlib Require Import ZArith Lia.

(** ** The operating system *)

(** The two branches of [#if defined(_WIN32) ... #else ... #endif]. *)
Inductive platform := Win32 | Posix.

(** What [mapped_file::create] acquires from the system. *)
Inductive resource := file_handle | mapping_handle | view_address.

Definition handle : Type := resource * nat.

Inductive os_event :=
  | Acquire (h : handle)
  | Release (h : handle).

(** The system calls the library makes. *)
Inductive syscall :=
  | sys_CreateFileA | sys_CreateFileMapping | sys_MapViewOfFile
  | sys_open | sys_fstat | sys_mmap
  | sys_fopen | sys_resize_file.

#[global] Instance platform_eq_dec : EqDecision platform.
Proof. solve_decision. Defined.
#[global] Instance resource_eq_dec : EqDecision resource.
Proof. solve_decision. Defined.
#[global] Instance os_event_eq_dec : EqDecision os_event.
Proof. solve_decision. Defined.
#[global] Instance syscall_eq_dec : EqDecision syscall.
Proof. solve_decision. Defined.

(** [enum class storage_error] of storage.hpp. *)
Inductive storage_error :=
  | ok
  | file_size_is_too_small
  | invalid_file_signature
  | mismatch_file_size
  | mismatch_item_size
  | file_is_corrupted.

(** [std::error_code]: a code of [std::system_category()] or one of
    [storage_error_category]. *)
Inductive error_code :=
  | system_error (code : Z)
  | make_error_code (e : storage_error).

(** [mapped_file::expected] and [storage::expected]: the object when
    construction succeeded, the error code otherwise. *)
Inductive expected (T : Type) :=
  | of_value (t : T)
  | of_error (ec : error_code).
Arguments of_value {T} t.
Arguments of_error {T} ec.

(** [explicit operator bool] of an [expected]. *)
Definition has_value {T} (e : expected T) : bool :=
  match e with of_value _ => true | of_error _ => false end.

(** Codes the system reports on its own: a path that does not exist
    ([ENOENT], [ERROR_FILE_NOT_FOUND]) and a file of length zero, which
    cannot be mapped ([EINVAL] from [mmap], [ERROR_FILE_INVALID] from
    [CreateFileMapping]); test/mapped_file.test.hpp, "mapping empty file",
    requires [mapped_file::create] to fail on such a file. *)
Definition ENOENT : Z := 2.
Definition EINVAL : Z := 22.
Definition ERROR_FILE_NOT_FOUND : Z := 2.
Definition ERROR_FILE_INVALID : Z := 1006.

Module MappedFile.

Section MappedFile.

(** The mapped-file layer does not look inside a file: it only needs its
    length in bytes. *)
Context {contents : Type}.
Variable byte_size : contents → Z.
(** The file [fopen(path, "w+b")] leaves behind: no bytes. *)
Variable no_bytes : contents.
(** [std::filesystem::resize_file]: cut, or extend with zero bytes. *)
Variable resized : Z → contents → contents.

Record world := {
  target : platform;
  fs : gmap string contents;
  (** [faults c = Some code]: the call [c] fails with [code]. *)
  faults : syscall → option Z;
  next_handle : nat;
  trace : list os_event;
}.

Definition acquire (r : resource) (w : world) : handle * world :=
  let h := (r, next_handle w) in
  (h, {| target := target w; fs := fs w; faults := faults w;
         next_handle := S (next_handle w);
         trace := trace w ++ [Acquire h] |}).

Definition release (h : handle) (w : world) : world :=
  {| target := target w; fs := fs w; faults := faults w;
     next_handle := next_handle w;
     trace := trace w ++ [Release h] |}.

Definition write_file (path : string) (c : contents) (w : world) : world :=
  {| target := target w; fs := <[path := c]> (fs w); faults := faults w;
     next_handle := next_handle w; trace := trace w |}.

(** The handles a trace acquired and has not released. *)
Fixpoint live_handles (tr : list os_event) (live : list handle) : list handle :=
  match tr with
  | [] => live
  | Acquire h :: tr' => live_handles tr' (live ++ [h])
  | Release h :: tr' => live_handles tr' (List.filter (λ h', bool_decide (h' ≠ h)) live)
  end.

Definition leaked (w : world) : list handle := live_handles (trace w) [].

(** [class mapped_file]. [address_ = None] is [nullptr], [file_ = None] is
    [INVALID_HANDLE_VALUE] or [-1], [mapping_ = None] is [NULL] (always so
    on Posix, which has no such member). [bytes] is the memory behind
    [address_]; [backing] is the file the kernel maps it to. *)
Record mapped_file := {
  address_ : option handle;
  size_ : Z;
  file_ : option handle;
  mapping_ : option handle;
  bytes : contents;
  backing : string;
}.

(** [mapped_file() noexcept = default]. *)
Definition mapped_file_default : mapped_file :=
  {| address_ := None; size_ := 0; file_ := None; mapping_ := None;
     bytes := no_bytes; backing := "" |}.

(** [explicit operator bool]: [address_ != nullptr]. *)
Definition mapped_file_bool (m : mapped_file) : bool :=
  match address_ m with Some _ => true | None => false end.

(** The view of a file mapping object made with [PAGE_READWRITE] is shared
    with the file; [mmap(..., MAP_PRIVATE, ...)] gives a copy-on-write
    view whose stores never reach the file. *)
Definition shared_mapping (p : platform) : bool :=
  match p with Win32 => true | Posix => false end.

Definition release_opt (h : option handle) (w : world) : world :=
  match h with Some h => release h w | None => w end.

(** [UnmapViewOfFile] / [munmap]: the stores made through a shared view
    are in the file from here on. *)
Definition unmap (m : mapped_file) (w : world) : world :=
  match address_ m with
  | None => w
  | Some a =>
      let w := release a w in
      if shared_mapping (target w) then write_file (backing m) (bytes m) w else w
  end.

(** [mapped_file::dispose]. *)
Definition dispose (m : mapped_file) (w : world) : world :=
  match target w with
  | Win32 => release_opt (file_ m) (release_opt (mapping_ m) (unmap m w))
  | Posix => release_opt (file_ m) (unmap m w)
  end.

(** Whether the system maps a file of this length, and the code if not. *)
Definition map_refused (c : syscall) (size : Z) (w : world) : option Z :=
  match faults w c with
  | Some code => Some code
  | None =>
      if (size =? 0)%Z
      then Some (match target w with Win32 => ERROR_FILE_INVALID | Posix => EINVAL end)
      else None
  end.

(** [mapped_file::create] of mapped_file.hpp. *)
Definition create (path : string) (w : world) : expected mapped_file * world :=
  match target w with
  | Win32 =>
      match faults w sys_CreateFileA, fs w !! path with
      | Some code, _ => (of_error (system_error code), w)
      | None, None => (of_error (system_error ERROR_FILE_NOT_FOUND), w)
      | None, Some c =>
          let '(file, w) := acquire file_handle w in
          let size := byte_size c in
          match map_refused sys_CreateFileMapping size w with
          | Some code =>
              let w := release file w in
              (of_error (system_error code), w)
          | None =>
              let '(mapping, w) := acquire mapping_handle w in
              match faults w sys_MapViewOfFile with
              | Some code =>
                  let w := release file w in
                  (of_error (system_error code), w)
              | None =>
                  let '(address, w) := acquire view_address w in
                  (of_value {| address_ := Some address; size_ := size;
                            file_ := Some file; mapping_ := Some mapping;
                            bytes := c; backing := path |}, w)
              end
          end
      end
  | Posix =>
      match faults w sys_open, fs w !! path with
      | Some code, _ => (of_error (system_error code), w)
      | None, None => (of_error (system_error ENOENT), w)
      | None, Some c =>
          let '(file, w) := acquire file_handle w in
          match faults w sys_fstat with
          | Some code =>
              let w := release file w in
              (of_error (system_error code), w)
          | None =>
              let size := byte_size c in
              match map_refused sys_mmap size w with
              | Some code =>
                  let w := release file w in
                  (of_error (system_error code), w)
              | None =>
                  let '(address, w) := acquire view_address w in
                  (of_value {| address_ := Some address; size_ := size;
                            file_ := Some file; mapping_ := None;
                            bytes := c; backing := path |}, w)
              end
          end
      end
  end.

(** [std::fopen(path, "w+b")] followed by [std::fclose]: the file exists
    afterwards and is empty. *)
Definition fopen_w (path : string) (w : world) : option Z * world :=
  match faults w sys_fopen with
  | Some code => (Some code, w)
  | None => (None, write_file path no_bytes w)
  end.

(** [fs::resize_file(path, n, ec)]. *)
Definition resize_file (path : string) (n : Z) (w : world) : option Z * world :=
  match faults w sys_resize_file, fs w !! path with
  | Some code, _ => (Some code, w)
  | None, None => (Some ENOENT, w)
  | None, Some c => (None, write_file path (resized n c) w)
  end.

(** A call leaves the platform, the fault table and the files as they were
    and only adds to the trace. *)
Definition same_disk (w w' : world) : Prop :=
  target w' = target w ∧ faults w' = faults w ∧ fs w' = fs w.

(** [mapped_file(mapped_file&& other)]: the new object, and [other] as the
    constructor leaves it, without address, length or handles. *)
Definition move_construct (other : mapped_file) : mapped_file * mapped_file :=
  (other, mapped_file_default).

(** [operator = (mapped_file&& other)]: what the object holds is disposed
    of, then it takes what [other] holds and leaves [other] empty. *)
Definition move_assign (this other : mapped_file) (w : world)
    : mapped_file * mapped_file * world :=
  let w := dispose this w in
  (other, mapped_file_default, w).

(** Between [w] and [w'] the platform and the fault table stayed as they
    were, and every handle that was taken was released. *)
Definition settled (w w' : world) : Prop :=
  target w' = target w ∧ faults w' = faults w
  ∧ ∃ events, trace w' = trace w ++ events ∧ live_handles events [] = [].

(** What a mapping made at handle number [n] logs from [create] to the end
    of [dispose]: the handles are released in the reverse of the order they
    were taken in. *)
Definition lifetime_events (p : platform) (n : nat) : list os_event :=
  match p with
  | Win32 =>
      [Acquire (file_handle, n); Acquire (mapping_handle, S n);
       Acquire (view_address, S (S n));
       Release (view_address, S (S n)); Release (mapping_handle, S n);
       Release (file_handle, n)]
  | Posix =>
      [Acquire (file_handle, n); Acquire (view_address, S n);
       Release (view_address, S n); Release (file_handle, n)]
  end.

End MappedFile.

End MappedFile.

(** ** storage.hpp: the store with an external free list *)

Module Storage.

(** [namespace detail]: the layout of the file. *)
Module detail.

(** [sizeof(detail::header)]: four bytes of signature and three 32-bit
    fields, [alignas(8)]. *)
Definition sizeof_header : Z := 16.

(** [struct header]. [signature] is [unsigned char[4]]. *)
Record header := {
  signature : Z * Z * Z * Z;
  item_size : Z;
  capacity : nat;
  size : Z;
}.

(** [enum class marker : std::uint32_t]. *)
Definition marker_empty : Z := 0.
Definition marker_occupied : Z := 0xFEEDDA1A.

(** [template<typename T> struct record]. *)
Record record (T : Type) := {
  marker : Z;
  data : T;
}.
Arguments marker {T} r.
Arguments data {T} r.

End detail.

Import detail.

(** [std::vector<storage_index>]: its elements and its [capacity()].
    [reserve] on a vector that holds less allocates exactly what is asked
    (libstdc++, libc++ and the MSVC library all do), and [push_back] beyond
    the capacity reallocates to twice the size. *)
Record vector := {
  elements : list nat;
  vector_capacity : nat;
}.

Definition vector_new : vector := {| elements := []; vector_capacity := 0 |}.

Definition reserve (n : nat) (v : vector) : vector :=
  {| elements := elements v; vector_capacity := Nat.max n (vector_capacity v) |}.

Definition push_back (x : nat) (v : vector) : vector :=
  {| elements := elements v ++ [x];
     vector_capacity :=
       if decide (length (elements v) < vector_capacity v)
       then vector_capacity v
       else Nat.max 1 (2 * length (elements v)) |}.

Definition back (v : vector) : option nat := last (elements v).

Definition pop_back (v : vector) : vector :=
  {| elements := removelast (elements v); vector_capacity := vector_capacity v |}.

Section Storage.

(** The template arguments: [Key], [Value], and [Adapter::key_of]; the
    index [Indices] is a finite map from keys to slots. *)
Context `{Countable Key} {Value : Type}.
Variable key_of : Value → Key.
(** [sizeof(Value)] and [sizeof(detail::record<Value>)]. *)
Variable sizeof_Value : Z.
Variable sizeof_record : Z.
(** [Value{}], which is also what zero bytes read as. *)
Variable Value0 : Value.

(** A file as the library reads it: its length in bytes, the header at
    offset 0 and the records from offset [sizeof_header] on. *)
Record file := {
  file_size : Z;
  file_header : header;
  file_records : list (record Value);
}.

Definition header0 : header :=
  {| signature := (0, 0, 0, 0)%Z; item_size := 0; capacity := 0; size := 0 |}.

(** [detail::record<V>{}]; a record of zero bytes reads the same. *)
Definition record0 : record Value :=
  {| marker := marker_empty; data := Value0 |}.

#[local] Instance record_inhabited : Inhabited (record Value) := populate record0.

Definition no_bytes : file :=
  {| file_size := 0; file_header := header0; file_records := [] |}.

(** How many whole records a file of [n] bytes holds after its header. *)
Definition records_in (n : Z) : nat := Z.to_nat ((n - sizeof_header) / sizeof_record).

(** [resize_file]: the bytes kept stay, the bytes added are zero. The
    library resizes an empty file ([create]) or a file that passed the size
    check of [open] ([expand]). *)
Definition resized (n : Z) (f : file) : file :=
  {| file_size := n;
     file_header := if decide (file_size f < sizeof_header)%Z then header0 else file_header f;
     file_records := resize (records_in n) record0 (file_records f) |}.

#[local] Abbreviation world := (MappedFile.world (contents := file)).
#[local] Abbreviation mapped_file := (MappedFile.mapped_file (contents := file)).

(** [class storage]. [header_] and [records_] point into the mapping. *)
Record storage := {
  occupied_indices_ : gmap Key nat;
  free_indices_ : vector;
  mapped_file_ : mapped_file;
}.

Definition header_ (s : storage) : header := file_header (MappedFile.bytes (mapped_file_ s)).
Definition records_ (s : storage) : list (record Value) :=
  file_records (MappedFile.bytes (mapped_file_ s)).

Definition with_free (v : vector) (s : storage) : storage :=
  {| occupied_indices_ := occupied_indices_ s; free_indices_ := v;
     mapped_file_ := mapped_file_ s |}.

Definition with_occupied (m : gmap Key nat) (s : storage) : storage :=
  {| occupied_indices_ := m; free_indices_ := free_indices_ s;
     mapped_file_ := mapped_file_ s |}.

(** A store through [header_] or [records_]: the mapped bytes change. *)
Definition with_bytes (f : file) (m : mapped_file) : mapped_file :=
  {| MappedFile.address_ := MappedFile.address_ m;
     MappedFile.size_ := MappedFile.size_ m;
     MappedFile.file_ := MappedFile.file_ m;
     MappedFile.mapping_ := MappedFile.mapping_ m;
     MappedFile.bytes := f;
     MappedFile.backing := MappedFile.backing m |}.

Definition file_with_records (r : list (record Value)) (f : file) : file :=
  {| file_size := file_size f; file_header := file_header f; file_records := r |}.

Definition file_with_header (h : header) (f : file) : file :=
  {| file_size := file_size f; file_header := h; file_records := file_records f |}.

Definition with_records (r : list (record Value)) (s : storage) : storage :=
  {| occupied_indices_ := occupied_indices_ s; free_indices_ := free_indices_ s;
     mapped_file_ :=
       with_bytes (file_with_records r (MappedFile.bytes (mapped_file_ s))) (mapped_file_ s) |}.

(** [record->marker = m]. *)
Definition set_marker (m : Z) (r : record Value) : record Value :=
  {| marker := m; data := data r |}.

(** [record->data = v]. *)
Definition set_data (v : Value) (r : record Value) : record Value :=
  {| marker := marker r; data := v |}.

Definition capacity (s : storage) : nat := vector_capacity (free_indices_ s).

Definition size (s : storage) : nat := base.size (occupied_indices_ s).

Definition empty (s : storage) : bool := bool_decide (base.size (occupied_indices_ s) = 0).

Definition fully_occupied (s : storage) : bool :=
  match elements (free_indices_ s) with [] => true | _ => false end.

(** What iterating from [begin()] to [end()] yields: the data of the slot
    of every entry of the index, in the order of the index. *)
Definition iterate (s : storage) : list Value :=
  (λ ki : Key * nat, data (records_ s !!! ki.2)) <$> map_to_list (occupied_indices_ s).

(** [storage::insert]. *)
Definition insert (value : Value) (s : storage) : bool * storage :=
  match back (free_indices_ s) with
  | None => (false, s)
  | Some index =>
      let s := with_free (pop_back (free_indices_ s)) s in
      let key := key_of value in
      match occupied_indices_ s !! key with
      | Some _ => (false, s)
      | None =>
          let s := with_occupied (<[key := index]> (occupied_indices_ s)) s in
          let s := with_records (alter (set_marker marker_occupied) index (records_ s)) s in
          let s := with_records (alter (set_data value) index (records_ s)) s in
          (true, s)
      end
  end.

(** [storage::insert_or_assign]. *)
Definition insert_or_assign (value : Value) (s : storage) : bool * storage :=
  let key := key_of value in
  match occupied_indices_ s !! key with
  | None =>
      match back (free_indices_ s) with
      | None => (false, s)
      | Some index =>
          let s := with_free (pop_back (free_indices_ s)) s in
          let s := with_occupied (<[key := index]> (occupied_indices_ s)) s in
          let s := with_records (alter (set_marker marker_occupied) index (records_ s)) s in
          let s := with_records (alter (set_data value) index (records_ s)) s in
          (true, s)
      end
  | Some index =>
      (true, with_records (alter (set_data value) index (records_ s)) s)
  end.

(** [storage::erase]. *)
Definition erase (key : Key) (s : storage) : bool * storage :=
  match occupied_indices_ s !! key with
  | None => (false, s)
  | Some index =>
      let s := with_free (push_back index (free_indices_ s)) s in
      let s := with_records (alter (set_marker marker_empty) index (records_ s)) s in
      let s := with_occupied (delete key (occupied_indices_ s)) s in
      (true, s)
  end.

(** [storage::find]: the value the returned pointer points to, [None] for
    [nullptr]. *)
Definition find (key : Key) (s : storage) : option Value :=
  match occupied_indices_ s !! key with
  | None => None
  | Some index => Some (data (records_ s !!! index))
  end.

(** The body of the loop of [storage::clear]. *)
Definition clear_step (s : storage) (ki : Key * nat) : storage :=
  let s := with_records (alter (set_marker marker_empty) ki.2 (records_ s)) s in
  with_free (push_back ki.2 (free_indices_ s)) s.

(** [storage::clear]. *)
Definition clear (s : storage) : storage :=
  let s := foldl clear_step s (map_to_list (occupied_indices_ s)) in
  with_occupied ∅ s.

(** [sizeof(detail::header) + capacity * sizeof(detail::record<V>)], in
    [std::size_t]. *)
Definition storage_size (capacity : nat) : Z :=
  (sizeof_header + Z.of_nat capacity * sizeof_record)%Z.

(** The signature test of [open]. *)
Definition signature_matches (h : header) : bool :=
  bool_decide (signature h = (0xDA, 0x1A, 0xF1, 0x1E)%Z).

(** The loop of [open] and [expand] over the records [i], ..., [i + n - 1]:
    an empty slot goes to the free list, an occupied one into the index
    under the key of its data, any other marker ends the scan. *)
Fixpoint scan (records : list (record Value)) (i n : nat)
    (occupied_indices : gmap Key nat) (free_indices : vector)
    : option (gmap Key nat * vector) :=
  match n with
  | 0 => Some (occupied_indices, free_indices)
  | S n =>
      let record := records !!! i in
      if decide (marker record = marker_empty)
      then scan records (S i) n occupied_indices (push_back i free_indices)
      else if decide (marker record = marker_occupied)
      then scan records (S i) n (<[key_of (data record) := i]> occupied_indices) free_indices
      else None
  end.

(** [for(i = first; i != last; ++i) free_indices.push_back(i)]. *)
Definition push_range (first count : nat) (v : vector) : vector :=
  foldl (λ v i, push_back i v) v (seq first count).

(** [for(i = first; i != last; ++i) new(records + i) detail::record<V>{}]. *)
Definition construct_range (first count : nat) (records : list (record Value))
    : list (record Value) :=
  foldl (λ records i, <[i := record0]> records) records (seq first count).

(** [storage::create]. *)
Definition create (path : string) (initial_capacity : nat) (w : world)
    : expected storage * world :=
  if decide (initial_capacity = 0)
  then (of_error (make_error_code file_size_is_too_small), w)
  else
    match MappedFile.fopen_w no_bytes path w with
    | (Some code, w) => (of_error (system_error code), w)
    | (None, w) =>
        match MappedFile.resize_file resized path (storage_size initial_capacity) w with
        | (Some code, w) => (of_error (system_error code), w)
        | (None, w) =>
            match MappedFile.create file_size path w with
            | (of_error ec, w) => (of_error ec, w)
            | (of_value expected_file, w) =>
                let f := MappedFile.bytes expected_file in
                let header :=
                  {| signature := (0xDA, 0x1A, 0xF1, 0x1E)%Z;
                     item_size := sizeof_Value;
                     detail.capacity := initial_capacity;
                     detail.size := detail.size (file_header f) |} in
                let free_indices :=
                  push_range 0 initial_capacity (reserve initial_capacity vector_new) in
                let records := construct_range 0 initial_capacity (file_records f) in
                let f := file_with_records records (file_with_header header f) in
                (of_value {| occupied_indices_ := ∅;
                             free_indices_ := free_indices;
                             mapped_file_ := with_bytes f expected_file |}, w)
            end
        end
    end.

(** [storage::expand]; [open] calls it with [initial_capacity] above the
    capacity in the header. *)
Definition expand (path : string) (initial_capacity : nat) (w : world)
    : expected storage * world :=
  match MappedFile.resize_file resized path (storage_size initial_capacity) w with
  | (Some code, w) => (of_error (system_error code), w)
  | (None, w) =>
      match MappedFile.create file_size path w with
      | (of_error ec, w) => (of_error ec, w)
      | (of_value expected_file, w) =>
          let f := MappedFile.bytes expected_file in
          let header := file_header f in
          match scan (file_records f) 0 (detail.capacity header) ∅
                     (reserve initial_capacity vector_new) with
          | None =>
              (of_error (make_error_code file_is_corrupted),
               MappedFile.dispose expected_file w)
          | Some (occupied_indices, free_indices) =>
              let count := initial_capacity - detail.capacity header in
              let records := construct_range (detail.capacity header) count (file_records f) in
              let free_indices := push_range (detail.capacity header) count free_indices in
              let header :=
                {| signature := signature header; item_size := item_size header;
                   detail.capacity := initial_capacity; detail.size := detail.size header |} in
              let f := file_with_header header (file_with_records records f) in
              (of_value {| occupied_indices_ := occupied_indices;
                           free_indices_ := free_indices;
                           mapped_file_ := with_bytes f expected_file |}, w)
          end
      end
  end.

(** [storage::open]. An [expected_file] that goes out of scope unmoved is
    disposed of. *)
Definition open (path : string) (initial_capacity : nat) (w : world)
    : expected storage * world :=
  match MappedFile.create file_size path w with
  | (of_error ec, w) => (of_error ec, w)
  | (of_value expected_file, w) =>
      let f := MappedFile.bytes expected_file in
      let header := file_header f in
      if decide (MappedFile.size_ expected_file < sizeof_header + sizeof_record)%Z
      then (of_error (make_error_code file_size_is_too_small),
            MappedFile.dispose expected_file w)
      else if negb (signature_matches header)
      then (of_error (make_error_code invalid_file_signature),
            MappedFile.dispose expected_file w)
      else if decide (MappedFile.size_ expected_file ≠ storage_size (detail.capacity header))
      then (of_error (make_error_code mismatch_file_size),
            MappedFile.dispose expected_file w)
      else if decide (sizeof_Value ≠ item_size header)
      then (of_error (make_error_code mismatch_item_size),
            MappedFile.dispose expected_file w)
      else if decide (detail.capacity header < initial_capacity)
      then expand path initial_capacity (MappedFile.dispose expected_file w)
      else
        match scan (file_records f) 0 (detail.capacity header) ∅
                   (reserve (detail.capacity header) vector_new) with
        | None =>
            (of_error (make_error_code file_is_corrupted),
             MappedFile.dispose expected_file w)
        | Some (occupied_indices, free_indices) =>
            (of_value {| occupied_indices_ := occupied_indices;
                         free_indices_ := free_indices;
                         mapped_file_ := expected_file |}, w)
        end
  end.

(** [~storage]: the mapping goes with the store. *)
Definition destroy (s : storage) (w : world) : world :=
  MappedFile.dispose (mapped_file_ s) w.

(** [storage() = default]: no entry, no slot, no mapping. *)
Definition storage_default : storage :=
  {| occupied_indices_ := ∅; free_indices_ := vector_new;
     mapped_file_ := MappedFile.mapped_file_default no_bytes |}.

(** [storage::expected::operator*]: the store held, which is the default
    one beside an error. *)
Definition dereference (e : expected storage) : storage :=
  match e with of_value s => s | of_error _ => storage_default end.

(** *** A session: one path, at most one live store *)

Inductive command :=
  | call_create (initial_capacity : nat)
  | call_open (initial_capacity : nat)
  | call_insert (value : Value)
  | call_insert_or_assign (value : Value)
  | call_erase (key : Key)
  | call_clear
  | call_destroy.

Record session := {
  machine : world;
  instance : option storage;
}.

(** The live store, if any, goes out of scope. *)
Definition drop_instance (ss : session) : world :=
  match instance ss with
  | Some s => destroy s (machine ss)
  | None => machine ss
  end.

Definition held (r : expected storage * world) : session :=
  {| machine := r.2;
     instance := match r.1 with of_value s => Some s | of_error _ => None end |}.

Definition on_instance (f : storage → storage) (ss : session) : session :=
  {| machine := machine ss; instance := f <$> instance ss |}.

(** One call of the public interface. The file has one owner: a store is
    destroyed before the next [create] or [open] of the path. *)
Definition step (path : string) (ss : session) (c : command) : session :=
  match c with
  | call_create n => held (create path n (drop_instance ss))
  | call_open n => held (open path n (drop_instance ss))
  | call_insert v => on_instance (λ s, (insert v s).2) ss
  | call_insert_or_assign v => on_instance (λ s, (insert_or_assign v s).2) ss
  | call_erase k => on_instance (λ s, (erase k s).2) ss
  | call_clear => on_instance clear ss
  | call_destroy => {| machine := drop_instance ss; instance := None |}
  end.

Definition run (path : string) (ss : session) (cs : list command) : session :=
  foldl (step path) ss cs.

Definition is_create (c : command) : bool :=
  match c with call_create _ => true | _ => false end.

(** The length of the file at [path], if there is one. *)
Definition file_length (path : string) (w : world) : option Z :=
  file_size <$> MappedFile.fs w !! path.

(** *** What a store and a file must satisfy *)

Definition no_faults (w : world) : Prop := ∀ c, MappedFile.faults w c = None.

Definition is_occupied (records : list (record Value)) (i : nat) : Prop :=
  marker (records !!! i) = marker_occupied.

Definition is_empty (records : list (record Value)) (i : nat) : Prop :=
  marker (records !!! i) = marker_empty.

#[global] Instance is_occupied_dec records i : Decision (is_occupied records i).
Proof. unfold is_occupied. apply _. Defined.

#[global] Instance is_empty_dec records i : Decision (is_empty records i).
Proof. unfold is_empty. apply _. Defined.

Definition key_at (records : list (record Value)) (i : nat) : Key :=
  key_of (data (records !!! i)).

(** The number of occupied slots among the first [n]. *)
Definition occupied_count (records : list (record Value)) (n : nat) : nat :=
  length (filter (is_occupied records) (seq 0 n)).

(** The first [n] slots of a record array that [open] accepts and that
    holds every key once. *)
Record valid_records (records : list (record Value)) (n : nat) : Prop := {
  valid_in_file : n ≤ length records;
  valid_markers : ∀ i, i < n → is_empty records i ∨ is_occupied records i;
  valid_keys : ∀ i j, i < n → j < n → is_occupied records i → is_occupied records j →
               key_at records i = key_at records j → i = j;
}.

(** A file a store was written to: [open] finds nothing to reject. *)
Record valid_file (f : file) : Prop := {
  valid_signature : signature (file_header f) = (0xDA, 0x1A, 0xF1, 0x1E)%Z;
  valid_item_size : item_size (file_header f) = sizeof_Value;
  valid_capacity : 0 < detail.capacity (file_header f);
  valid_size : file_size f = storage_size (detail.capacity (file_header f));
  valid_contents : valid_records (file_records f) (detail.capacity (file_header f));
}.

(** The index, the free list and the records agree. *)
Record consistent (s : storage) : Prop := {
  index_sound : ∀ k i, occupied_indices_ s !! k = Some i →
      i < detail.capacity (header_ s) ∧ is_occupied (records_ s) i ∧ key_at (records_ s) i = k;
  index_complete : ∀ i, i < detail.capacity (header_ s) → is_occupied (records_ s) i →
      occupied_indices_ s !! key_at (records_ s) i = Some i;
  markers_sound : ∀ i, i < detail.capacity (header_ s) →
      is_empty (records_ s) i ∨ is_occupied (records_ s) i;
  free_sound : ∀ i, i ∈ elements (free_indices_ s) →
      i < detail.capacity (header_ s) ∧ is_empty (records_ s) i;
  free_once : NoDup (elements (free_indices_ s));
  records_mapped : detail.capacity (header_ s) ≤ length (records_ s);
  capacity_reserved : capacity s = detail.capacity (header_ s);
}.

(** The store is consistent and maps a file of [path] that [open] accepts. *)
Record attached (path : string) (s : storage) : Prop := {
  attached_consistent : consistent s;
  attached_mapped : is_Some (MappedFile.address_ (mapped_file_ s));
  attached_path : MappedFile.backing (mapped_file_ s) = path;
  attached_signature : signature (header_ s) = (0xDA, 0x1A, 0xF1, 0x1E)%Z;
  attached_item_size : item_size (header_ s) = sizeof_Value;
  attached_capacity : 0 < detail.capacity (header_ s);
  attached_size : file_size (MappedFile.bytes (mapped_file_ s))
                  = storage_size (detail.capacity (header_ s));
}.

(** No empty slot is missing from the free list. *)
Definition free_complete (s : storage) : Prop :=
  ∀ i, i < detail.capacity (header_ s) → is_empty (records_ s) i →
       i ∈ elements (free_indices_ s).

(** The counting invariant: one index entry per occupied slot, and the
    occupied and the free slots together are the declared capacity. *)
Definition counted (s : storage) : Prop :=
  size s = occupied_count (records_ s) (detail.capacity (header_ s))
  ∧ occupied_count (records_ s) (detail.capacity (header_ s))
    + length (elements (free_indices_ s)) = detail.capacity (header_ s).

(** What the store holds: the value stored under every indexed key. *)
Definition contents (s : storage) : gmap Key Value :=
  (λ i, data (records_ s !!! i)) <$> occupied_indices_ s.

(** A sequence of [insert] and [erase] calls. *)
Inductive update :=
  | do_insert (value : Value)
  | do_erase (key : Key).

Definition apply_update (s : storage) (u : update) : storage :=
  match u with
  | do_insert v => (insert v s).2
  | do_erase k => (erase k s).2
  end.

Definition apply_updates (s : storage) (us : list update) : storage :=
  foldl apply_update s us.

(** *** What the proofs speak of *)

(** What the scan does with slot [j]. *)
Definition scan_index (records : list (record Value)) (m : gmap Key nat) (j : nat)
    : gmap Key nat :=
  if decide (is_occupied records j) then <[key_at records j := j]> m else m.

Definition scan_free (records : list (record Value)) (v : vector) (j : nat) : vector :=
  if decide (is_empty records j) then push_back j v else v.

(** The header, the length of the mapped bytes and the handles of the
    mapping: no operation on an open store touches them. *)
Definition same_mapping (s s' : storage) : Prop :=
  header_ s' = header_ s
  ∧ file_size (MappedFile.bytes (mapped_file_ s'))
    = file_size (MappedFile.bytes (mapped_file_ s))
  ∧ MappedFile.address_ (mapped_file_ s') = MappedFile.address_ (mapped_file_ s)
  ∧ MappedFile.backing (mapped_file_ s') = MappedFile.backing (mapped_file_ s)
  ∧ MappedFile.file_ (mapped_file_ s') = MappedFile.file_ (mapped_file_ s)
  ∧ MappedFile.mapping_ (mapped_file_ s') = MappedFile.mapping_ (mapped_file_ s).

(** The store is consistent and its free list misses no empty slot. *)
Definition sound (s : storage) : Prop := consistent s ∧ free_complete s.

(** The store [s] is what the scan makes of the first slots of
    [records], with [extra] more slots free behind them. *)
Record scanned (records : list (record Value)) (n extra : nat) (s : storage) : Prop := {
  scanned_index : occupied_indices_ s = foldl (scan_index records) ∅ (seq 0 n);
  scanned_free :
    elements (free_indices_ s) = filter (is_empty records) (seq 0 n) ++ seq n extra;
  scanned_capacity : capacity s = n + extra;
  scanned_header : detail.capacity (header_ s) = n + extra;
  scanned_length : n + extra ≤ length (records_ s);
  scanned_old : ∀ i, i < n → records_ s !!! i = records !!! i;
  scanned_new : ∀ i, n ≤ i < n + extra → records_ s !!! i = record0;
}.

(** The store is mapped onto the file [f] of [path]. *)
Definition maps_file (path : string) (f : file) (s : storage) : Prop :=
  MappedFile.backing (mapped_file_ s) = path
  ∧ is_Some (MappedFile.address_ (mapped_file_ s))
  ∧ file_size (MappedFile.bytes (mapped_file_ s)) = file_size f
  ∧ signature (header_ s) = signature (file_header f)
  ∧ item_size (header_ s) = item_size (file_header f).

Definition value_of (r : expected storage) : option storage :=
  match r with of_value s => Some s | of_error _ => None end.

(** A store, if there is one, maps [path], and as many bytes as the file
    [f] has. *)
Definition serves (path : string) (f : file) (r : option storage) : Prop :=
  ∀ s, r = Some s →
       MappedFile.backing (mapped_file_ s) = path
       ∧ file_size (MappedFile.bytes (mapped_file_ s)) = file_size f.

(** The file of [path] is there, at least [l] bytes long, and the live
    store maps it. *)
Definition session_ok (path : string) (l : Z) (ss : session) : Prop :=
  ∃ f, MappedFile.fs (machine ss) !! path = Some f
       ∧ (l ≤ file_size f)%Z
       ∧ serves path f (instance ss).

End Storage.

End Storage.

(** ** queue.hpp: the ring allocator and [persia::map] *)

Module Queue.

(** [enum class error] of queue.hpp. *)
Inductive error :=
  | ok
  | file_size_is_too_small
  | invalid_file_signature
  | mismatch_file_size
  | mismatch_item_size
  | duplicated_key
  | storage_is_full.

(** [std::error_code]: a code of the system or one of [persia_category]. *)
Inductive error_code :=
  | system_error (code : Z)
  | make_error_code (e : error).

(** [expected<T, std::error_code>]; [expected<void, std::error_code>] is
    [expected unit]. *)
Inductive expected (T : Type) :=
  | of_value (t : T)
  | of_error (ec : error_code).
Arguments of_value {T} t.
Arguments of_error {T} ec.

(** [explicit operator bool]: [kind_ == kind::of_value]. *)
Definition has_value {T} (e : expected T) : bool :=
  match e with of_value _ => true | of_error _ => false end.

Module detail.

Module mapped_file.

Section Create.

Context {contents : Type}.
Variable byte_size : contents → Z.
Variable no_bytes : contents.

(** [detail::mapped_file::create] of queue.hpp. What [MapViewOfFile] and
    [mmap] return is not tested: when the view is refused the object is
    returned all the same, around an address that maps nothing
    ([address_ = None]; reading through it is undefined, and reads no
    bytes here). *)
Definition create (path : string) (w : MappedFile.world)
    : expected (MappedFile.mapped_file (contents := contents)) * MappedFile.world :=
  match MappedFile.target w with
  | Win32 =>
      match MappedFile.faults w sys_CreateFileA, MappedFile.fs w !! path with
      | Some code, _ => (of_error (system_error code), w)
      | None, None => (of_error (system_error ERROR_FILE_NOT_FOUND), w)
      | None, Some c =>
          let '(file, w) := MappedFile.acquire file_handle w in
          let size := byte_size c in
          match MappedFile.map_refused sys_CreateFileMapping size w with
          | Some code =>
              let w := MappedFile.release file w in
              (of_error (system_error code), w)
          | None =>
              let '(mapping, w) := MappedFile.acquire mapping_handle w in
              match MappedFile.faults w sys_MapViewOfFile with
              | Some code =>
                  (of_value {| MappedFile.address_ := None; MappedFile.size_ := size;
                               MappedFile.file_ := Some file;
                               MappedFile.mapping_ := Some mapping;
                               MappedFile.bytes := no_bytes;
                               MappedFile.backing := path |}, w)
              | None =>
                  let '(address, w) := MappedFile.acquire view_address w in
                  (of_value {| MappedFile.address_ := Some address;
                               MappedFile.size_ := size;
                               MappedFile.file_ := Some file;
                               MappedFile.mapping_ := Some mapping;
                               MappedFile.bytes := c;
                               MappedFile.backing := path |}, w)
              end
          end
      end
  | Posix =>
      match MappedFile.faults w sys_open, MappedFile.fs w !! path with
      | Some code, _ => (of_error (system_error code), w)
      | None, None => (of_error (system_error ENOENT), w)
      | None, Some c =>
          let '(file, w) := MappedFile.acquire file_handle w in
          match MappedFile.faults w sys_fstat with
          | Some code =>
              let w := MappedFile.release file w in
              (of_error (system_error code), w)
          | None =>
              let size := byte_size c in
              match MappedFile.map_refused sys_mmap size w with
              | Some code =>
                  (of_value {| MappedFile.address_ := None; MappedFile.size_ := size;
                               MappedFile.file_ := Some file;
                               MappedFile.mapping_ := None;
                               MappedFile.bytes := no_bytes;
                               MappedFile.backing := path |}, w)
              | None =>
                  let '(address, w) := MappedFile.acquire view_address w in
                  (of_value {| MappedFile.address_ := Some address;
                               MappedFile.size_ := size;
                               MappedFile.file_ := Some file;
                               MappedFile.mapping_ := None;
                               MappedFile.bytes := c;
                               MappedFile.backing := path |}, w)
              end
          end
      end
  end.

End Create.

End mapped_file.

(** [sizeof(header)]: four bytes and three 32-bit fields. *)
Definition sizeof_header : Z := 16.

(** [struct header]; [size] counts the occupied slots. *)
Record header := {
  signature : Z * Z * Z * Z;
  item_size : Z;
  capacity : nat;
  size : Z;
}.

(** [template<typename T> struct record]: the links of the two rings. *)
Record record (T : Type) := {
  previous : nat;
  next : nat;
  data : T;
}.
Arguments previous {T} r.
Arguments next {T} r.
Arguments data {T} r.

Definition first_occupied_index : nat := 0.
Definition first_free_index : nat := 1.

Section Ring.

Context {T : Type}.
(** [T{}], [sizeof(T)] and [sizeof(record<T>)]. *)
Variable T0 : T.
Variable sizeof_T : Z.
Variable sizeof_record : Z.
(** Whether plain [char] is a signed type, which the implementation
    chooses: [signature] is [char[4]] here. *)
Variable char_is_signed : bool.

Definition record0 : record T := {| previous := 0; next := 0; data := T0 |}.

(** The value of a byte read through [char]. *)
Definition as_char (b : Z) : Z :=
  let b := (b mod 256)%Z in
  if char_is_signed && (128 <=? b)%Z then (b - 256)%Z else b.

(** The signature test of [open]: each [char] against an [int] constant. *)
Definition signature_accepted (h : header) : bool :=
  bool_decide (as_char (signature h).1.1.1 = 0xDA%Z
               ∧ as_char (signature h).1.1.2 = 0x1A%Z
               ∧ as_char (signature h).1.2 = 0xF1%Z
               ∧ as_char (signature h).2 = 0x1E%Z).

#[local] Instance record_inhabited : Inhabited (record T) := populate record0.

(** A file as the library reads it: its length, the header, and the
    records from offset [sizeof_header] on, the two sentinels first. *)
Record file := {
  file_size : Z;
  file_header : header;
  file_records : list (record T);
}.

Definition header0 : header :=
  {| signature := (0, 0, 0, 0)%Z; item_size := 0; capacity := 0; size := 0 |}.

Definition no_bytes : file :=
  {| file_size := 0; file_header := header0; file_records := [] |}.

Definition records_in (n : Z) : nat := Z.to_nat ((n - sizeof_header) / sizeof_record).

(** [resize_file], as for storage.hpp. *)
Definition resized (n : Z) (f : file) : file :=
  {| file_size := n;
     file_header := if decide (file_size f < sizeof_header)%Z then header0 else file_header f;
     file_records := resize (records_in n) record0 (file_records f) |}.

#[local] Abbreviation world := (MappedFile.world (contents := file)).

(** [class storage]: the mapping, and what [header_] and [records_] point
    to; [records_ = None] is [nullptr]. *)
Record storage := {
  file_ : MappedFile.mapped_file (contents := file);
  header_ : header;
  records_ : option (list (record T));
}.

Definition set_previous (i : nat) (r : record T) : record T :=
  {| previous := i; next := next r; data := data r |}.

Definition set_next (i : nat) (r : record T) : record T :=
  {| previous := previous r; next := i; data := data r |}.

Definition set_data (d : T) (r : record T) : record T :=
  {| previous := previous r; next := next r; data := d |}.

(** [++header_->size] and [--header_->size], on 32 bits. *)
Definition resize_header (d : Z) (h : header) : header :=
  {| signature := signature h; item_size := item_size h; capacity := capacity h;
     size := ((size h + d) mod 2 ^ 32)%Z |}.

(** [sizeof(header) + (capacity + 2) * sizeof(record<T>)]; the sum in the
    brackets is made on 32 bits. *)
Definition storage_size (capacity : nat) : Z :=
  (sizeof_header + ((Z.of_nat capacity + 2) mod 2 ^ 32) * sizeof_record)%Z.

(** The links [storage::create] writes into the [initial_capacity + 2]
    records of a new file: the occupied ring is its sentinel alone, the
    free ring runs through every other slot in ascending order. *)
Definition create_rings (initial_capacity : nat) : list (record T) :=
  let records := replicate (initial_capacity + 2) record0 in
  let records := alter (set_previous first_occupied_index) first_occupied_index records in
  let records := alter (set_next first_occupied_index) first_occupied_index records in
  let last_free_index := initial_capacity + 1 in
  let records := alter (set_previous last_free_index) first_free_index records in
  let records := alter (set_next first_free_index) last_free_index records in
  (foldl (λ (st : list (record T) * nat) index,
            (alter (set_next index) st.2 (alter (set_previous st.2) index st.1), index))
         (records, first_free_index)
         (seq (first_free_index + 1) initial_capacity)).1.

(** The body of the loop of [storage::expand]: the slot [index] goes to
    the end of the free ring. *)
Definition splice (records : list (record T)) (index : nat) : list (record T) :=
  let last := previous (records !!! first_free_index) in
  let records := alter (set_next first_free_index) index records in
  let records :=
    alter (set_previous (previous (records !!! first_free_index))) index records in
  let records := alter (set_next index) last records in
  alter (set_previous index) first_free_index records.

(** [storage::expand]; [open] calls it with [initial_capacity] above the
    capacity in the header, which it leaves as it is. *)
Definition expand (path : string) (original_file : MappedFile.mapped_file)
    (header_ptr : header) (initial_capacity : nat) (w : world)
    : expected storage * world :=
  let original_capacity := capacity header_ptr in
  let w := MappedFile.dispose original_file w in
  match MappedFile.resize_file resized path (storage_size initial_capacity) w with
  | (Some code, w) => (of_error (system_error code), w)
  | (None, w) =>
      match mapped_file.create file_size no_bytes path w with
      | (of_error ec, w) => (of_error ec, w)
      | (of_value expected_file, w) =>
          let f := MappedFile.bytes expected_file in
          let records :=
            foldl splice (file_records f)
                  (seq (original_capacity + 2) (initial_capacity - original_capacity)) in
          (of_value {| file_ := expected_file; header_ := file_header f;
                       records_ := Some records |}, w)
      end
  end.

(** [storage::open]. *)
Definition open (path : string) (initial_capacity : nat) (w : world)
    : expected storage * world :=
  match mapped_file.create file_size no_bytes path w with
  | (of_error ec, w) => (of_error ec, w)
  | (of_value expected_file, w) =>
      let f := MappedFile.bytes expected_file in
      let header_ptr := file_header f in
      if decide (MappedFile.size_ expected_file < sizeof_header + 2 * sizeof_record)%Z
      then (of_error (make_error_code file_size_is_too_small),
            MappedFile.dispose expected_file w)
      else if negb (signature_accepted header_ptr)
      then (of_error (make_error_code invalid_file_signature),
            MappedFile.dispose expected_file w)
      else if decide (MappedFile.size_ expected_file ≠ storage_size (capacity header_ptr))
      then (of_error (make_error_code mismatch_file_size),
            MappedFile.dispose expected_file w)
      else if decide (sizeof_T ≠ item_size header_ptr)
      then (of_error (make_error_code mismatch_item_size),
            MappedFile.dispose expected_file w)
      else if decide (capacity header_ptr < initial_capacity)
      then expand path expected_file header_ptr initial_capacity w
      else (of_value {| file_ := expected_file; header_ := header_ptr;
                        records_ := Some (file_records f) |}, w)
  end.

(** [storage::add]: the slot taken, [0] when there is none. *)
Definition add (d : T) (s : storage) : nat * storage :=
  match records_ s with
  | None => (0, s)
  | Some records =>
      let index := next (records !!! first_free_index) in
      if decide (index = first_free_index) then (0, s)
      else
        let next_free := next (records !!! index) in
        let records := alter (set_previous first_free_index) next_free records in
        let records := alter (set_next (next (records !!! index))) first_free_index records in
        let next_occupied := next (records !!! first_occupied_index) in
        let records := alter (set_previous first_occupied_index) index records in
        let records :=
          alter (set_next (next (records !!! first_occupied_index))) index records in
        let records := alter (set_previous index) next_occupied records in
        let records := alter (set_next index) first_occupied_index records in
        let records := alter (set_data d) index records in
        (index, {| file_ := file_ s; header_ := resize_header 1 (header_ s);
                   records_ := Some records |})
  end.

(** [storage::operator[]]. *)
Definition at_index (index : nat) (s : storage) : T :=
  data (default [] (records_ s) !!! index).

(** [storage_[index] = value]. *)
Definition assign (index : nat) (d : T) (s : storage) : storage :=
  {| file_ := file_ s; header_ := header_ s;
     records_ := alter (set_data d) index <$> records_ s |}.

(** [storage::remove]. *)
Definition remove (index : nat) (s : storage) : bool * storage :=
  if decide (index = 0) then (false, s)
  else
    let records := default [] (records_ s) in
    let records := alter (set_data T0) index records in
    let previous_ := previous (records !!! index) in
    let next_ := next (records !!! index) in
    let records := alter (set_next (next (records !!! index))) previous_ records in
    let records := alter (set_previous (previous (records !!! index))) next_ records in
    let next_free := next (records !!! first_free_index) in
    let records := alter (set_next (next (records !!! first_free_index))) index records in
    let records := alter (set_previous first_free_index) index records in
    let records := alter (set_previous index) next_free records in
    let records := alter (set_next index) first_free_index records in
    (true, {| file_ := file_ s; header_ := resize_header (-1) (header_ s);
              records_ := Some records |}).

(** The free ring holds nothing but its sentinel. *)
Definition free_ring_empty (s : storage) : Prop :=
  match records_ s with
  | None => True
  | Some records => next (records !!! first_free_index) = first_free_index
  end.

(** [begin()] and [end()]: the index the iterator holds. *)
Definition begin_index (records : list (record T)) : nat :=
  next (records !!! first_occupied_index).

Definition end_index : nat := first_occupied_index.

(** The slots a loop [for(it = begin(); it != end(); ++it)] visits, in the
    order it visits them, [operator++] going to [records_[index_].next];
    [None] when [end()] is not reached within [fuel] steps. *)
Fixpoint visit (fuel : nat) (records : list (record T)) (index : nat) : option (list nat) :=
  match fuel with
  | 0 => if decide (index = end_index) then Some [] else None
  | S fuel =>
      if decide (index = end_index) then Some []
      else cons index <$> visit fuel records (next (records !!! index))
  end.

(** Every ring of slots of the array is visited within as many steps as
    the array has records. *)
Definition iterate (records : list (record T)) : option (list nat) :=
  visit (length records) records (begin_index records).

(** *** Well-formed rings *)

(** The links lead from [a] through the slots [l] to [b]: the [next] of
    each is the slot after it, whose [previous] it is. *)
Fixpoint chain (records : list (record T)) (a : nat) (l : list nat) (b : nat) : Prop :=
  match l with
  | [] => next (records !!! a) = b ∧ previous (records !!! b) = a
  | x :: l =>
      next (records !!! a) = x ∧ previous (records !!! x) = a ∧ chain records x l b
  end.

(** The occupied ring leads from its sentinel through the slots
    [occupied] back to the sentinel, the free ring likewise through
    [free]; every slot of the two is in the array, and in one place. *)
Definition rings (records : list (record T)) (occupied free : list nat) : Prop :=
  chain records first_occupied_index occupied first_occupied_index
  ∧ chain records first_free_index free first_free_index
  ∧ NoDup (first_occupied_index :: first_free_index :: occupied ++ free)
  ∧ ∀ i, i ∈ first_occupied_index :: first_free_index :: occupied ++ free →
         i < length records.

End Ring.

End detail.

Section Map.

Context `{Countable Key} {Value : Type}.
Variable key_of : Value → Key.
Variable Value0 : Value.

(** [class map]. *)
Record map := {
  indices_ : gmap Key nat;
  storage_ : detail.storage (T := Value);
}.

Definition size (m : map) : nat := base.size (indices_ m).

(** [map::insert]. [try_emplace(key, 0u)] puts the key into the index
    before a slot is asked for. *)
Definition insert (value : Value) (m : map) : expected unit * map :=
  let key := key_of value in
  match indices_ m !! key with
  | Some _ => (of_error (make_error_code duplicated_key), m)
  | None =>
      let indices := <[key := 0]> (indices_ m) in
      let '(index, storage) := detail.add Value0 value (storage_ m) in
      if decide (index = 0)
      then (of_error (make_error_code storage_is_full),
            {| indices_ := indices; storage_ := storage |})
      else (of_value (), {| indices_ := <[key := index]> indices; storage_ := storage |})
  end.

(** [map::insert_or_assign]. *)
Definition insert_or_assign (value : Value) (m : map) : expected unit * map :=
  let key := key_of value in
  match indices_ m !! key with
  | None =>
      let indices := <[key := 0]> (indices_ m) in
      let '(index, storage) := detail.add Value0 value (storage_ m) in
      if decide (index = 0)
      then (of_error (make_error_code storage_is_full),
            {| indices_ := indices; storage_ := storage |})
      else (of_value (), {| indices_ := <[key := index]> indices; storage_ := storage |})
  | Some index =>
      (of_value (), {| indices_ := indices_ m;
                       storage_ := detail.assign index value (storage_ m) |})
  end.

(** [map::erase]. *)
Definition erase (key : Key) (m : map) : bool * map :=
  match indices_ m !! key with
  | None => (false, m)
  | Some index =>
      let storage := (detail.remove Value0 index (storage_ m)).2 in
      (true, {| indices_ := delete key (indices_ m); storage_ := storage |})
  end.

(** [map::find]. *)
Definition find (key : Key) (m : map) : option Value :=
  match indices_ m !! key with
  | None => None
  | Some index => Some (detail.at_index Value0 index (storage_ m))
  end.

(** The allocator of the map has no free slot. *)
Definition no_free_slot (m : map) : Prop := detail.free_ring_empty Value0 (storage_ m).

(** [map::empty]. *)
Definition empty (m : map) : bool := bool_decide (base.size (indices_ m) = 0).

#[local] Hint Extern 0 (Inhabited (detail.record _)) =>
  exact (detail.record_inhabited Value0) : typeclass_instances.

(** What the map holds: the value stored in the slot of every key. *)
Definition contents (m : map) : gmap Key Value :=
  (λ index, detail.at_index Value0 index (storage_ m)) <$> indices_ m.

(** The rings of the allocator are well formed, and the index sends every
    key to the occupied slot that holds a value of that key, and to nothing
    else. *)
Definition well_formed (m : map) (occupied free : list nat) : Prop :=
  ∃ records,
    detail.records_ (storage_ m) = Some records
    ∧ detail.rings Value0 records occupied free
    ∧ ∀ key index,
        indices_ m !! key = Some index
        ↔ index ∈ occupied ∧ key_of (detail.data (records !!! index)) = key.

(** The loop of [map::open] over the slots of the occupied ring: each
    slot is entered into the index under the key of the value it holds, a
    later slot of the same key replacing an earlier one. *)
Definition index_slots (records : list (detail.record Value)) (slots : list nat)
    : gmap Key nat :=
  foldl (λ indices index, <[key_of (detail.data (records !!! index)) := index]> indices)
        ∅ slots.

End Map.

Section Open.

Context `{Countable Key} {Value : Type}.
Variable key_of : Value → Key.
Variable Value0 : Value.
Variable sizeof_Value : Z.
Variable sizeof_record : Z.
Variable char_is_signed : bool.

(** [map::open]: the store is opened, and the index filled by a loop from
    [begin()] to [end()] over it; [None] when that loop does not come to
    its end. *)
Definition open (path : string) (initial_capacity : nat) (w : MappedFile.world)
    : option (expected (map (Key := Key)) * MappedFile.world) :=
  match detail.open Value0 sizeof_Value sizeof_record char_is_signed
                    path initial_capacity w with
  | (of_error ec, w) => Some (of_error ec, w)
  | (of_value maybe_storage, w) =>
      let records := default [] (detail.records_ maybe_storage) in
      match detail.iterate Value0 records with
      | None => None
      | Some slots =>
          Some (of_value {| indices_ := index_slots key_of Value0 records slots;
                            storage_ := maybe_storage |}, w)
      end
  end.

(** [map::capacity]: [storage_.capacity()], the capacity in the header. *)
Definition capacity (m : map (Key := Key) (Value := Value)) : nat :=
  detail.capacity (detail.header_ (storage_ m)).

End Open.

End Queue.

(** ** The store of the tests: [persia::storage<int, item>] *)

Module Test.

(** [struct item] of the storage tests. *)
Record item := { key : Z; data : Z }.

Definition key_of (i : item) : Z := key i.

(** Two [int]s; the record adds a 32-bit marker and is aligned to 8. *)
Definition sizeof_item : Z := 8.
Definition sizeof_record : Z := 16.
Definition item0 : item := {| key := 0; data := 0 |}.

Definition world : Type := MappedFile.world (contents := Storage.file (Value := item)).
Definition storage : Type := Storage.storage (Key := Z) (Value := item).

Definition create : string → nat → world → expected storage * world :=
  Storage.create sizeof_item sizeof_record item0.
Definition open : string → nat → world → expected storage * world :=
  Storage.open key_of sizeof_item sizeof_record item0.
Definition insert : item → storage → bool * storage := Storage.insert key_of.
Definition insert_or_assign : item → storage → bool * storage :=
  Storage.insert_or_assign key_of.
Definition find : Z → storage → option item := Storage.find item0.

Definition erase : Z → storage → bool * storage := Storage.erase.

(** The file [detail::storage<item>::create] is to lay out for capacity 1:
    the header and three records, the two sentinels first. *)
Definition ring_file : Queue.detail.file (T := item) :=
  {| Queue.detail.file_size := 64;
     Queue.detail.file_header :=
       {| Queue.detail.signature := (0xDA, 0x1A, 0xF1, 0x1E)%Z;
          Queue.detail.item_size := sizeof_item;
          Queue.detail.capacity := 1;
          Queue.detail.size := 0 |};
     Queue.detail.file_records := Queue.detail.create_rings item0 1 |}.

Definition queue_world : Type := MappedFile.world (contents := Queue.detail.file (T := item)).

Definition queue_disk (p : platform) (path : string) (f : Queue.detail.file) : queue_world :=
  {| MappedFile.target := p; MappedFile.fs := {[path := f]};
     MappedFile.faults := λ _, None;
     MappedFile.next_handle := 0; MappedFile.trace := [] |}.

Definition queue_open (char_is_signed : bool)
    : string → nat → queue_world → Queue.expected Queue.detail.storage * queue_world :=
  Queue.detail.open item0 sizeof_item sizeof_record char_is_signed.

Definition map : Type := Queue.map (Key := Z) (Value := item).

(** What [open] returns for that file on Win32, where [char] is unsigned. *)
Definition ring_storage : Queue.detail.storage (T := item) :=
  {| Queue.detail.file_ :=
       {| MappedFile.address_ := Some (view_address, 2);
          MappedFile.size_ := 64;
          MappedFile.file_ := Some (file_handle, 0);
          MappedFile.mapping_ := Some (mapping_handle, 1);
          MappedFile.bytes := ring_file;
          MappedFile.backing := "queue.pmap" |};
     Queue.detail.header_ := Queue.detail.file_header ring_file;
     Queue.detail.records_ := Some (Queue.detail.file_records ring_file) |}.

(** [persia::map<int, item>] of queue.hpp on that file. *)
Definition new_map : map := {| Queue.indices_ := ∅; Queue.storage_ := ring_storage |}.

Definition map_insert : item → map → Queue.expected unit * map :=
  Queue.insert key_of item0.
Definition map_size : map → nat := Queue.size.
Definition map_find : Z → map → option item := Queue.find item0.

(** A machine with an empty disk on which no system call fails. *)
Definition boot (p : platform) : world :=
  {| MappedFile.target := p; MappedFile.fs := ∅; MappedFile.faults := λ _, None;
     MappedFile.next_handle := 0; MappedFile.trace := [] |}.

(** The same machine with one file on its disk. *)
Definition disk (p : platform) (path : string) (f : Storage.file) : world :=
  {| MappedFile.target := p; MappedFile.fs := {[path := f]};
     MappedFile.faults := λ _, None;
     MappedFile.next_handle := 0; MappedFile.trace := [] |}.

(** A machine on which the given call fails with the given code. *)
Definition failing (call : syscall) (code : Z) (w : world) : world :=
  {| MappedFile.target := MappedFile.target w; MappedFile.fs := MappedFile.fs w;
     MappedFile.faults := λ c, if decide (c = call) then Some code else MappedFile.faults w c;
     MappedFile.next_handle := MappedFile.next_handle w;
     MappedFile.trace := MappedFile.trace w |}.

(** A file of no bytes, as [fopen(path, "w+b")] leaves it. *)
Definition empty_file : Storage.file (Value := item) := Storage.no_bytes.

(** The file of a store of capacity 1 that holds [item{1, 1}]. *)
Definition one_item_file : Storage.file :=
  {| Storage.file_size := 32;
     Storage.file_header :=
       {| Storage.detail.signature := (0xDA, 0x1A, 0xF1, 0x1E)%Z;
          Storage.detail.item_size := 8;
          Storage.detail.capacity := 1;
          Storage.detail.size := 0 |};
     Storage.file_records :=
       [{| Storage.detail.marker := Storage.detail.marker_occupied;
           Storage.detail.data := {| key := 1; data := 1 |} |}] |}.

(** A file of the right length that some other program wrote. *)
Definition foreign_file : Storage.file :=
  {| Storage.file_size := 32;
     Storage.file_header :=
       {| Storage.detail.signature := (0x7F, 0x45, 0x4C, 0x46)%Z;
          Storage.detail.item_size := 8;
          Storage.detail.capacity := 1;
          Storage.detail.size := 0 |};
     Storage.file_records :=
       [{| Storage.detail.marker := 0;
           Storage.detail.data := {| key := 0; data := 0 |} |}] |}.

(** [create("test.pmap", n)] on a new machine, then [insert(item{1, 1})]. *)
Definition created (p : platform) (n : nat) : expected storage * world :=
  create "test.pmap" n (boot p).

Definition with_one_item (p : platform) (n : nat) : storage :=
  (insert {| key := 1; data := 1 |} (Storage.dereference (created p n).1)).2.

(** The machine after that store was destroyed. *)
Definition after_one_item (p : platform) (n : nat) : world :=
  Storage.destroy (with_one_item p n) (created p n).2.

(** The map of queue.hpp of capacity 1 after [insert(item{1, 1})]. *)
Definition full_map : map := (map_insert {| key := 1; data := 1 |} new_map).2.

(** [insert(item{1, 2})] into a store of capacity 2 that holds key 1. *)
Definition after_duplicate : bool * storage :=
  insert {| key := 1; data := 2 |} (with_one_item Win32 2).

(** A Win32 machine with a file on which [MapViewOfFile] fails. *)
Definition view_refused : world :=
  failing sys_MapViewOfFile 8 (disk Win32 "dummy" one_item_file).

(** A Posix machine with a file on which [mmap] fails. *)
Definition mmap_refused : world :=
  failing sys_mmap 12 (disk Posix "dummy" one_item_file).

(** The calls of a session on "test.pmap", from a new machine. *)
Definition command : Type := Storage.command (Key := Z) (Value := item).
Definition session : Type := Storage.session (Key := Z) (Value := item).

Definition session_after (p : platform) (cs : list command) : session :=
  Storage.run key_of sizeof_item sizeof_record item0 "test.pmap"
    {| Storage.machine := boot p; Storage.instance := None |} cs.

End Test.

(** ** Further stores and files of the examples *)

Module Fixtures.

Import Test.

(** The store [create("test.pmap", 2)] returns on a new machine. *)
Definition new_store : storage := Storage.dereference (created Win32 2).1.

(** The store of capacity 2 that holds [item{1, 1}]. *)
Definition one_item_store : storage := with_one_item Win32 2.

(** The mapping of the file of one item on Posix. *)
Definition one_item_mapping : MappedFile.mapped_file (contents := Storage.file (Value := item)) :=
  {| MappedFile.address_ := Some (view_address, 1);
     MappedFile.size_ := 32;
     MappedFile.file_ := Some (file_handle, 0);
     MappedFile.mapping_ := None;
     MappedFile.bytes := one_item_file;
     MappedFile.backing := "dummy" |}.

(** A file of capacity 2 whose second slot holds a marker that is neither
    [empty] nor [occupied]. *)
Definition corrupted_file : Storage.file :=
  {| Storage.file_size := 48;
     Storage.file_header :=
       {| Storage.detail.signature := (0xDA, 0x1A, 0xF1, 0x1E)%Z;
          Storage.detail.item_size := 8;
          Storage.detail.capacity := 2;
          Storage.detail.size := 0 |};
     Storage.file_records :=
       [{| Storage.detail.marker := Storage.detail.marker_occupied;
           Storage.detail.data := {| key := 1; data := 1 |} |};
        {| Storage.detail.marker := 7;
           Storage.detail.data := {| key := 0; data := 0 |} |}] |}.

(** The records of the ring file of capacity 1, new and after
    [add(item{1, 1})]. *)
Definition new_ring : list (Queue.detail.record item) := Queue.detail.create_rings item0 1.

Definition one_item_ring : list (Queue.detail.record item) :=
  default [] (Queue.detail.records_ (Queue.storage_ full_map)).

(** The ring file of capacity 1 that holds [item{1, 1}]. *)
Definition one_item_ring_file : Queue.detail.file (T := item) :=
  {| Queue.detail.file_size := 64;
     Queue.detail.file_header :=
       {| Queue.detail.signature := (0xDA, 0x1A, 0xF1, 0x1E)%Z;
          Queue.detail.item_size := sizeof_item;
          Queue.detail.capacity := 1;
          Queue.detail.size := 1 |};
     Queue.detail.file_records := one_item_ring |}.

(** [open] of queue.hpp as a map, where [char] is unsigned. *)
Definition map_open
    : string → nat → queue_world → option (Queue.expected map * queue_world) :=
  Queue.open key_of item0 sizeof_item sizeof_record false.

End Fixtures.

(** * Properties *)

(** ** The mapped file *)

Module MappedFileFacts.

Section Facts.

Context {contents : Type}.
Variable byte_size : contents → Z.

#[local] Abbreviation world := (MappedFile.world (contents := contents)).
#[local] Abbreviation mapped_file := (MappedFile.mapped_file (contents := contents)).
#[local] Abbreviation create := (MappedFile.create byte_size).
#[local] Abbreviation same_disk := (MappedFile.same_disk (contents := contents)).

Lemma same_disk_refl (w : world) : same_disk w w.
Proof. by repeat split. Qed.

Lemma same_disk_trans w1 w2 w3 : same_disk w1 w2 → same_disk w2 w3 → same_disk w1 w3.
Proof. intros (?&?&?) (?&?&?). repeat split; congruence. Qed.

Lemma create_same_disk path w r w' : create path w = (r, w') → same_disk w w'.
Proof.
  unfold MappedFile.create, MappedFile.map_refused, MappedFile.acquire, MappedFile.release.
  intros Hc. repeat case_match; simplify_eq/=; by repeat split.
Qed.

(** [mapped_file::create] fails with codes of the system only. *)
Lemma create_error path w ec w' :
  create path w = (of_error ec, w') → ∃ code, ec = system_error code.
Proof.
  unfold MappedFile.create, MappedFile.map_refused, MappedFile.acquire, MappedFile.release.
  intros Hc. repeat case_match; simplify_eq/=; eauto.
Qed.

(** What a successful [mapped_file::create] returns. *)
Lemma create_value path w m w' :
  create path w = (of_value m, w') →
  ∃ c, MappedFile.fs w !! path = Some c
       ∧ MappedFile.bytes m = c
       ∧ MappedFile.size_ m = byte_size c
       ∧ byte_size c ≠ 0%Z
       ∧ MappedFile.backing m = path
       ∧ is_Some (MappedFile.address_ m).
Proof.
  unfold MappedFile.create, MappedFile.map_refused, MappedFile.acquire, MappedFile.release.
  intros Hc.
  repeat case_match; simplify_eq/=; eexists; repeat split; eauto;
    by apply Z.eqb_neq.
Qed.

(** A file that is there and not empty is mapped, when no call is made to
    fail. *)
Lemma create_succeeds path w c :
  (∀ call, MappedFile.faults w call = None) →
  MappedFile.fs w !! path = Some c →
  byte_size c ≠ 0%Z →
  ∃ m w', create path w = (of_value m, w').
Proof.
  intros Hf Hc Hs.
  unfold MappedFile.create, MappedFile.map_refused, MappedFile.acquire, MappedFile.release.
  apply Z.eqb_neq in Hs.
  destruct (MappedFile.target w); simpl; rewrite !Hf, Hc; simpl; rewrite ?Hf, Hs; simpl;
    rewrite ?Hf; eauto.
Qed.

(** A file of length zero is never mapped. *)
Lemma create_empty_file path w c :
  MappedFile.fs w !! path = Some c →
  byte_size c = 0%Z →
  ∃ code w', create path w = (of_error (system_error code), w').
Proof.
  intros Hc Hs.
  unfold MappedFile.create, MappedFile.map_refused, MappedFile.acquire, MappedFile.release.
  rewrite Hc, Hs. simpl.
  repeat case_match; simplify_eq/=; eauto.
Qed.

(** [dispose] leaves the platform and the fault table alone. *)
Lemma dispose_target (m : mapped_file) (w : world) :
  MappedFile.target (MappedFile.dispose m w) = MappedFile.target w
  ∧ MappedFile.faults (MappedFile.dispose m w) = MappedFile.faults w.
Proof.
  unfold MappedFile.dispose, MappedFile.unmap, MappedFile.release_opt,
    MappedFile.release, MappedFile.write_file.
  repeat case_match; simplify_eq/=; done.
Qed.

(** Unmapping a shared view leaves its bytes in the file. *)
Lemma dispose_shared (m : mapped_file) (w : world) :
  MappedFile.target w = Win32 →
  is_Some (MappedFile.address_ m) →
  MappedFile.fs (MappedFile.dispose m w)
  = <[MappedFile.backing m := MappedFile.bytes m]> (MappedFile.fs w).
Proof.
  intros Ht [a Ha].
  unfold MappedFile.dispose, MappedFile.unmap, MappedFile.release_opt,
    MappedFile.release, MappedFile.write_file.
  rewrite Ht, Ha. simpl. rewrite ?Ht. simpl.
  repeat case_match; simplify_eq/=; done.
Qed.

(** Unmapping a private view leaves the file as it was. *)
Lemma dispose_private (m : mapped_file) (w : world) :
  MappedFile.target w = Posix →
  MappedFile.fs (MappedFile.dispose m w) = MappedFile.fs w.
Proof.
  intros Ht.
  unfold MappedFile.dispose, MappedFile.unmap, MappedFile.release_opt,
    MappedFile.release, MappedFile.write_file.
  rewrite Ht. repeat case_match; simplify_eq/=; try done; congruence.
Qed.

(** Either way the file system changes at [backing m] at most, and only to
    the mapped bytes. *)
Lemma dispose_fs (m : mapped_file) (w : world) :
  MappedFile.fs (MappedFile.dispose m w) = MappedFile.fs w
  ∨ MappedFile.fs (MappedFile.dispose m w)
    = <[MappedFile.backing m := MappedFile.bytes m]> (MappedFile.fs w).
Proof.
  unfold MappedFile.dispose, MappedFile.unmap, MappedFile.release_opt,
    MappedFile.release, MappedFile.write_file.
  repeat case_match; simplify_eq/=; auto.
Qed.

(** A view of a file that was not changed since it was mapped gives the
    file back unchanged. *)
Lemma dispose_unchanged (m : mapped_file) (w : world) :
  MappedFile.fs w !! MappedFile.backing m = Some (MappedFile.bytes m) →
  MappedFile.fs (MappedFile.dispose m w) = MappedFile.fs w.
Proof.
  intros Hb. destruct (dispose_fs m w) as [-> | ->]; [done|].
  by apply insert_id.
Qed.

Lemma live_handles_app tr tr' live :
  MappedFile.live_handles (tr ++ tr') live
  = MappedFile.live_handles tr' (MappedFile.live_handles tr live).
Proof.
  revert live. induction tr as [|[h|h] tr IH]; intros live; simpl; auto.
Qed.

Lemma acquire_release_balanced h :
  MappedFile.live_handles [Acquire h; Release h] [] = [].
Proof. simpl. case_bool_decide; [congruence | done]. Qed.

(** The failure paths of [mapped_file::create] that give back what they
    took: all of them on Posix, and on Win32 all but the failure of
    [MapViewOfFile]. *)
Lemma create_failure_releases path w ec w' :
  create path w = (of_error ec, w') →
  MappedFile.target w = Posix ∨ MappedFile.faults w sys_MapViewOfFile = None →
  ∃ events, MappedFile.trace w' = MappedFile.trace w ++ events
            ∧ MappedFile.live_handles events [] = [].
Proof.
  unfold MappedFile.create, MappedFile.map_refused, MappedFile.acquire, MappedFile.release.
  intros Hc Hp.
  repeat case_match; simplify_eq/=;
    try (exists []; split; [by rewrite app_nil_r | done]);
    try (eexists; split; [by rewrite <- app_assoc | by apply acquire_release_balanced]);
    destruct Hp; congruence.
Qed.

(** When [MapViewOfFile] fails, the mapping object made just before is
    left open. *)
Lemma create_view_failure_leaks path w c code :
  MappedFile.target w = Win32 →
  MappedFile.faults w sys_CreateFileA = None →
  MappedFile.faults w sys_CreateFileMapping = None →
  MappedFile.faults w sys_MapViewOfFile = Some code →
  MappedFile.fs w !! path = Some c →
  byte_size c ≠ 0%Z →
  ∃ w', create path w = (of_error (system_error code), w')
        ∧ MappedFile.trace w'
          = MappedFile.trace w
            ++ [Acquire (file_handle, MappedFile.next_handle w);
                Acquire (mapping_handle, S (MappedFile.next_handle w));
                Release (file_handle, MappedFile.next_handle w)].
Proof.
  intros Ht H1 H2 H3 Hc Hs. apply Z.eqb_neq in Hs.
  unfold MappedFile.create, MappedFile.map_refused, MappedFile.acquire, MappedFile.release.
  rewrite Ht, H1, Hc. simpl. rewrite H2, Hs. simpl. rewrite H3. simpl.
  eexists. split; [done|]. simpl. by rewrite <- !app_assoc.
Qed.

(** *** The life of a mapping *)

Lemma settled_refl (w : world) : MappedFile.settled w w.
Proof. split_and!; [done | done |]. exists []. by rewrite app_nil_r. Qed.

Lemma settled_trans (w1 w2 w3 : world) :
  MappedFile.settled w1 w2 → MappedFile.settled w2 w3 → MappedFile.settled w1 w3.
Proof.
  intros (Ht1 & Hf1 & e1 & He1 & Hl1) (Ht2 & Hf2 & e2 & He2 & Hl2).
  split_and!; [congruence | congruence |].
  exists (e1 ++ e2). split.
  - by rewrite He2, He1, app_assoc.
  - by rewrite live_handles_app, Hl1.
Qed.

Lemma fopen_w_settled (no_bytes : contents) path (w : world) :
  MappedFile.settled w (MappedFile.fopen_w no_bytes path w).2.
Proof.
  unfold MappedFile.fopen_w. destruct (MappedFile.faults w sys_fopen); simpl.
  - apply settled_refl.
  - split_and!; [done | done |]. exists []. by rewrite app_nil_r.
Qed.

Lemma resize_file_settled (resized : Z → contents → contents) path n (w : world) :
  MappedFile.settled w (MappedFile.resize_file resized path n w).2.
Proof.
  unfold MappedFile.resize_file.
  destruct (MappedFile.faults w sys_resize_file), (MappedFile.fs w !! path); simpl;
    try apply settled_refl.
  split_and!; [done | done |]. exists []. by rewrite app_nil_r.
Qed.

Lemma create_error_settled path (w : world) ec w' :
  MappedFile.target w = Posix ∨ MappedFile.faults w sys_MapViewOfFile = None →
  create path w = (of_error ec, w') → MappedFile.settled w w'.
Proof.
  intros Hp Hc. destruct (create_same_disk _ _ _ _ Hc) as (Ht & Hf & _).
  split_and!; [done | done |]. by eapply create_failure_releases.
Qed.

(** The log of a mapping from [create] to the end of [dispose]. *)
Lemma lifetime_trace path (w : world) m w1 :
  create path w = (of_value m, w1) →
  MappedFile.trace (MappedFile.dispose m w1)
  = MappedFile.trace w
    ++ MappedFile.lifetime_events (MappedFile.target w) (MappedFile.next_handle w).
Proof.
  unfold MappedFile.create, MappedFile.map_refused, MappedFile.acquire, MappedFile.release.
  intros Hc.
  repeat case_match; simplify_eq/=;
    unfold MappedFile.dispose, MappedFile.unmap, MappedFile.release_opt,
      MappedFile.release, MappedFile.write_file; simpl;
    repeat (match goal with H : MappedFile.target _ = _ |- _ => rewrite H end); simpl;
    by rewrite <- !app_assoc.
Qed.

Lemma lifetime_events_balanced p n :
  MappedFile.live_handles (MappedFile.lifetime_events p n) [] = [].
Proof. destruct p; simpl; repeat case_bool_decide; simplify_eq/=; done. Qed.

(** What [dispose] logs depends on the handles of the object only. *)
Lemma dispose_trace_handles (m m' : mapped_file) (w : world) :
  MappedFile.address_ m' = MappedFile.address_ m →
  MappedFile.file_ m' = MappedFile.file_ m →
  MappedFile.mapping_ m' = MappedFile.mapping_ m →
  MappedFile.trace (MappedFile.dispose m' w) = MappedFile.trace (MappedFile.dispose m w).
Proof.
  intros Ha Hf Hm.
  unfold MappedFile.dispose, MappedFile.unmap, MappedFile.release_opt,
    MappedFile.release, MappedFile.write_file.
  rewrite Ha, Hf, Hm. repeat case_match; simplify_eq/=; done.
Qed.

(** A mapping that was made and is disposed of, whatever was written
    through it, has given back its handles. *)
Lemma create_dispose_settled path (w : world) m w1 (m' : mapped_file) :
  create path w = (of_value m, w1) →
  MappedFile.address_ m' = MappedFile.address_ m →
  MappedFile.file_ m' = MappedFile.file_ m →
  MappedFile.mapping_ m' = MappedFile.mapping_ m →
  MappedFile.settled w (MappedFile.dispose m' w1).
Proof.
  intros Hc Ha Hf Hm.
  destruct (create_same_disk _ _ _ _ Hc) as (Ht & Hfa & _).
  destruct (dispose_target m' w1) as [Ht' Hfa'].
  split_and!; [congruence | congruence |].
  eexists. split; [|apply lifetime_events_balanced].
  rewrite (dispose_trace_handles m m') by done. by apply (lifetime_trace path).
Qed.


(** Property X2. Whatever [mapped_file::create] returns, it has made, cut, grown or
    written no file: the file system, the platform and the fault table are
    as before, the log of handles has only grown at its end, and no handle
    number was given back. *)
Theorem create_leaves_files_alone path (w : world) :
  same_disk w (create path w).2
  ∧ (∃ events, MappedFile.trace (create path w).2 = MappedFile.trace w ++ events)
  ∧ MappedFile.next_handle w ≤ MappedFile.next_handle (create path w).2.
Proof.
  split.
  - destruct (create path w) as [r w'] eqn:Hc. by eapply create_same_disk.
  - unfold MappedFile.create, MappedFile.map_refused, MappedFile.acquire, MappedFile.release.
    repeat case_match; simplify_eq/=;
      (split; [rewrite <- ?app_assoc; first [by eexists | by exists []; rewrite app_nil_r]
              | lia]).
Qed.

(** Property X3. A mapping that [mapped_file::create] returned and that is then
    assigned an empty [mapped_file{}] has given back everything: the log
    holds its handles taken in order and released once each in the reverse
    order, the object is false as a [bool], its destructor and that of the
    temporary do nothing more, and the file that was not written to is as
    it was. *)
Theorem mapping_released_once (no_bytes : contents) path (w : world) m w1 :
  create path w = (of_value m, w1) →
  ∃ w2, MappedFile.move_assign no_bytes m (MappedFile.mapped_file_default no_bytes) w1
        = (MappedFile.mapped_file_default no_bytes,
           MappedFile.mapped_file_default no_bytes, w2)
        ∧ MappedFile.mapped_file_bool (MappedFile.mapped_file_default no_bytes) = false
        ∧ MappedFile.dispose (MappedFile.mapped_file_default no_bytes) w2 = w2
        ∧ MappedFile.trace w2
          = MappedFile.trace w
            ++ MappedFile.lifetime_events (MappedFile.target w) (MappedFile.next_handle w)
        ∧ MappedFile.live_handles
            (MappedFile.lifetime_events (MappedFile.target w) (MappedFile.next_handle w)) []
          = []
        ∧ MappedFile.fs w2 = MappedFile.fs w.
Proof.
  intros Hc. eexists. split; [reflexivity|].
  split; [done|].
  assert (MappedFile.fs (MappedFile.dispose m w1) = MappedFile.fs w) as Hfs.
  { destruct (create_same_disk _ _ _ _ Hc) as (_ & _ & Hfs). rewrite <- Hfs.
    apply dispose_unchanged. rewrite Hfs.
    destruct (create_value _ _ _ _ Hc) as (c & Hl & Hb & _ & _ & Hp & _). congruence. }
  split_and!; [| | | exact Hfs].
  - unfold MappedFile.dispose, MappedFile.unmap, MappedFile.release_opt. simpl.
    by destruct (MappedFile.target _), (MappedFile.dispose m w1).
  - by apply (lifetime_trace path).
  - apply lifetime_events_balanced.
Qed.

(** Property X4. Whenever [mapped_file::create] returns an error on Unix, and on
    Windows whenever it does for another reason than a failure of
    [MapViewOfFile], the error is a code of the system, every handle taken
    on the way has been released, and the file system is as it was. *)
Theorem create_error_releases path (w : world) ec w' :
  MappedFile.target w = Posix ∨ MappedFile.faults w sys_MapViewOfFile = None →
  create path w = (of_error ec, w') →
  (∃ code, ec = system_error code)
  ∧ (∃ events, MappedFile.trace w' = MappedFile.trace w ++ events
               ∧ MappedFile.live_handles events [] = [])
  ∧ MappedFile.fs w' = MappedFile.fs w.
Proof.
  intros Hp Hc. split_and!.
  - by eapply create_error.
  - by eapply create_failure_releases.
  - by destruct (create_same_disk _ _ _ _ Hc) as (_ & _ & ?).
Qed.

End Facts.

End MappedFileFacts.

(** ** The map of queue.hpp *)

Module QueueFacts.

Section Facts.

Context `{Countable Key} {Value : Type}.
Variable key_of : Value → Key.
Variable Value0 : Value.

#[local] Abbreviation map := (Queue.map (Key := Key) (Value := Value)).
#[local] Abbreviation insert := (Queue.insert key_of Value0).

(** With nothing but the sentinel in the free ring, [add] returns 0. *)
Lemma add_full d (s : Queue.detail.storage (T := Value)) :
  Queue.detail.free_ring_empty Value0 s → Queue.detail.add Value0 d s = (0, s).
Proof.
  unfold Queue.detail.free_ring_empty, Queue.detail.add.
  destruct (Queue.detail.records_ s) as [records|]; [|done].
  intros ->. by rewrite decide_True.
Qed.

(** [insert] of an indexed key changes nothing. *)
Lemma map_insert_duplicate value (m : map) :
  is_Some (Queue.indices_ m !! key_of value) →
  insert value m = (Queue.of_error (Queue.make_error_code Queue.duplicated_key), m).
Proof. intros [i Hi]. unfold Queue.insert. by rewrite Hi. Qed.

(** [insert] of a new key into a full map fails and leaves the key in the
    index, on slot 0. *)
Lemma map_insert_full value (m : map) :
  Queue.indices_ m !! key_of value = None →
  Queue.no_free_slot Value0 m →
  insert value m
  = (Queue.of_error (Queue.make_error_code Queue.storage_is_full),
     {| Queue.indices_ := <[key_of value := 0]> (Queue.indices_ m);
        Queue.storage_ := Queue.storage_ m |}).
Proof.
  intros Hk Hfull. unfold Queue.insert. rewrite Hk, add_full by done. done.
Qed.

Lemma map_insert_full_size value (m : map) :
  Queue.indices_ m !! key_of value = None →
  Queue.no_free_slot Value0 m →
  Queue.size (insert value m).2 = S (Queue.size m).
Proof.
  intros Hk Hfull. rewrite map_insert_full by done. unfold Queue.size. simpl.
  by apply map_size_insert_None.
Qed.

End Facts.

Section OpenFacts.

Context {T : Type}.
Variable T0 : T.
Variable sizeof_T : Z.
Variable sizeof_record : Z.
Variable char_is_signed : bool.

#[local] Abbreviation file := (Queue.detail.file (T := T)).
#[local] Abbreviation world := (MappedFile.world (contents := file)).
#[local] Abbreviation mapped_create :=
  (Queue.detail.mapped_file.create (contents := file) Queue.detail.file_size
     Queue.detail.no_bytes).
#[local] Abbreviation open := (Queue.detail.open T0 sizeof_T sizeof_record char_is_signed).
#[local] Abbreviation signature_accepted := (Queue.detail.signature_accepted char_is_signed).
#[local] Abbreviation expand := (Queue.detail.expand T0 sizeof_record).
#[local] Abbreviation storage_size := (Queue.detail.storage_size sizeof_record).

(** [detail::mapped_file::create] fails with codes of the system only. *)
Lemma mapped_create_error path w ec w' :
  mapped_create path w = (Queue.of_error ec, w') → ∃ code, ec = Queue.system_error code.
Proof.
  unfold Queue.detail.mapped_file.create, MappedFile.map_refused, MappedFile.acquire,
    MappedFile.release.
  intros Hc. repeat case_match; simplify_eq/=; eauto.
Qed.

(** A file that is there and not empty is mapped, when no call is made to
    fail. *)
Lemma mapped_create_succeeds path (w : world) f :
  (∀ call, MappedFile.faults w call = None) →
  MappedFile.fs w !! path = Some f →
  Queue.detail.file_size f ≠ 0%Z →
  ∃ m w1, mapped_create path w = (Queue.of_value m, w1)
          ∧ MappedFile.bytes m = f
          ∧ MappedFile.size_ m = Queue.detail.file_size f
          ∧ MappedFile.backing m = path
          ∧ MappedFile.fs w1 = MappedFile.fs w.
Proof.
  intros Hf Hc Hs.
  unfold Queue.detail.mapped_file.create, MappedFile.map_refused, MappedFile.acquire,
    MappedFile.release.
  apply Z.eqb_neq in Hs.
  destruct (MappedFile.target w); simpl; rewrite !Hf, Hc; simpl; rewrite ?Hf, Hs; simpl;
    rewrite ?Hf; eexists _, _; split_and!; done.
Qed.

(** Whenever [detail::mapped_file::create] returns an error it has given
    back what it took. *)
Lemma mapped_create_failure_releases path (w : world) ec w' :
  mapped_create path w = (Queue.of_error ec, w') →
  ∃ events, MappedFile.trace w' = MappedFile.trace w ++ events
            ∧ MappedFile.live_handles events [] = [].
Proof.
  unfold Queue.detail.mapped_file.create, MappedFile.map_refused, MappedFile.acquire,
    MappedFile.release.
  intros Hc.
  repeat case_match; simplify_eq/=;
    try (exists []; split; [by rewrite app_nil_r | done]);
    try (eexists; split;
           [by rewrite <- app_assoc | by apply MappedFileFacts.acquire_release_balanced]).
Qed.

(** [expand] fails with codes of the system only. *)
Lemma ring_expand_error path m h n w e w' :
  expand path m h n w ≠ (Queue.of_error (Queue.make_error_code e), w').
Proof.
  unfold Queue.detail.expand, MappedFile.resize_file. intros Hex.
  repeat case_match; simplify_eq/=.
  match goal with
  | Hc : Queue.detail.mapped_file.create _ _ _ _ = (Queue.of_error _, _) |- _ =>
      apply mapped_create_error in Hc as [code Hc]; done
  end.
Qed.

(** Where [char] is unsigned the four bytes are accepted; where it is
    signed no signature is. *)
Lemma signature_accepted_unsigned h :
  char_is_signed = false →
  Queue.detail.signature h = (0xDA, 0x1A, 0xF1, 0x1E)%Z →
  signature_accepted h = true.
Proof.
  intros Hc Hs. unfold Queue.detail.signature_accepted, Queue.detail.as_char.
  rewrite Hc, Hs. done.
Qed.

Lemma signature_accepted_signed h :
  char_is_signed = true → signature_accepted h = false.
Proof.
  intros Hc. unfold Queue.detail.signature_accepted, Queue.detail.as_char. rewrite Hc. simpl.
  apply bool_decide_eq_false. intros (H0 & _). revert H0.
  pose proof (Z.mod_pos_bound (Queue.detail.signature h).1.1.1 256 ltac:(lia)).
  destruct (128 <=? (Queue.detail.signature h).1.1.1 `mod` 256)%Z eqn:Hb; intros H0; lia.
Qed.

(** The four rejections of [detail::storage::open], in the order the
    checks are made: the two sentinel records count for the length. *)
Lemma ring_open_rejections path n w f :
  (∀ call, MappedFile.faults w call = None) →
  MappedFile.fs w !! path = Some f →
  Queue.detail.file_size f ≠ 0%Z →
  let too_small :=
    (Queue.detail.file_size f < Queue.detail.sizeof_header + 2 * sizeof_record)%Z in
  let bad_signature := signature_accepted (Queue.detail.file_header f) = false in
  let bad_size :=
    Queue.detail.file_size f
    ≠ storage_size (Queue.detail.capacity (Queue.detail.file_header f)) in
  let bad_item_size := Queue.detail.item_size (Queue.detail.file_header f) ≠ sizeof_T in
  ((open path n w).1 = Queue.of_error (Queue.make_error_code Queue.file_size_is_too_small)
   ↔ too_small)
  ∧ ((open path n w).1 = Queue.of_error (Queue.make_error_code Queue.invalid_file_signature)
     ↔ ¬ too_small ∧ bad_signature)
  ∧ ((open path n w).1 = Queue.of_error (Queue.make_error_code Queue.mismatch_file_size)
     ↔ ¬ too_small ∧ ¬ bad_signature ∧ bad_size)
  ∧ ((open path n w).1 = Queue.of_error (Queue.make_error_code Queue.mismatch_item_size)
     ↔ ¬ too_small ∧ ¬ bad_signature ∧ ¬ bad_size ∧ bad_item_size)
  ∧ (too_small ∨ bad_signature ∨ bad_size ∨ bad_item_size →
     MappedFile.fs (open path n w).2 = MappedFile.fs w).
Proof.
  intros Hnf Hfs Hnz.
  destruct (mapped_create_succeeds path w f Hnf Hfs Hnz)
    as (m & w1 & Hcreate & Hbytes & Hsz & Hback & Hfs1).
  assert (MappedFile.fs (MappedFile.dispose m w1) = MappedFile.fs w) as Hdisp.
  { rewrite MappedFileFacts.dispose_unchanged; [done|]. by rewrite Hback, Hbytes, Hfs1. }
  simpl. unfold Queue.detail.open. rewrite Hcreate. cbv beta iota zeta.
  rewrite Hbytes, Hsz.
  destruct (decide (Queue.detail.file_size f
                    < Queue.detail.sizeof_header + 2 * sizeof_record)%Z) as [H1 | H1].
  { simpl. intuition (first [done | congruence]). }
  destruct (signature_accepted (Queue.detail.file_header f)) eqn:H2.
  2: { simpl. intuition (first [done | congruence]). }
  simpl.
  destruct (decide (Queue.detail.file_size f
                    ≠ storage_size (Queue.detail.capacity (Queue.detail.file_header f))))
    as [H3 | H3].
  { simpl. intuition (first [done | congruence]). }
  apply dec_stable in H3.
  destruct (decide (sizeof_T ≠ Queue.detail.item_size (Queue.detail.file_header f)))
    as [H4 | H4].
  { simpl. intuition (first [done | congruence]). }
  apply dec_stable in H4.
  assert (∀ e r,
            r = (if decide (Queue.detail.capacity (Queue.detail.file_header f) < n)
                 then expand path m (Queue.detail.file_header f) n w1
                 else (Queue.of_value
                         {| Queue.detail.file_ := m;
                            Queue.detail.header_ := Queue.detail.file_header f;
                            Queue.detail.records_ := Some (Queue.detail.file_records f) |},
                       w1)) →
            r.1 ≠ Queue.of_error (Queue.make_error_code e)) as Hrest.
  { intros e r ->. case_decide; [|done].
    destruct (expand path m (Queue.detail.file_header f) n w1) as [r w'] eqn:Hex. simpl.
    intros ->. by apply ring_expand_error in Hex. }
  split_and!.
  - split; [intros Heq; by eapply Hrest in Heq | done].
  - split; [intros Heq; by eapply Hrest in Heq | intros [_ ?]; done].
  - split; [intros Heq; by eapply Hrest in Heq | intros (_ & _ & ?); done].
  - split; [intros Heq; by eapply Hrest in Heq | intros (_ & _ & _ & ?); congruence].
  - intros [? | [? | [? | ?]]]; first [done | congruence].
Qed.

End OpenFacts.

End QueueFacts.

(** ** The rings of queue.hpp *)

Module RingFacts.

Import Queue.detail.

Section Facts.

Context {T : Type}.
Variable T0 : T.

#[local] Abbreviation record := (Queue.detail.record T).
#[local] Abbreviation storage := (Queue.detail.storage (T := T)).
#[local] Abbreviation chain := (Queue.detail.chain T0).
#[local] Abbreviation rings := (Queue.detail.rings T0).
#[local] Abbreviation add := (Queue.detail.add T0).
#[local] Abbreviation remove := (Queue.detail.remove T0).
#[local] Abbreviation splice := (Queue.detail.splice T0).
#[local] Abbreviation visit := (Queue.detail.visit T0).
#[local] Abbreviation create_rings := (Queue.detail.create_rings T0).

#[local] Hint Extern 0 (Inhabited (Queue.detail.record _)) =>
  exact (Queue.detail.record_inhabited T0) : typeclass_instances.

(** *** Reading records after a store *)

Lemma next_alter_next (records : list record) v i j :
  next (alter (set_next v) i records !!! j)
  = if decide (i = j ∧ i < length records) then v else next (records !!! j).
Proof. rewrite list_lookup_total_alter. case_decide as Hd; [by destruct Hd as [-> _] | done]. Qed.

Lemma next_alter_previous (records : list record) v i j :
  next (alter (set_previous v) i records !!! j) = next (records !!! j).
Proof. rewrite list_lookup_total_alter. case_decide as Hd; [by destruct Hd as [-> _] | done]. Qed.

Lemma next_alter_data (records : list record) v i j :
  next (alter (set_data v) i records !!! j) = next (records !!! j).
Proof. rewrite list_lookup_total_alter. case_decide as Hd; [by destruct Hd as [-> _] | done]. Qed.

Lemma previous_alter_previous (records : list record) v i j :
  previous (alter (set_previous v) i records !!! j)
  = if decide (i = j ∧ i < length records) then v else previous (records !!! j).
Proof. rewrite list_lookup_total_alter. case_decide as Hd; [by destruct Hd as [-> _] | done]. Qed.

Lemma previous_alter_next (records : list record) v i j :
  previous (alter (set_next v) i records !!! j) = previous (records !!! j).
Proof. rewrite list_lookup_total_alter. case_decide as Hd; [by destruct Hd as [-> _] | done]. Qed.

Lemma previous_alter_data (records : list record) v i j :
  previous (alter (set_data v) i records !!! j) = previous (records !!! j).
Proof. rewrite list_lookup_total_alter. case_decide as Hd; [by destruct Hd as [-> _] | done]. Qed.

Lemma ring_data_alter_data (records : list record) v i j :
  data (alter (set_data v) i records !!! j)
  = if decide (i = j ∧ i < length records) then v else data (records !!! j).
Proof. rewrite list_lookup_total_alter. case_decide as Hd; [by destruct Hd as [-> _] | done]. Qed.

Lemma data_alter_next (records : list record) v i j :
  data (alter (set_next v) i records !!! j) = data (records !!! j).
Proof. rewrite list_lookup_total_alter. case_decide as Hd; [by destruct Hd as [-> _] | done]. Qed.

Lemma data_alter_previous (records : list record) v i j :
  data (alter (set_previous v) i records !!! j) = data (records !!! j).
Proof. rewrite list_lookup_total_alter. case_decide as Hd; [by destruct Hd as [-> _] | done]. Qed.

Ltac read_links :=
  repeat (progress
    rewrite ?next_alter_next, ?next_alter_previous, ?next_alter_data,
      ?previous_alter_previous, ?previous_alter_next, ?previous_alter_data,
      ?ring_data_alter_data, ?data_alter_next, ?data_alter_previous, ?length_alter).

(** *** Chains of links *)

Lemma chain_ext (R R' : list record) a l b :
  (∀ x, x ∈ a :: l → next (R' !!! x) = next (R !!! x)) →
  (∀ x, x ∈ l ++ [b] → previous (R' !!! x) = previous (R !!! x)) →
  chain R a l b → chain R' a l b.
Proof.
  revert a. induction l as [|y l IH]; simpl; intros a Hn Hp.
  - intros [H1 H2]. rewrite Hn, Hp by apply list_elem_of_here. done.
  - intros (H1 & H2 & H3). rewrite Hn, Hp by apply list_elem_of_here.
    split_and!; [done | done |].
    apply IH; [| | done]; intros x Hx; [apply Hn | apply Hp]; by apply list_elem_of_further.
Qed.

Lemma chain_app (R : list record) a l1 x l2 b :
  chain R a (l1 ++ x :: l2) b ↔ chain R a l1 x ∧ chain R x l2 b.
Proof.
  revert a. induction l1 as [|y l1 IH]; simpl; intros a; [tauto|]. rewrite IH. tauto.
Qed.

Lemma chain_snoc (R : list record) a l x b :
  chain R a (l ++ [x]) b ↔ chain R a l x ∧ chain R x [] b.
Proof. apply chain_app. Qed.

Lemma chain_next (R : list record) a l b : chain R a l b → next (R !!! a) = hd b l.
Proof. destruct l; simpl; tauto. Qed.

Lemma last_cons_default {A} (x : A) l a : default a (last (x :: l)) = default x (last l).
Proof. rewrite last_cons. by destruct (last l). Qed.

Lemma chain_previous (R : list record) a l b :
  chain R a l b → previous (R !!! b) = default a (last l).
Proof.
  revert a. induction l as [|y l IH]; intros a.
  - by intros [_ ?].
  - intros (_ & _ & Hc). by rewrite (IH _ Hc), last_cons_default.
Qed.

Lemma last_default_elem_of {A} (a : A) l : default a (last l) ∈ a :: l.
Proof.
  revert a. induction l as [|y l IH]; intros a; [apply list_elem_of_here|].
  rewrite last_cons_default. apply list_elem_of_further, IH.
Qed.

(** The last link of a chain is led to another slot. *)
Lemma chain_redirect (R R' : list record) a l b c :
  NoDup (a :: l) →
  chain R a l b →
  next (R' !!! default a (last l)) = c →
  previous (R' !!! c) = default a (last l) →
  (∀ x, x ∈ a :: l → x ≠ default a (last l) → next (R' !!! x) = next (R !!! x)) →
  (∀ x, x ∈ l → previous (R' !!! x) = previous (R !!! x)) →
  chain R' a l c.
Proof.
  revert a. induction l as [|y l IH]; intros a Hnd Hc Hn Hp Hfn Hfp.
  - done.
  - rewrite last_cons_default in *. destruct Hc as (H1 & H2 & H3).
    apply NoDup_cons in Hnd as [Hna Hnd]. simpl. split_and!.
    + rewrite Hfn; [done | apply list_elem_of_here |].
      intros ->. apply Hna. apply last_default_elem_of.
    + rewrite Hfp; [done | apply list_elem_of_here].
    + apply IH; try done.
      * intros x Hx. apply Hfn. by apply list_elem_of_further.
      * intros x Hx. apply Hfp. by apply list_elem_of_further.
Qed.

(** A slot is linked in behind [a], at the head of the chain. *)
Lemma chain_push (R R' : list record) a i l b :
  chain R a l b →
  next (R' !!! a) = i →
  previous (R' !!! i) = a →
  next (R' !!! i) = hd b l →
  previous (R' !!! hd b l) = i →
  (∀ x, x ∈ l → next (R' !!! x) = next (R !!! x)) →
  (∀ x, x ∈ tail (l ++ [b]) → previous (R' !!! x) = previous (R !!! x)) →
  chain R' a (i :: l) b.
Proof.
  intros Hc Ha Hi Hin Hip Hfn Hfp. simpl. split_and!; [done | done |].
  destruct l as [|y l]; simpl in *; [done|].
  destruct Hc as (H1 & H2 & H3). split_and!; [done | done |].
  eapply chain_ext; [| | exact H3]; done.
Qed.

(** The slot behind [a] is taken out of the chain. *)
Lemma chain_pop (R R' : list record) a i l b :
  chain R a (i :: l) b →
  next (R' !!! a) = hd b l →
  previous (R' !!! hd b l) = a →
  (∀ x, x ∈ l → next (R' !!! x) = next (R !!! x)) →
  (∀ x, x ∈ tail (l ++ [b]) → previous (R' !!! x) = previous (R !!! x)) →
  chain R' a l b.
Proof.
  intros (H1 & H2 & Hc) Ha Hp Hfn Hfp.
  destruct l as [|y l]; simpl in *; [done|].
  destruct Hc as (H3 & H4 & H5). split_and!; [done | done |].
  eapply chain_ext; [| | exact H5]; done.
Qed.

(** *** [add] and [remove] *)

(** The links and the data after [add], read off its stores in the order
    they are made. *)
Lemma add_links d (s : storage) (R : list record) :
  records_ s = Some R →
  let i := next (R !!! first_free_index) in
  let nf := next (R !!! i) in
  let no := next (R !!! first_occupied_index) in
  i ≠ first_free_index →
  0 < length R → 1 < length R → i < length R → nf < length R → no < length R →
  ∃ R',
    add d s = (i, {| file_ := file_ s; header_ := resize_header 1 (header_ s);
                     records_ := Some R' |})
    ∧ length R' = length R
    ∧ (∀ j, next (R' !!! j)
            = if decide (j = 0) then i
              else if decide (j = i) then no
              else if decide (j = 1) then nf else next (R !!! j))
    ∧ (∀ j, previous (R' !!! j)
            = if decide (j = no) then i
              else if decide (j = i) then 0
              else if decide (j = nf) then 1 else previous (R !!! j))
    ∧ (∀ j, data (R' !!! j) = if decide (j = i) then d else data (R !!! j)).
Proof.
  intros Hrec i nf no Hi H0 H1 Hil Hnfl Hnol.
  unfold first_free_index, first_occupied_index in *.
  eexists. split.
  { unfold Queue.detail.add. rewrite Hrec. fold i.
    unfold first_free_index, first_occupied_index.
    rewrite decide_False by done. reflexivity. }
  cbv zeta. unfold first_free_index, first_occupied_index. fold i.
  split_and!.
  - by read_links.
  - intros j. read_links. fold nf. fold no. fold i.
    repeat case_decide; destruct_and?; subst; try done; try lia.
  - intros j. read_links. fold nf. fold no. fold i.
    repeat case_decide; destruct_and?; subst; try done; try lia.
  - intros j. read_links. repeat case_decide; destruct_and?; subst; try done; try lia.
Qed.

(** What well-formed rings say of single slots. *)
Lemma rings_slots (R : list record) occupied free :
  rings R occupied free →
  0 < length R ∧ 1 < length R
  ∧ NoDup occupied ∧ NoDup free
  ∧ (∀ x, x ∈ occupied → x ≠ 0 ∧ x ≠ 1 ∧ (x ∉ free) ∧ x < length R)
  ∧ (∀ x, x ∈ free → x ≠ 0 ∧ x ≠ 1 ∧ (x ∉ occupied) ∧ x < length R).
Proof.
  intros (_ & _ & Hnd & Hb). unfold first_occupied_index, first_free_index in *.
  apply NoDup_cons in Hnd as [H0 Hnd]. apply NoDup_cons in Hnd as [H1 Hnd].
  apply NoDup_app in Hnd as (Ho & Hd & Hf).
  rewrite not_elem_of_cons, not_elem_of_app in H0. rewrite not_elem_of_app in H1.
  destruct H0 as (_ & H0o & H0f). destruct H1 as (H1o & H1f).
  split_and!; try done.
  - apply Hb. apply list_elem_of_here.
  - apply Hb. apply list_elem_of_further, list_elem_of_here.
  - intros x Hx. split_and!.
    + by intros ->.
    + by intros ->.
    + by apply Hd.
    + apply Hb. do 2 apply list_elem_of_further. apply elem_of_app. by left.
  - intros x Hx. split_and!.
    + by intros ->.
    + by intros ->.
    + intros Ho'. by apply (Hd x).
    + apply Hb. do 2 apply list_elem_of_further. apply elem_of_app. by right.
Qed.

Lemma hd_elem_of {A} (d : A) l : hd d l = d ∧ l = [] ∨ hd d l ∈ l.
Proof. destruct l; [by left | right; apply list_elem_of_here]. Qed.

Lemma elem_of_tail_snoc {A} (x b : A) l : x ∈ tail (l ++ [b]) → x ≠ hd b l → x ∈ tail l ∨ x = b.
Proof.
  destruct l as [|y l]; simpl; [by rewrite elem_of_nil|].
  rewrite elem_of_app, list_elem_of_singleton. tauto.
Qed.

Lemma elem_of_tail {A} (x : A) l : x ∈ tail l → x ∈ l.
Proof. destruct l; [done | apply list_elem_of_further]. Qed.

Lemma NoDup_tail_hd {A} (x d : A) l : NoDup l → x ∈ tail l → x ≠ hd d l.
Proof.
  destruct l as [|y l]; simpl; [by rewrite elem_of_nil|].
  intros [Hy _]%NoDup_cons Hx ->. done.
Qed.

(** What [add] does to well-formed rings. *)
Lemma add_rings d (s : storage) (R : list record) occupied free :
  records_ s = Some R →
  rings R occupied free →
  match free with
  | [] => add d s = (0, s)
  | index :: free' =>
      index ≠ 0
      ∧ ∃ R',
          add d s = (index, {| file_ := file_ s; header_ := resize_header 1 (header_ s);
                               records_ := Some R' |})
          ∧ rings R' (index :: occupied) free'
          ∧ length R' = length R
          ∧ data (R' !!! index) = d
          ∧ ∀ j, j ≠ index → data (R' !!! j) = data (R !!! j)
  end.
Proof.
  intros Hrec Hrings.
  destruct free as [|i free'].
  { destruct Hrings as (_ & [Hn _] & _). unfold Queue.detail.add. rewrite Hrec.
    by rewrite decide_True. }
  destruct (rings_slots _ _ _ Hrings) as (H0 & H1 & Hndo & Hndf & Ho & Hf).
  destruct Hrings as (Hocc & Hfree & Hnd & Hb).
  pose proof Hfree as (Hn1 & Hpi & Hfree').
  pose proof (chain_next _ _ _ _ Hocc) as Hno.
  pose proof (chain_next _ _ _ _ Hfree') as Hnf.
  unfold first_occupied_index, first_free_index in *.
  destruct (Hf i) as (Hi0 & Hi1 & Hio & Hil); [apply list_elem_of_here|].
  apply NoDup_cons in Hndf as [Hif Hndf'].
  assert (∀ x, x ∈ free' → x ≠ 0 ∧ x ≠ 1 ∧ x ≠ i ∧ (x ∉ occupied) ∧ x < length R) as Hf'.
  { intros x Hx. destruct (Hf x) as (? & ? & ? & ?); [by apply list_elem_of_further|].
    split_and!; try done. by intros ->. }
  assert (∀ x, x ∈ occupied → x ≠ i) as Hoi by (intros x Hx ->; done).
  set (no := hd 0 occupied) in *. set (nf := hd 1 free') in *.
  assert (no ≠ i ∧ no ≠ 1 ∧ no < length R) as (Hnoi & Hno1 & Hnol).
  { destruct (hd_elem_of 0 occupied) as [[Hz _] | Hin]; fold no in Hz || fold no in Hin.
    - rewrite Hz. split_and!; [done | done | lia].
    - destruct (Ho _ Hin) as (? & ? & ? & ?). split_and!; [by apply Hoi | done | done]. }
  assert (nf ≠ i ∧ nf ≠ 0 ∧ nf ≠ no ∧ nf < length R) as (Hnfi & Hnf0 & Hnfno & Hnfl).
  { destruct (hd_elem_of 1 free') as [[Hz _] | Hin]; fold nf in Hz || fold nf in Hin.
    - rewrite Hz. split_and!; [done | done | done | lia].
    - destruct (Hf' _ Hin) as (? & ? & ? & Hnotocc & ?). split_and!; try done.
      intros Heq. destruct (hd_elem_of 0 occupied) as [[Hz _] | Hin']; fold no in Hz || fold no in Hin'.
      + congruence.
      + apply Hnotocc. by rewrite Heq. }
  split; [done|].
  pose proof (add_links d s R Hrec) as Hlinks. cbv zeta in Hlinks.
  unfold first_occupied_index, first_free_index in Hlinks.
  rewrite Hn1, Hnf, Hno in Hlinks.
  destruct Hlinks as (R' & Hadd & Hlen & Hnext & Hprev & Hdata); try done.
  exists R'. split_and!.
  - done.
  - split_and!.
    + apply (chain_push R R' 0 i occupied 0 Hocc); fold no.
      * rewrite Hnext. by rewrite decide_True.
      * rewrite Hprev. rewrite decide_False, decide_True; done.
      * rewrite Hnext. rewrite decide_False, decide_True; done.
      * rewrite Hprev. by rewrite decide_True.
      * intros x Hx. destruct (Ho _ Hx) as (? & ? & ? & ?). rewrite Hnext.
        rewrite !decide_False; [done | done | by apply Hoi | done].
      * intros x Hx. rewrite Hprev.
        assert (x ≠ no) as Hxno.
        { intros ->. destruct occupied as [|y occ']; [by apply elem_of_nil in Hx|].
          simpl in *. apply NoDup_cons in Hndo as [Hy _].
          apply elem_of_app in Hx as [Hx | Hx%list_elem_of_singleton]; [done|].
          destruct (Ho y) as (? & _); [apply list_elem_of_here | done]. }
        apply elem_of_tail_snoc in Hx as [Hx%elem_of_tail | ->]; [| |done].
        -- destruct (Ho _ Hx) as (? & ? & Hxf & ?).
           rewrite !decide_False; [done | | by apply Hoi | done].
           intros ->. destruct (hd_elem_of 1 free') as [[Hz _] | Hin];
             fold nf in Hz || fold nf in Hin; [congruence|].
           apply Hxf. by apply list_elem_of_further.
        -- rewrite !decide_False; done.
    + apply (chain_pop R R' 1 i free' 1 Hfree); fold nf.
      * rewrite Hnext. rewrite !decide_False by done. by rewrite decide_True.
      * rewrite Hprev. rewrite !decide_False by done. by rewrite decide_True.
      * intros x Hx. destruct (Hf' _ Hx) as (? & ? & ? & ? & ?). rewrite Hnext.
        by rewrite !decide_False by done.
      * intros x Hx. rewrite Hprev.
        assert (x ≠ nf) as Hxnf.
        { intros ->. destruct free' as [|y f'']; [by apply elem_of_nil in Hx|].
          simpl in *. apply NoDup_cons in Hndf' as [Hy _].
          apply elem_of_app in Hx as [Hx | Hx%list_elem_of_singleton]; [done|].
          destruct (Hf' y) as (_ & ? & _); [apply list_elem_of_here | done]. }
        apply elem_of_tail_snoc in Hx as [Hx%elem_of_tail | ->]; [| |done].
        -- destruct (Hf' _ Hx) as (? & ? & ? & Hxo & ?).
           rewrite !decide_False; [done | done | done |].
           intros ->. destruct (hd_elem_of 0 occupied) as [[Hz _] | Hin];
             fold no in Hz || fold no in Hin; [congruence | done].
        -- rewrite !decide_False; done.
    + unfold first_occupied_index, first_free_index.
      eapply NoDup_Permutation_proper; [|exact Hnd].
      do 2 apply Permutation_skip. simpl. apply Permutation_middle.
    + intros x Hx. rewrite Hlen. apply Hb.
      unfold first_occupied_index, first_free_index in *.
      rewrite !elem_of_cons, elem_of_app, !elem_of_cons in *. tauto.
  - done.
  - rewrite Hdata. by rewrite decide_True.
  - intros j Hj. rewrite Hdata. by rewrite decide_False.
Qed.

(** The links and the data after [remove], read off its stores in the
    order they are made. *)
Lemma remove_links i (s : storage) (R : list record) :
  records_ s = Some R →
  let p := previous (R !!! i) in
  let q := next (R !!! i) in
  let nf := next (R !!! first_free_index) in
  i ≠ 0 → p ≠ first_free_index →
  1 < length R → i < length R → p < length R → q < length R → nf < length R →
  ∃ R',
    remove i s = (true, {| file_ := file_ s; header_ := resize_header (-1) (header_ s);
                           records_ := Some R' |})
    ∧ length R' = length R
    ∧ (∀ j, next (R' !!! j)
            = if decide (j = 1) then i
              else if decide (j = i) then nf
              else if decide (j = p) then q else next (R !!! j))
    ∧ (∀ j, previous (R' !!! j)
            = if decide (j = nf) then i
              else if decide (j = i) then 1
              else if decide (j = q) then p else previous (R !!! j))
    ∧ (∀ j, data (R' !!! j) = if decide (j = i) then T0 else data (R !!! j)).
Proof.
  intros Hrec p q nf Hi Hp H1 Hil Hpl Hql Hnfl.
  unfold first_free_index, first_occupied_index in *.
  eexists. split.
  { unfold Queue.detail.remove. rewrite Hrec. rewrite decide_False by done.
    unfold first_free_index, first_occupied_index. simpl. reflexivity. }
  split_and!.
  - by read_links.
  - intros j. read_links. fold p q nf. clearbody p q nf.
    repeat case_decide; destruct_and?; subst; try done; try lia.
  - intros j. read_links. fold p q nf. clearbody p q nf.
    repeat case_decide; destruct_and?; subst; try done; try lia.
  - intros j. read_links. clearbody p q nf.
    repeat case_decide; destruct_and?; subst; try done; try lia.
Qed.

(** The slot [i] is taken out of the middle of a chain. *)
Lemma chain_unlink (R R' : list record) a l1 i l2 b :
  NoDup (a :: l1 ++ i :: l2) →
  chain R a (l1 ++ i :: l2) b →
  next (R' !!! default a (last l1)) = hd b l2 →
  previous (R' !!! hd b l2) = default a (last l1) →
  (∀ x, x ∈ a :: l1 ++ l2 → x ≠ default a (last l1) → next (R' !!! x) = next (R !!! x)) →
  (∀ x, x ∈ l1 ++ tail (l2 ++ [b]) → previous (R' !!! x) = previous (R !!! x)) →
  chain R' a (l1 ++ l2) b.
Proof.
  intros Hnd [Hc1 Hc2]%chain_app Hn Hp Hfn Hfp.
  assert (NoDup (a :: l1)) as Hnd1.
  { rewrite app_comm_cons in Hnd. by apply NoDup_app in Hnd as (? & _). }
  destruct l2 as [|y l2]; simpl in *.
  - rewrite app_nil_r in *. eapply chain_redirect; try done.
  - apply chain_app. destruct Hc2 as (H1 & H2 & Hc2). split.
    + eapply chain_redirect; try done.
      * intros x Hx. apply Hfn. rewrite app_comm_cons. apply elem_of_app. by left.
      * intros x Hx. apply Hfp. apply elem_of_app. by left.
    + eapply chain_ext; [| | exact Hc2].
      * intros x Hx. apply Hfn.
        -- rewrite app_comm_cons. apply elem_of_app. by right.
        -- intros ->. rewrite app_comm_cons in Hnd. apply NoDup_app in Hnd as (_ & Hd & _).
           apply (Hd _ (last_default_elem_of a l1)). by apply list_elem_of_further.
      * intros x Hx. apply Hfp. apply elem_of_app. by right.
Qed.

(** What [remove] does to well-formed rings. *)
Lemma remove_rings index (s : storage) (R : list record) before after free :
  records_ s = Some R →
  rings R (before ++ index :: after) free →
  remove 0 s = (false, s)
  ∧ ∃ R',
      remove index s
      = (true, {| file_ := file_ s; header_ := resize_header (-1) (header_ s);
                  records_ := Some R' |})
      ∧ rings R' (before ++ after) (index :: free)
      ∧ length R' = length R
      ∧ data (R' !!! index) = T0
      ∧ ∀ j, j ≠ index → data (R' !!! j) = data (R !!! j).
Proof.
  intros Hrec Hrings. split; [done|].
  destruct (rings_slots _ _ _ Hrings) as (H0 & H1 & Hndo & Hndf & Ho & Hf).
  destruct Hrings as (Hocc & Hfree & Hnd & Hb).
  pose proof Hocc as [Hc1 Hc2]%chain_app.
  pose proof (chain_previous _ _ _ _ Hc1) as Hp.
  pose proof (chain_next _ _ _ _ Hc2) as Hq.
  pose proof (chain_next _ _ _ _ Hfree) as Hnf.
  unfold first_occupied_index, first_free_index in *.
  set (i := index) in *.
  destruct (Ho i) as (Hi0 & Hi1 & Hif & Hil).
  { apply elem_of_app. right. apply list_elem_of_here. }
  assert (NoDup (0 :: before ++ i :: after)) as Hnd0.
  { apply NoDup_cons. split; [|done]. intros Hin. by destruct (Ho 0 Hin) as (? & _). }
  apply NoDup_app in Hndo as (Hndb & Hdisj & Hnda).
  apply NoDup_cons in Hnda as [Hia Hnda].
  assert (i ∉ before) as Hib.
  { intros Hin. apply (Hdisj _ Hin). apply list_elem_of_here. }
  assert (∀ x, x ∈ before → x ≠ 0 ∧ x ≠ 1 ∧ x ≠ i ∧ (x ∉ after) ∧ (x ∉ free) ∧ x < length R)
    as Hbefore.
  { intros x Hx. destruct (Ho x) as (? & ? & ? & ?); [apply elem_of_app; by left|].
    split_and!; try done; [by intros -> |].
    intros Hin. apply (Hdisj _ Hx). by apply list_elem_of_further. }
  assert (∀ x, x ∈ after → x ≠ 0 ∧ x ≠ 1 ∧ x ≠ i ∧ (x ∉ before) ∧ (x ∉ free) ∧ x < length R)
    as Hafter.
  { intros x Hx.
    destruct (Ho x) as (? & ? & ? & ?);
      [apply elem_of_app; right; by apply list_elem_of_further|].
    split_and!; try done; [by intros -> |].
    intros Hin. apply (Hdisj _ Hin). by apply list_elem_of_further. }
  assert (∀ x, x ∈ free → x ≠ 0 ∧ x ≠ 1 ∧ x ≠ i ∧ (x ∉ before) ∧ (x ∉ after) ∧ x < length R)
    as Hfree'.
  { intros x Hx. destruct (Hf x Hx) as (? & ? & Hxo & ?).
    split_and!; try done.
    - by intros ->.
    - intros Hin. apply Hxo. apply elem_of_app. by left.
    - intros Hin. apply Hxo. apply elem_of_app. right. by apply list_elem_of_further. }
  set (p := default 0 (last before)) in *.
  set (q := hd 0 after) in *.
  set (nf := hd 1 free) in *.
  assert (p = 0 ∨ p ∈ before) as Hpin.
  { pose proof (last_default_elem_of 0 before) as Hin. fold p in Hin.
    by apply elem_of_cons in Hin. }
  assert (q = 0 ∨ q ∈ after) as Hqin.
  { destruct (hd_elem_of 0 after) as [[Hz _] | Hin]; fold q in Hz || fold q in Hin; auto. }
  assert (nf = 1 ∨ nf ∈ free) as Hnfin.
  { destruct (hd_elem_of 1 free) as [[Hz _] | Hin]; fold nf in Hz || fold nf in Hin; auto. }
  assert (p ≠ 1 ∧ p ≠ i ∧ p < length R ∧ p ≠ nf) as (Hp1 & Hpi & Hpl & Hpnf).
  { destruct Hpin as [-> | Hin].
    - split_and!; [done | done | lia |].
      destruct Hnfin as [-> | Hin']; [done|]. destruct (Hfree' _ Hin') as (? & _). done.
    - destruct (Hbefore _ Hin) as (? & ? & ? & ? & Hpf & ?). split_and!; try done.
      destruct Hnfin as [-> | Hin']; [done|]. by intros ->. }
  assert (q ≠ 1 ∧ q ≠ i ∧ q < length R ∧ q ≠ nf) as (Hq1 & Hqi & Hql & Hqnf).
  { destruct Hqin as [-> | Hin].
    - split_and!; [done | done | lia |].
      destruct Hnfin as [-> | Hin']; [done|]. destruct (Hfree' _ Hin') as (? & _). done.
    - destruct (Hafter _ Hin) as (? & ? & ? & ? & Hqf & ?). split_and!; try done.
      destruct Hnfin as [-> | Hin']; [done|]. by intros ->. }
  assert (nf ≠ 0 ∧ nf ≠ i ∧ nf < length R) as (Hnf0 & Hnfi & Hnfl).
  { destruct Hnfin as [-> | Hin]; [split_and!; [done | done | lia]|].
    destruct (Hfree' _ Hin) as (? & ? & ? & _ & _ & ?). done. }
  pose proof (remove_links i s R Hrec) as Hlinks. cbv zeta in Hlinks.
  unfold first_occupied_index, first_free_index in Hlinks.
  rewrite Hp, Hq, Hnf in Hlinks.
  destruct Hlinks as (R' & Hrem & Hlen & Hnext & Hprev & Hdata); try done.
  exists R'. split_and!.
  - done.
  - split_and!.
    + unfold first_occupied_index.
      apply (chain_unlink R R' 0 before i after 0); try done; fold p q.
      * rewrite Hnext. rewrite !decide_False by done. by rewrite decide_True.
      * rewrite Hprev. rewrite !decide_False by done. by rewrite decide_True.
      * intros x Hx Hxp. rewrite Hnext.
        apply elem_of_cons in Hx as [-> | Hx]; [by rewrite !decide_False by done|].
        apply elem_of_app in Hx as [Hx | Hx].
        -- destruct (Hbefore _ Hx) as (? & ? & ? & _). by rewrite !decide_False by done.
        -- destruct (Hafter _ Hx) as (? & ? & ? & _). by rewrite !decide_False by done.
      * intros x Hx. rewrite Hprev.
        apply elem_of_app in Hx as [Hx | Hx].
        -- destruct (Hbefore _ Hx) as (? & ? & ? & Hxa & Hxf & _).
           rewrite !decide_False; [done | | done |].
           ++ intros ->. destruct Hqin as [? | ?]; done.
           ++ intros ->. destruct Hnfin as [? | ?]; done.
        -- assert (x ≠ q) as Hxq.
           { intros ->. destruct after as [|y after']; [by apply elem_of_nil in Hx|].
             simpl in *. apply NoDup_cons in Hnda as [Hy _].
             apply elem_of_app in Hx as [Hx | Hx%list_elem_of_singleton]; [done|].
             destruct (Hafter y) as (? & _); [apply list_elem_of_here | done]. }
           apply elem_of_tail_snoc in Hx as [Hx%elem_of_tail | ->]; [| |done].
           ++ destruct (Hafter _ Hx) as (? & ? & ? & _ & Hxf & _).
              rewrite !decide_False; [done | done | done |].
              intros ->. destruct Hnfin as [? | ?]; done.
           ++ by rewrite !decide_False by done.
    + unfold first_free_index.
      apply (chain_push R R' 1 i free 1 Hfree); fold nf.
      * rewrite Hnext. by rewrite decide_True.
      * rewrite Hprev. rewrite !decide_False by done. by rewrite decide_True.
      * rewrite Hnext. rewrite !decide_False by done. by rewrite decide_True.
      * rewrite Hprev. by rewrite decide_True.
      * intros x Hx. destruct (Hfree' _ Hx) as (? & ? & ? & Hxb & Hxa & _). rewrite Hnext.
        rewrite !decide_False; [done | | done | done].
        intros ->. destruct Hpin as [? | ?]; done.
      * intros x Hx. rewrite Hprev.
        assert (x ≠ nf) as Hxnf.
        { intros ->. destruct free as [|y free']; [by apply elem_of_nil in Hx|].
          simpl in *. apply NoDup_cons in Hndf as [Hy _].
          apply elem_of_app in Hx as [Hx | Hx%list_elem_of_singleton]; [done|].
          destruct (Hfree' y) as (_ & ? & _); [apply list_elem_of_here | done]. }
        apply elem_of_tail_snoc in Hx as [Hx%elem_of_tail | ->]; [| |done].
        -- destruct (Hfree' _ Hx) as (? & ? & ? & Hxb & Hxa & _).
           rewrite !decide_False; [done | | done | done].
           intros ->. destruct Hqin as [? | ?]; done.
        -- by rewrite !decide_False by done.
    + unfold first_occupied_index, first_free_index.
      eapply NoDup_Permutation_proper; [|exact Hnd].
      do 2 apply Permutation_skip.
      rewrite <- !app_assoc. apply Permutation_app_head. simpl.
      symmetry. apply Permutation_middle.
    + intros x Hx. rewrite Hlen. apply Hb.
      unfold first_occupied_index, first_free_index in *.
      rewrite !elem_of_cons, !elem_of_app, !elem_of_cons in *. tauto.
  - done.
  - rewrite Hdata. by rewrite decide_True.
  - intros j Hj. rewrite Hdata. by rewrite decide_False.
Qed.

(** *** Iteration *)

Lemma slots_below_length (l : list nat) n :
  NoDup l → (∀ i, i ∈ l → i < n) → length l ≤ n.
Proof.
  intros Hnd Hl. transitivity (length (seq 0 n)); [|by rewrite length_seq].
  apply submseteq_length.
  apply NoDup_submseteq; [done|]. intros i Hi. apply elem_of_seq. specialize (Hl i Hi). lia.
Qed.

Lemma visit_chain (R : list record) a l fuel :
  chain R a l end_index → end_index ∉ l → length l ≤ fuel →
  visit fuel R (next (R !!! a)) = Some l.
Proof.
  revert a fuel. induction l as [|x l IH]; intros a fuel Hc Hz Hlen.
  - destruct Hc as [-> _]. by destruct fuel.
  - destruct Hc as (-> & _ & Hc). apply not_elem_of_cons in Hz as [Hx Hz].
    destruct fuel as [|fuel]; simpl in Hlen; [lia|]. simpl.
    rewrite decide_False by done. rewrite (IH x fuel); [done | done | done | lia].
Qed.

(** Property X7. A loop from [begin()] to [end()] over well-formed rings comes to its
    end, within as many steps as the array has records, and has visited
    the slots of the occupied ring in the order of the ring, which starts
    at the slot [add] took last. *)
Theorem iterate_follows_occupied_ring (R : list record) occupied free :
  rings R occupied free →
  Queue.detail.iterate T0 R = Some occupied
  ∧ begin_index T0 R = hd end_index occupied
  ∧ ∀ fuel, length occupied ≤ fuel → visit fuel R (begin_index T0 R) = Some occupied.
Proof.
  intros Hrings.
  destruct (rings_slots _ _ _ Hrings) as (H0 & H1 & Hndo & Hndf & Ho & Hf).
  destruct Hrings as (Hocc & _).
  assert (end_index ∉ occupied) as Hz.
  { intros Hin. by destruct (Ho _ Hin) as (? & _). }
  split_and!.
  - unfold Queue.detail.iterate, begin_index. apply visit_chain; [done | done |].
    apply slots_below_length; [done|]. intros i Hi. by destruct (Ho _ Hi) as (_ & _ & _ & ?).
  - unfold begin_index. by apply chain_next in Hocc.
  - intros fuel Hfuel. unfold begin_index. by apply visit_chain.
Qed.



(** *** New slots *)

Lemma splice_links (R : list record) index :
  let last := previous (R !!! first_free_index) in
  1 < length R → index < length R → last < length R →
  length (splice R index) = length R
  ∧ (∀ j, next (splice R index !!! j)
          = if decide (j = last) then index
            else if decide (j = index) then 1 else next (R !!! j))
  ∧ (∀ j, previous (splice R index !!! j)
          = if decide (j = 1) then index
            else if decide (j = index) then last else previous (R !!! j))
  ∧ (∀ j, data (splice R index !!! j) = data (R !!! j)).
Proof.
  intros last H1 Hil Hll. unfold Queue.detail.splice, first_free_index in *.
  split_and!.
  - by read_links.
  - intros j. read_links. fold last. clearbody last.
    repeat case_decide; destruct_and?; subst; try done; try lia.
  - intros j. read_links. fold last. clearbody last.
    repeat case_decide; destruct_and?; subst; try done; try lia.
  - intros j. by read_links.
Qed.

(** A slot of the array that is in neither ring is linked in at the end
    of the free ring. *)
Lemma splice_rings (R : list record) occupied free index :
  rings R occupied free →
  index ∉ first_occupied_index :: first_free_index :: occupied ++ free →
  index < length R →
  rings (splice R index) occupied (free ++ [index])
  ∧ length (splice R index) = length R
  ∧ ∀ j, data (splice R index !!! j) = data (R !!! j).
Proof.
  intros Hrings Hfresh Hil.
  destruct (rings_slots _ _ _ Hrings) as (H0 & H1 & Hndo & Hndf & Ho & Hf).
  destruct Hrings as (Hocc & Hfree & Hnd & Hb).
  pose proof (chain_previous _ _ _ _ Hfree) as Hlast.
  unfold first_occupied_index, first_free_index in *.
  apply not_elem_of_cons in Hfresh as [Hi0 Hfresh].
  apply not_elem_of_cons in Hfresh as [Hi1 Hfresh].
  apply not_elem_of_app in Hfresh as [Hio Hif].
  set (last := default 1 (last free)) in *.
  assert (last = 1 ∨ last ∈ free) as Hlin.
  { pose proof (last_default_elem_of 1 free) as Hin. by apply elem_of_cons in Hin. }
  assert (last ≠ index ∧ last ≠ 0 ∧ last < length R ∧ (last ∉ occupied))
    as (Hli & Hl0 & Hll & Hlo).
  { destruct Hlin as [-> | Hin].
    - split_and!; [done | done | lia |]. intros Hin. by destruct (Ho _ Hin) as (_ & ? & _).
    - destruct (Hf _ Hin) as (? & ? & ? & ?). split_and!; try done. by intros ->. }
  pose proof (splice_links R index) as Hlinks. cbv zeta in Hlinks.
  unfold first_free_index in Hlinks. rewrite Hlast in Hlinks.
  destruct Hlinks as (Hlen & Hnext & Hprev & Hdata); try done.
  split_and!; [split_and! | done | done].
  - eapply chain_ext; [| | exact Hocc].
    + intros x Hx. rewrite Hnext.
      apply elem_of_cons in Hx as [-> | Hx]; [by rewrite !decide_False by done|].
      by rewrite !decide_False by (first [done | by intros ->]).
    + intros x Hx. rewrite Hprev.
      apply elem_of_app in Hx as [Hx | ->%list_elem_of_singleton];
        [|by rewrite !decide_False by done].
      destruct (Ho _ Hx) as (? & ? & _). by rewrite !decide_False by (first [done | by intros ->]).
  - apply chain_snoc. split.
    + eapply (chain_redirect R _ 1 free 1 index); try done.
      * apply NoDup_cons. split; [|done]. intros Hin. by destruct (Hf _ Hin) as (_ & ? & _).
      * fold last. rewrite Hnext. by rewrite decide_True.
      * fold last. rewrite Hprev. rewrite decide_False by done. by rewrite decide_True.
      * fold last. intros x Hx Hxl. rewrite Hnext.
        rewrite !decide_False; [done | |]; [| done].
        intros ->. apply elem_of_cons in Hx as [? | ?]; done.
      * intros x Hx. rewrite Hprev. destruct (Hf _ Hx) as (? & ? & _).
        by rewrite !decide_False by (first [done | by intros ->]).
    + simpl. split.
      * rewrite Hnext. rewrite decide_False by done. by rewrite decide_True.
      * rewrite Hprev. by rewrite decide_True.
  - eapply NoDup_Permutation_proper; [|apply NoDup_cons; split; [|exact Hnd]].
    + rewrite app_assoc.
      rewrite (app_comm_cons _ _ 1), (app_comm_cons _ _ 0). symmetry. apply Permutation_cons_append.
    + rewrite !not_elem_of_cons, not_elem_of_app. done.
  - intros x Hx. rewrite Hlen.
    rewrite !elem_of_cons, !elem_of_app, list_elem_of_singleton in Hx.
    destruct Hx as [-> | [-> | [Hx | [Hx | ->]]]]; try done.
    + by destruct (Ho _ Hx) as (_ & _ & _ & ?).
    + by destruct (Hf _ Hx) as (_ & _ & _ & ?).
Qed.

(** The loop of [expand] over the slots behind those of the rings links
    them in at the end of the free ring in ascending order, and leaves the
    occupied ring, the order of the free ring and every datum as they
    were. *)
Lemma splice_range_rings (R : list record) occupied free first count :
  rings R occupied free →
  (∀ i, i ∈ first_occupied_index :: first_free_index :: occupied ++ free → i < first) →
  first + count ≤ length R →
  rings (foldl splice R (seq first count)) occupied (free ++ seq first count)
  ∧ length (foldl splice R (seq first count)) = length R
  ∧ ∀ j, data (foldl splice R (seq first count) !!! j) = data (R !!! j).
Proof.
  revert R free first. induction count as [|count IH]; intros R free first Hrings Hlow Hlen.
  - simpl. by rewrite app_nil_r.
  - simpl.
    destruct (splice_rings R occupied free first Hrings) as (Hr1 & Hl1 & Hd1).
    { intros Hin. specialize (Hlow _ Hin). lia. }
    { lia. }
    destruct (IH (splice R first) (free ++ [first]) (S first) Hr1) as (Hr2 & Hl2 & Hd2).
    { intros i Hi. rewrite app_assoc in Hi.
      rewrite (app_comm_cons _ _ first_free_index) in Hi.
      rewrite (app_comm_cons _ _ first_occupied_index) in Hi.
      apply elem_of_app in Hi as [Hi | ->%list_elem_of_singleton]; [|lia].
      specialize (Hlow _ Hi). lia. }
    { lia. }
    rewrite <- app_assoc in Hr2. simpl in Hr2.
    split_and!; [done | congruence |]. intros j. by rewrite Hd2, Hd1.
Qed.

(** *** The rings of a new file *)

Lemma replicate_record0 n j : replicate n (record0 T0) !!! j = record0 T0.
Proof.
  destruct (decide (j < n)) as [Hj | Hj]; [by apply lookup_total_replicate_2|].
  assert (replicate n (record0 T0) !! j = None) as Hnone by (apply lookup_replicate_None; lia).
  by rewrite list_lookup_total_alt, Hnone.
Qed.

(** Pointwise links make a chain over consecutive slots. *)
Lemma chain_seq (R : list record) a count b :
  (∀ j, a ≤ j < a + count → next (R !!! j) = S j ∧ previous (R !!! S j) = j) →
  next (R !!! (a + count)) = b →
  previous (R !!! b) = a + count →
  chain R a (seq (S a) count) b.
Proof.
  revert a. induction count as [|count IH]; intros a Hlinks Hn Hp; simpl.
  - rewrite Nat.add_0_r in *. done.
  - destruct (Hlinks a) as [H1 H2]; [lia|]. split_and!; [done | done |].
    apply IH.
    + intros j Hj. apply Hlinks. lia.
    + by replace (S a + count) with (a + S count) by lia.
    + by replace (S a + count) with (a + S count) by lia.
Qed.

(** The loop of [create] after [k] of its steps. *)
Lemma create_loop (R0 : list record) n k :
  k ≤ n → length R0 = n + 2 →
  let st :=
    foldl (λ (st : list record * nat) index,
             (alter (set_next index) st.2 (alter (set_previous st.2) index st.1), index))
          (R0, first_free_index) (seq (first_free_index + 1) k) in
  st.2 = k + 1
  ∧ length st.1 = n + 2
  ∧ (∀ j, next (st.1 !!! j) = if decide (1 ≤ j ≤ k) then S j else next (R0 !!! j))
  ∧ (∀ j, previous (st.1 !!! j)
          = if decide (2 ≤ j ≤ k + 1) then j - 1 else previous (R0 !!! j))
  ∧ (∀ j, data (st.1 !!! j) = data (R0 !!! j)).
Proof.
  intros Hk Hlen. unfold first_free_index. induction k as [|k IH].
  - simpl. split_and!; try done; intros j; by rewrite decide_False by lia.
  - rewrite seq_S, foldl_snoc. cbv zeta in IH.
    destruct IH as (Hst & Hl & Hnext & Hprev & Hdata); [lia|].
    destruct (foldl _ _ _) as [Rk last]. simpl in *. subst last.
    split_and!.
    + lia.
    + by read_links.
    + intros j. read_links. rewrite Hnext.
      repeat case_decide; destruct_and?; subst; try done; try lia.
    + intros j. read_links. rewrite Hprev.
      repeat case_decide; destruct_and?; subst; try done; try lia.
    + intros j. read_links. by rewrite Hdata.
Qed.

(** Property X8. The links [create] writes for a capacity that two more slots do not
    carry beyond 32 bits: the occupied ring is its sentinel alone, and the
    free ring runs from its sentinel through every other slot, in
    ascending order; the array counts the capacity and the two sentinels. *)
Theorem create_links_every_slot_free n :
  (Z.of_nat n + 2 < 2 ^ 32)%Z →
  rings (create_rings n) [] (seq 2 n)
  ∧ length (create_rings n) = n + 2
  ∧ Queue.detail.iterate T0 (create_rings n) = Some [].
Proof.
  intros _. unfold Queue.detail.create_rings.
  set (R0 := alter (set_next first_free_index) (n + 1)
               (alter (set_previous (n + 1)) first_free_index
                  (alter (set_next first_occupied_index) first_occupied_index
                     (alter (set_previous first_occupied_index) first_occupied_index
                        (replicate (n + 2) (record0 T0)))))).
  assert (length R0 = n + 2) as Hlen0.
  { subst R0. read_links. by rewrite length_replicate. }
  destruct (create_loop R0 n n ltac:(lia) Hlen0) as (_ & Hlen & Hnext & Hprev & _).
  cbv zeta in *.
  set (R := (foldl _ _ _).1) in *.
  assert (∀ j, next (R0 !!! j) = if decide (j = n + 1) then 1 else 0) as Hn0.
  { intros j. subst R0. unfold first_free_index, first_occupied_index.
    read_links. rewrite length_replicate, replicate_record0. simpl.
    repeat case_decide; destruct_and?; subst; try done; try lia. }
  assert (∀ j, previous (R0 !!! j) = if decide (j = 1) then n + 1 else 0) as Hp0.
  { intros j. subst R0. unfold first_free_index, first_occupied_index.
    read_links. rewrite length_replicate, replicate_record0. simpl.
    repeat case_decide; destruct_and?; subst; try done; try lia. }
  assert (rings R [] (seq 2 n)) as Hrings.
  { unfold Queue.detail.rings, first_free_index, first_occupied_index. split_and!.
    - simpl. rewrite Hnext, Hprev, Hn0, Hp0.
      by rewrite !decide_False by lia.
    - apply (chain_seq R 1 n 1).
      + intros j Hj. rewrite Hnext, Hprev.
        rewrite !decide_True by lia. split; [done | lia].
      + rewrite Hnext, Hn0. rewrite decide_False by lia. rewrite decide_True by lia. done.
      + rewrite Hprev, Hp0. destruct n as [|n].
        * rewrite decide_False by lia. by rewrite decide_True.
        * rewrite decide_False by lia. rewrite decide_True by done. lia.
    - simpl. change (0 :: 1 :: seq 2 n) with (seq 0 (S (S n))). apply NoDup_seq.
    - intros i Hi. change (0 :: 1 :: [] ++ seq 2 n) with (seq 0 (S (S n))) in Hi.
      apply elem_of_seq in Hi. lia. }
  split_and!; [done | done |].
  unfold Queue.detail.iterate, begin_index.
  apply visit_chain; [by destruct Hrings as (? & _) | apply not_elem_of_nil | simpl; lia].
Qed.

End Facts.

End RingFacts.

(** ** [persia::map] over well-formed rings *)

Module MapFacts.

Import Queue.detail.

Section Facts.

Context `{Countable Key} {Value : Type}.
Variable key_of : Value → Key.
Variable Value0 : Value.

#[local] Abbreviation map := (Queue.map (Key := Key) (Value := Value)).
#[local] Abbreviation record := (Queue.detail.record Value).
#[local] Abbreviation insert := (Queue.insert key_of Value0).
#[local] Abbreviation insert_or_assign := (Queue.insert_or_assign key_of Value0).
#[local] Abbreviation erase := (Queue.erase (Key := Key) Value0).
#[local] Abbreviation find := (Queue.find (Key := Key) Value0).
#[local] Abbreviation well_formed := (Queue.well_formed key_of Value0).
#[local] Abbreviation rings := (Queue.detail.rings Value0).
#[local] Abbreviation index_slots := (Queue.index_slots key_of Value0).

#[local] Hint Extern 0 (Inhabited (Queue.detail.record _)) =>
  exact (Queue.detail.record_inhabited Value0) : typeclass_instances.

(** What [find] reads. *)
Lemma find_slot key (m : map) R :
  records_ (Queue.storage_ m) = Some R →
  find key m = (λ index, data (R !!! index)) <$> Queue.indices_ m !! key.
Proof.
  intros HR. unfold Queue.find, at_index. rewrite HR.
  by destruct (Queue.indices_ m !! key).
Qed.


(** Property X10. [insert_or_assign] of an indexed key into a well-formed map writes
    the value into the slot of the key: the key is found with the new
    value, every other key as before, and the index, the rings and
    [size()] are as they were; for a key that is not indexed it does what
    [insert] does. *)
Theorem map_assign_in_place value (m : map) occupied free index :
  well_formed m occupied free →
  Queue.indices_ m !! key_of value = Some index →
  ∃ m', insert_or_assign value m = (Queue.of_value (), m')
        ∧ well_formed m' occupied free
        ∧ Queue.indices_ m' = Queue.indices_ m
        ∧ find (key_of value) m' = Some value
        ∧ (∀ key, key ≠ key_of value → find key m' = find key m)
        ∧ ∀ v', Queue.indices_ m !! key_of v' = None →
                insert_or_assign v' m = insert v' m.
Proof.
  intros (R & HR & Hrings & Hidx) Hk.
  destruct (RingFacts.rings_slots _ _ _ _ Hrings) as (_ & _ & _ & _ & Ho & Hf).
  pose proof (proj1 (Hidx _ _) Hk) as [Hin Hkey].
  destruct (Ho _ Hin) as (_ & _ & _ & Hil).
  set (R' := alter (set_data value) index R).
  assert (∀ j, data (R' !!! j) = if decide (j = index) then value else data (R !!! j))
    as Hdata.
  { intros j. subst R'. rewrite RingFacts.ring_data_alter_data.
    case_decide as H1; case_decide as H2; try done.
    - destruct H1 as [? _]. congruence.
    - exfalso. apply H1. by subst. }
  eexists. split.
  { unfold Queue.insert_or_assign. rewrite Hk. reflexivity. }
  split_and!.
  - exists R'. split_and!.
    + unfold assign. simpl. by rewrite HR.
    + destruct Hrings as (Hocc & Hfree & Hnd & Hb). subst R'. split_and!.
      * eapply RingFacts.chain_ext; [| | exact Hocc]; intros x _.
        -- by rewrite RingFacts.next_alter_data.
        -- by rewrite RingFacts.previous_alter_data.
      * eapply RingFacts.chain_ext; [| | exact Hfree]; intros x _.
        -- by rewrite RingFacts.next_alter_data.
        -- by rewrite RingFacts.previous_alter_data.
      * done.
      * intros i Hi. rewrite length_alter. by apply Hb.
    + simpl. intros key i. rewrite Hidx, Hdata. case_decide as Hi; [|done]. subst i.
      split; intros [? <-]; (split; [done|]); congruence.
  - done.
  - rewrite (find_slot _ _ R') by (unfold assign; simpl; by rewrite HR).
    simpl. rewrite Hk. simpl. rewrite Hdata. by rewrite decide_True.
  - intros key Hne.
    rewrite (find_slot _ _ R') by (unfold assign; simpl; by rewrite HR).
    rewrite (find_slot _ _ R) by done. simpl.
    destruct (Queue.indices_ m !! key) as [i|] eqn:Hl; [|done]. simpl.
    rewrite Hdata. rewrite decide_False; [done|]. intros ->.
    apply Hidx in Hl as [_ Hkey']. congruence.
  - intros v' Hv'. unfold Queue.insert_or_assign, Queue.insert. by rewrite Hv'.
Qed.

(** Property X11. [erase] on a well-formed map: a key that is not indexed leaves the map
    as it is; an indexed key is no longer found, every other key is found
    as before, [size()] has gone down by one, the slot of the key has gone
    from the occupied ring to the head of the free ring, and the map is
    well formed. *)
Theorem map_erase_frees_slot key (m : map) occupied free :
  well_formed m occupied free →
  match Queue.indices_ m !! key with
  | None => erase key m = (false, m)
  | Some index =>
      ∃ before after m',
        occupied = before ++ index :: after
        ∧ erase key m = (true, m')
        ∧ well_formed m' (before ++ after) (index :: free)
        ∧ find key m' = None
        ∧ (∀ k, k ≠ key → find k m' = find k m)
        ∧ S (Queue.size m') = Queue.size m
  end.
Proof.
  intros (R & HR & Hrings & Hidx).
  destruct (Queue.indices_ m !! key) as [index|] eqn:Hk.
  2: { unfold Queue.erase. by rewrite Hk. }
  pose proof (proj1 (Hidx _ _) Hk) as [Hin Hkey].
  apply list_elem_of_split in Hin as (before & after & ->).
  destruct (RingFacts.remove_rings Value0 index (Queue.storage_ m) R before after free
              HR Hrings) as (_ & R' & Hrem & Hr' & Hlen & Hd & Hrest).
  destruct (RingFacts.rings_slots _ _ _ _ Hrings) as (_ & _ & Hndo & _ & Ho & Hf).
  apply NoDup_app in Hndo as (_ & Hdisj & [Hia _]%NoDup_cons).
  assert (index ∉ before) as Hib.
  { intros Hin. apply (Hdisj _ Hin). apply list_elem_of_here. }
  exists before, after. eexists. split; [done|]. split.
  { unfold Queue.erase. rewrite Hk. rewrite Hrem. reflexivity. }
  split_and!.
  - exists R'. split_and!; [done | done |]. simpl. intros k i.
    destruct (decide (k = key)) as [-> | Hne].
    + rewrite lookup_delete_eq. split; [done|]. intros [Hin Hkey'].
      assert (i ≠ index) as Hne.
      { intros ->. apply elem_of_app in Hin as [?|?]; done. }
      rewrite Hrest in Hkey' by done.
      assert (Queue.indices_ m !! key = Some i) as Hl.
      { apply Hidx. split; [|done].
        apply elem_of_app in Hin as [?|?]; apply elem_of_app; [by left|].
        right. by apply list_elem_of_further. }
      congruence.
    + rewrite lookup_delete_ne by done. rewrite Hidx. split.
      * intros [Hin Hkey']. assert (i ≠ index) as Hi by (intros ->; congruence).
        rewrite Hrest by done. split; [|done].
        apply elem_of_app in Hin as [? | [? | ?]%elem_of_cons];
          [apply elem_of_app; by left | done | apply elem_of_app; by right].
      * intros [Hin Hkey'].
        assert (i ≠ index) as Hi.
        { intros ->. apply elem_of_app in Hin as [?|?]; done. }
        rewrite Hrest in Hkey' by done. split; [|done].
        apply elem_of_app in Hin as [?|?]; apply elem_of_app; [by left|].
        right. by apply list_elem_of_further.
  - rewrite (find_slot _ _ R') by done. simpl. by rewrite lookup_delete_eq.
  - intros k Hne. rewrite (find_slot _ _ R'), (find_slot _ _ R) by done. simpl.
    rewrite lookup_delete_ne by done.
    destruct (Queue.indices_ m !! k) as [i|] eqn:Hl; [|done]. simpl.
    rewrite Hrest; [done|]. intros ->. apply Hidx in Hl as [_ Hkey']. congruence.
  - unfold Queue.size. simpl. rewrite map_size_delete, Hk.
    assert (base.size (Queue.indices_ m) ≠ 0); [|lia].
    intros Hz. apply map_size_empty_inv in Hz. rewrite Hz in Hk. done.
Qed.

(** The index the loop of [map::open] builds over slots that hold
    pairwise different keys. *)
Lemma index_slots_lookup (R : list record) slots key index :
  NoDup slots →
  (∀ i j, i ∈ slots → j ∈ slots →
          key_of (data (R !!! i)) = key_of (data (R !!! j)) → i = j) →
  index_slots R slots !! key = Some index
  ↔ index ∈ slots ∧ key_of (data (R !!! index)) = key.
Proof.
  unfold Queue.index_slots. induction slots as [|x slots IH] using rev_ind.
  - intros _ _. simpl. rewrite lookup_empty, elem_of_nil. split; [done | by intros [? _]].
  - intros (Hnd & Hdisj & _)%NoDup_app Hkeys.
    rewrite foldl_snoc.
    destruct (decide (key_of (data (R !!! x)) = key)) as [<- | Hne].
    + rewrite lookup_insert_eq. split.
      * intros [= <-]. split; [|done]. apply elem_of_app. right. apply list_elem_of_here.
      * intros [Hin Hkey]. f_equal. apply Hkeys; [|done|done].
        apply elem_of_app. right. apply list_elem_of_here.
    + rewrite lookup_insert_ne by done. rewrite IH.
      * rewrite elem_of_app, list_elem_of_singleton. split; [tauto|].
        intros [[? | ->] ?]; [done | congruence].
      * done.
      * intros i j Hi Hj. apply Hkeys; apply elem_of_app; by left.
Qed.

End Facts.

Section OpenFacts.

Context `{Countable Key} {Value : Type}.
Variable key_of : Value → Key.
Variable Value0 : Value.
Variable sizeof_Value : Z.
Variable sizeof_record : Z.
Variable char_is_signed : bool.

#[local] Abbreviation map := (Queue.map (Key := Key) (Value := Value)).
#[local] Abbreviation record := (Queue.detail.record Value).
#[local] Abbreviation file := (Queue.detail.file (T := Value)).
#[local] Abbreviation world := (MappedFile.world (contents := file)).
#[local] Abbreviation find := (Queue.find (Key := Key) Value0).
#[local] Abbreviation well_formed := (Queue.well_formed key_of Value0).
#[local] Abbreviation rings := (Queue.detail.rings Value0).
#[local] Abbreviation index_slots := (Queue.index_slots key_of Value0).
#[local] Abbreviation mapped_create :=
  (Queue.detail.mapped_file.create (contents := file) Queue.detail.file_size
     Queue.detail.no_bytes).
#[local] Abbreviation ring_open :=
  (Queue.detail.open Value0 sizeof_Value sizeof_record char_is_signed).
#[local] Abbreviation map_open :=
  (Queue.open key_of Value0 sizeof_Value sizeof_record char_is_signed).
#[local] Abbreviation signature_accepted := (Queue.detail.signature_accepted char_is_signed).
#[local] Abbreviation storage_size := (Queue.detail.storage_size sizeof_record).
#[local] Abbreviation resized := (Queue.detail.resized Value0 sizeof_record).

#[local] Hint Extern 0 (Inhabited (Queue.detail.record _)) =>
  exact (Queue.detail.record_inhabited Value0) : typeclass_instances.

Lemma mapped_create_same_disk path (w : world) r w' :
  mapped_create path w = (r, w') →
  MappedFile.target w' = MappedFile.target w
  ∧ MappedFile.faults w' = MappedFile.faults w
  ∧ MappedFile.fs w' = MappedFile.fs w.
Proof.
  unfold Queue.detail.mapped_file.create, MappedFile.map_refused, MappedFile.acquire,
    MappedFile.release.
  intros Hc. repeat case_match; simplify_eq/=; by repeat split.
Qed.

Lemma storage_size_fits n :
  (Z.of_nat n + 2 < 2 ^ 32)%Z →
  storage_size n = (sizeof_header + (Z.of_nat n + 2) * sizeof_record)%Z.
Proof.
  intros Hn. unfold Queue.detail.storage_size. by rewrite Z.mod_small by lia.
Qed.

(** [detail::storage::open] of a file whose header passes the four checks
    and holds at least the capacity asked for maps it as it is. *)
Lemma ring_open_accepts path n (w : world) f :
  (0 ≤ sizeof_record)%Z →
  (Z.of_nat (capacity (file_header f)) + 2 < 2 ^ 32)%Z →
  (∀ call, MappedFile.faults w call = None) →
  MappedFile.fs w !! path = Some f →
  signature_accepted (file_header f) = true →
  item_size (file_header f) = sizeof_Value →
  file_size f = storage_size (capacity (file_header f)) →
  n ≤ capacity (file_header f) →
  ∃ m w', ring_open path n w
          = (Queue.of_value {| file_ := m; header_ := file_header f;
                               records_ := Some (file_records f) |}, w')
          ∧ MappedFile.bytes m = f
          ∧ MappedFile.fs w' = MappedFile.fs w.
Proof.
  intros Hr Hfit Hnf Hfs Hsig Hitem Hsize Hn.
  pose proof (storage_size_fits _ Hfit) as Hss.
  destruct (QueueFacts.mapped_create_succeeds path w f Hnf Hfs)
    as (m & w1 & Hcreate & Hbytes & Hsz & Hback & Hfs1).
  { rewrite Hsize, Hss. unfold sizeof_header. nia. }
  exists m, w1. split_and!; [|done|done].
  unfold Queue.detail.open. rewrite Hcreate. cbv beta iota zeta. rewrite Hbytes, Hsz.
  rewrite decide_False by (rewrite Hsize, Hss; nia).
  rewrite Hsig. simpl.
  rewrite decide_False by (intros Hne; by apply Hne).
  rewrite decide_False by (intros Hne; by apply Hne).
  by rewrite decide_False by lia.
Qed.

Lemma index_slots_size (R : list record) slots :
  NoDup slots →
  (∀ i j, i ∈ slots → j ∈ slots →
          key_of (data (R !!! i)) = key_of (data (R !!! j)) → i = j) →
  base.size (index_slots R slots) = length slots.
Proof.
  induction slots as [|x slots IH] using rev_ind; [done|].
  intros Hnd Hkeys. pose proof Hnd as (Hnd' & Hdisj & _)%NoDup_app.
  assert (∀ i j, i ∈ slots → j ∈ slots →
            key_of (data (R !!! i)) = key_of (data (R !!! j)) → i = j) as Hkeys'.
  { intros i j Hi Hj. apply Hkeys; apply elem_of_app; by left. }
  unfold Queue.index_slots. rewrite foldl_snoc, length_app. simpl.
  fold (index_slots R slots).
  rewrite map_size_insert_None; [rewrite IH by done; lia|].
  apply eq_None_not_Some. intros [i Hi].
  apply (MapFacts.index_slots_lookup key_of Value0) in Hi as [Hin Hkey]; [|done|done].
  assert (i = x) as ->.
  { apply Hkeys; [apply elem_of_app; by left | | done].
    apply elem_of_app. right. apply list_elem_of_here. }
  apply (Hdisj _ Hin). apply list_elem_of_here.
Qed.


(** Records in front of an array that has grown are the rings they were. *)
Lemma rings_grown (R R' : list record) occupied free :
  rings R occupied free →
  length R ≤ length R' →
  (∀ i, i < length R → R' !!! i = R !!! i) →
  rings R' occupied free.
Proof.
  intros Hrings Hlen Hsame.
  destruct (RingFacts.rings_slots _ _ _ _ Hrings) as (H0 & H1 & _ & _ & Ho & Hf).
  destruct Hrings as (Hocc & Hfree & Hnd & Hb).
  unfold first_occupied_index, first_free_index in *.
  split_and!; [| | done | intros i Hi; specialize (Hb i Hi); lia].
  - eapply RingFacts.chain_ext; [| | exact Hocc]; intros x Hx; rewrite Hsame; try done.
    + apply elem_of_cons in Hx as [-> | Hx]; [done|]. by destruct (Ho _ Hx) as (_ & _ & _ & ?).
    + apply elem_of_app in Hx as [Hx | ->%list_elem_of_singleton]; [|done].
      by destruct (Ho _ Hx) as (_ & _ & _ & ?).
  - eapply RingFacts.chain_ext; [| | exact Hfree]; intros x Hx; rewrite Hsame; try done.
    + apply elem_of_cons in Hx as [-> | Hx]; [done|]. by destruct (Hf _ Hx) as (_ & _ & _ & ?).
    + apply elem_of_app in Hx as [Hx | ->%list_elem_of_singleton]; [|done].
      by destruct (Hf _ Hx) as (_ & _ & _ & ?).
Qed.

Lemma ring_records_in_storage_size n :
  (0 < sizeof_record)%Z → (Z.of_nat n + 2 < 2 ^ 32)%Z →
  Queue.detail.records_in sizeof_record (storage_size n) = n + 2.
Proof.
  intros Hr Hfit. rewrite storage_size_fits by done. unfold Queue.detail.records_in.
  replace (sizeof_header + (Z.of_nat n + 2) * sizeof_record - sizeof_header)%Z
    with (Z.of_nat (n + 2) * sizeof_record)%Z by lia.
  rewrite Z.div_mul by lia. apply Nat2Z.id.
Qed.


End OpenFacts.

End MapFacts.

(** ** The store of storage.hpp *)

Module StorageFacts.

Import Storage.detail.

Section Facts.

Context `{Countable Key} {Value : Type}.
Variable key_of : Value → Key.
Variable sizeof_Value : Z.
Variable sizeof_record : Z.
Variable Value0 : Value.

#[local] Abbreviation record := (Storage.detail.record Value).
#[local] Abbreviation file := (Storage.file (Value := Value)).
#[local] Abbreviation storage := (Storage.storage (Key := Key) (Value := Value)).
#[local] Abbreviation world := (MappedFile.world (contents := file)).
#[local] Abbreviation mapped_file := (MappedFile.mapped_file (contents := file)).
#[local] Abbreviation is_occupied := (Storage.is_occupied Value0).
#[local] Abbreviation is_empty := (Storage.is_empty Value0).
#[local] Abbreviation key_at := (Storage.key_at key_of Value0).
#[local] Abbreviation scan := (Storage.scan key_of Value0).
#[local] Abbreviation consistent := (Storage.consistent key_of Value0).
#[local] Abbreviation attached := (Storage.attached key_of sizeof_Value sizeof_record Value0).
#[local] Abbreviation valid_records := (Storage.valid_records key_of Value0).
#[local] Abbreviation valid_file :=
  (Storage.valid_file key_of sizeof_Value sizeof_record Value0).
#[local] Abbreviation storage_size := (Storage.storage_size sizeof_record).
#[local] Abbreviation resized := (Storage.resized sizeof_record Value0).
#[local] Abbreviation create := (Storage.create (Key := Key) sizeof_Value sizeof_record Value0).
#[local] Abbreviation open := (Storage.open key_of sizeof_Value sizeof_record Value0).
#[local] Abbreviation expand := (Storage.expand key_of sizeof_record Value0).
#[local] Abbreviation insert := (Storage.insert key_of).
#[local] Abbreviation insert_or_assign := (Storage.insert_or_assign key_of).
#[local] Abbreviation erase := (Storage.erase (Key := Key) (Value := Value)).
#[local] Abbreviation clear := (Storage.clear (Key := Key) (Value := Value)).
#[local] Abbreviation find := (Storage.find (Key := Key) Value0).
#[local] Abbreviation occupied_count := (Storage.occupied_count Value0).
#[local] Abbreviation counted := (Storage.counted (Key := Key) Value0).
#[local] Abbreviation contents := (Storage.contents (Key := Key) Value0).
#[local] Abbreviation scan_index := (Storage.scan_index key_of Value0).
#[local] Abbreviation scan_free := (Storage.scan_free Value0).
#[local] Abbreviation same_mapping := (Storage.same_mapping (Key := Key) (Value := Value)).
#[local] Abbreviation sound := (Storage.sound key_of Value0).
#[local] Abbreviation scanned := (Storage.scanned key_of Value0).
#[local] Abbreviation maps_file := (Storage.maps_file (Key := Key) (Value := Value)).
#[local] Abbreviation value_of := (Storage.value_of (Key := Key) (Value := Value)).
#[local] Abbreviation serves := (Storage.serves (Key := Key) (Value := Value)).
#[local] Abbreviation session_ok := (Storage.session_ok (Key := Key) (Value := Value)).

#[local] Hint Extern 0 (Inhabited (Storage.detail.record _)) =>
  exact (Storage.record_inhabited Value0) : typeclass_instances.

(** *** The vector of free slots *)

Lemma push_back_elements x v :
  Storage.elements (Storage.push_back x v) = Storage.elements v ++ [x].
Proof. done. Qed.

Lemma push_back_capacity x v :
  length (Storage.elements v) < Storage.vector_capacity v →
  Storage.vector_capacity (Storage.push_back x v) = Storage.vector_capacity v.
Proof. intros Hl. unfold Storage.push_back. simpl. by rewrite decide_True. Qed.

Lemma back_Some v x :
  Storage.back v = Some x →
  Storage.elements v = Storage.elements (Storage.pop_back v) ++ [x].
Proof.
  unfold Storage.back, Storage.pop_back. simpl. intros Hl.
  apply last_Some in Hl as [l' ->]. by rewrite removelast_last.
Qed.

Lemma back_None v : Storage.back v = None → Storage.elements v = [].
Proof. unfold Storage.back. apply last_None. Qed.

Lemma push_range_elements first count v :
  Storage.elements (Storage.push_range first count v)
  = Storage.elements v ++ seq first count.
Proof.
  unfold Storage.push_range. revert first v.
  induction count as [|count IH]; intros first v; simpl.
  - by rewrite app_nil_r.
  - rewrite IH, push_back_elements, <- app_assoc. done.
Qed.

Lemma push_range_capacity first count v :
  length (Storage.elements v) + count ≤ Storage.vector_capacity v →
  Storage.vector_capacity (Storage.push_range first count v) = Storage.vector_capacity v.
Proof.
  unfold Storage.push_range. revert first v.
  induction count as [|count IH]; intros first v Hl; simpl; [done|].
  rewrite IH.
  - apply push_back_capacity. lia.
  - rewrite push_back_elements, length_app, push_back_capacity; simpl; lia.
Qed.

(** *** The scan of [open] *)

Lemma marker_values_differ : marker_empty ≠ marker_occupied.
Proof. done. Qed.

Lemma empty_not_occupied records j : is_empty records j → ¬ is_occupied records j.
Proof. unfold Storage.is_empty, Storage.is_occupied. intros -> ?. done. Qed.

(** Over markers that are all empty or occupied the scan succeeds, and is
    a fold of the two steps. *)
Lemma scan_fold records i n occ free :
  (∀ j, i ≤ j < i + n → is_empty records j ∨ is_occupied records j) →
  scan records i n occ free
  = Some (foldl (scan_index records) occ (seq i n),
          foldl (scan_free records) free (seq i n)).
Proof.
  revert i occ free. induction n as [|n IH]; intros i occ free Hm; simpl; [done|].
  rewrite <- IH by (intros j Hj; apply Hm; lia).
  unfold scan_index, scan_free.
  destruct (Hm i ltac:(lia)) as [He | Ho].
  - pose proof (empty_not_occupied _ _ He) as Hno.
    unfold Storage.is_empty, Storage.is_occupied in *.
    repeat case_decide; done.
  - assert (¬ is_empty records i) as Hne by (intros He; by apply (empty_not_occupied _ _ He)).
    unfold Storage.is_empty, Storage.is_occupied in *.
    repeat case_decide; done.
Qed.

(** A marker that is neither ends the scan: [file_is_corrupted]. *)
Lemma scan_corrupted records i n occ free j :
  i ≤ j < i + n → ¬ is_empty records j → ¬ is_occupied records j →
  (∀ j', i ≤ j' < j → is_empty records j' ∨ is_occupied records j') →
  scan records i n occ free = None.
Proof.
  revert i occ free. induction n as [|n IH]; intros i occ free Hj He Ho Hm; [lia|].
  simpl. destruct (decide (i = j)) as [-> | Hne].
  - unfold Storage.is_empty, Storage.is_occupied in *. by rewrite !decide_False.
  - repeat case_decide; try done; apply IH; try done; try lia; intros; apply Hm; lia.
Qed.

Lemma scan_free_elements records free i n :
  Storage.elements (foldl (scan_free records) free (seq i n))
  = Storage.elements free ++ filter (is_empty records) (seq i n).
Proof.
  revert free i. induction n as [|n IH]; intros free i; simpl.
  - by rewrite app_nil_r.
  - rewrite IH. unfold scan_free. rewrite filter_cons.
    case_decide; [|done]. by rewrite push_back_elements, <- app_assoc.
Qed.

Lemma scan_free_capacity records free i n :
  length (Storage.elements free) + n ≤ Storage.vector_capacity free →
  Storage.vector_capacity (foldl (scan_free records) free (seq i n))
  = Storage.vector_capacity free.
Proof.
  revert free i. induction n as [|n IH]; intros free i Hl; simpl; [done|].
  assert (length (Storage.elements (scan_free records free i)) + n
          ≤ Storage.vector_capacity (scan_free records free i)
          ∧ Storage.vector_capacity (scan_free records free i)
            = Storage.vector_capacity free) as [Hl' Hc].
  { unfold scan_free. case_decide; [|split; lia].
    rewrite push_back_elements, length_app, push_back_capacity; simpl; lia. }
  by rewrite IH.
Qed.

(** With every key held once, the index the scan builds sends a key to
    the occupied slot that holds it. *)
Lemma scan_index_lookup records n k j :
  (∀ i i', i < n → i' < n → is_occupied records i → is_occupied records i' →
           key_at records i = key_at records i' → i = i') →
  foldl (scan_index records) ∅ (seq 0 n) !! k = Some j
  ↔ j < n ∧ is_occupied records j ∧ key_at records j = k.
Proof.
  induction n as [|n IH]; intros Hd.
  - simpl. rewrite lookup_empty. split; [done | lia].
  - rewrite seq_S, foldl_app. simpl.
    set (m := foldl (scan_index records) ∅ (seq 0 n)) in *. unfold scan_index.
    assert (∀ i i', i < n → i' < n → is_occupied records i → is_occupied records i' →
            key_at records i = key_at records i' → i = i') as Hd'
      by (intros; apply Hd; auto with lia).
    specialize (IH Hd'). case_decide as Ho.
    + destruct (decide (key_at records n = k)) as [<- | Hk].
      * rewrite lookup_insert_eq. split.
        -- intros [= <-]. auto with lia.
        -- intros (Hj & Hoj & Hkj). f_equal. symmetry. apply Hd; auto with lia.
      * rewrite lookup_insert_ne by done. rewrite IH. split.
        -- intros (? & ? & ?). auto with lia.
        -- intros (Hj & Hoj & Hkj). split_and!; try done.
           destruct (decide (j = n)) as [-> | ?]; [done | lia].
    + rewrite IH. split.
      * intros (? & ? & ?). auto with lia.
      * intros (Hj & Hoj & Hkj). split_and!; try done.
        destruct (decide (j = n)) as [-> | ?]; [done | lia].
Qed.

(** *** Counting slots *)

Lemma filter_partition_length {A} (P Q : A → Prop)
    `{∀ x, Decision (P x)} `{∀ x, Decision (Q x)} (l : list A) :
  (∀ x, x ∈ l → P x ∨ Q x) → (∀ x, P x → ¬ Q x) →
  length (filter P l) + length (filter Q l) = length l.
Proof.
  intros Hpq Hex. induction l as [|x l IH]; [done|].
  rewrite !filter_cons.
  assert (∀ y, y ∈ l → P y ∨ Q y) as Hl by (intros; apply Hpq; by right).
  specialize (IH Hl).
  destruct (Hpq x ltac:(by left)) as [Hp | Hq].
  - rewrite decide_True by done. rewrite (decide_False (P := Q x)) by by apply Hex.
    simpl. lia.
  - rewrite (decide_False (P := P x)) by (intros Hp; by apply (Hex x)).
    rewrite decide_True by done. simpl. lia.
Qed.

(** Occupied and empty slots make up the first [n]. *)
Lemma occupied_plus_empty records n :
  (∀ i, i < n → is_empty records i ∨ is_occupied records i) →
  occupied_count records n + length (filter (is_empty records) (seq 0 n)) = n.
Proof.
  intros Hm. unfold Storage.occupied_count.
  rewrite filter_partition_length.
  - apply length_seq.
  - intros i Hi. apply elem_of_seq in Hi. destruct (Hm i ltac:(lia)); auto.
  - intros i Ho He. by apply (empty_not_occupied records i).
Qed.

Lemma occupied_count_S records n :
  occupied_count records (S n)
  = occupied_count records n + (if decide (is_occupied records n) then 1 else 0).
Proof.
  unfold Storage.occupied_count. rewrite seq_S, filter_app, length_app. simpl.
  rewrite filter_cons, filter_nil. by case_decide.
Qed.

(** An index that sends every key to the occupied slot holding it has as
    many entries as there are occupied slots. *)
Lemma index_size records n (occ : gmap Key nat) :
  (∀ k j, occ !! k = Some j ↔ j < n ∧ is_occupied records j ∧ key_at records j = k) →
  base.size occ = occupied_count records n.
Proof.
  revert occ. induction n as [|n IH]; intros occ Hocc.
  - unfold Storage.occupied_count. simpl. apply map_size_empty_iff, map_eq. intros k.
    rewrite lookup_empty. apply eq_None_not_Some. intros [j Hj].
    apply Hocc in Hj. lia.
  - rewrite occupied_count_S. case_decide as Ho.
    + assert (occ !! key_at records n = Some n) as Hn by (apply Hocc; auto with lia).
      rewrite <- (insert_delete_id occ _ _ Hn).
      rewrite map_size_insert_None by apply lookup_delete_eq.
      rewrite (IH (delete (key_at records n) occ)); [lia|].
      intros k j. rewrite lookup_delete_Some, Hocc. split.
      * intros (Hk & Hj & Hoj & Hkj).
        destruct (decide (j = n)) as [-> | ?]; [congruence | auto with lia].
      * intros (Hj & Hoj & Hkj). split_and!; auto with lia.
        intros Hk. assert (occ !! k = Some j) as Hl by (apply Hocc; auto with lia).
        rewrite <- Hk in Hl. rewrite Hn in Hl. injection Hl. lia.
    + rewrite Nat.add_0_r. apply IH. intros k j. rewrite Hocc. split.
      * intros (Hj & Hoj & Hkj).
        destruct (decide (j = n)) as [-> | ?]; [done | auto with lia].
      * intros (Hj & Hoj & Hkj). auto with lia.
Qed.

(** A list without repetition of slots below [n] is no longer than [n]. *)
Lemma NoDup_below_length (l : list nat) n :
  NoDup l → (∀ i, i ∈ l → i < n) → length l ≤ n.
Proof.
  intros Hnd Hl. transitivity (length (seq 0 n)); [|by rewrite length_seq].
  apply submseteq_length.
  apply NoDup_submseteq; [done|]. intros i Hi. apply elem_of_seq. specialize (Hl i Hi). lia.
Qed.

(** A free list that holds every empty slot once is as long as there are
    empty slots. *)
Lemma free_list_length records n (free : list nat) :
  NoDup free →
  (∀ i, i ∈ free ↔ i < n ∧ is_empty records i) →
  length free = length (filter (is_empty records) (seq 0 n)).
Proof.
  intros Hnd Hf. apply Permutation_length, NoDup_Permutation; [done | |].
  - apply NoDup_filter, NoDup_seq.
  - intros i. rewrite Hf, list_elem_of_filter, elem_of_seq.
    split; intros [? ?]; split; auto with lia.
Qed.

(** *** What the operations leave alone *)

Lemma same_mapping_refl s : same_mapping s s.
Proof. by repeat split. Qed.

Lemma same_mapping_trans s1 s2 s3 :
  same_mapping s1 s2 → same_mapping s2 s3 → same_mapping s1 s3.
Proof. unfold same_mapping. intros (?&?&?&?&?&?) (?&?&?&?&?&?). split_and!; congruence. Qed.

Lemma insert_same_mapping value s : same_mapping s (insert value s).2.
Proof.
  unfold Storage.insert. repeat case_match; simpl; by repeat split.
Qed.

Lemma insert_or_assign_same_mapping value s : same_mapping s (insert_or_assign value s).2.
Proof.
  unfold Storage.insert_or_assign. repeat case_match; simpl; by repeat split.
Qed.

Lemma erase_same_mapping key s : same_mapping s (erase key s).2.
Proof.
  unfold Storage.erase. repeat case_match; simpl; by repeat split.
Qed.

Lemma clear_step_same_mapping s ki : same_mapping s (Storage.clear_step s ki).
Proof. by repeat split. Qed.

Lemma clear_steps_same_mapping l s : same_mapping s (foldl Storage.clear_step s l).
Proof.
  revert s. induction l as [|ki l IH]; intros s; simpl.
  - apply same_mapping_refl.
  - eapply same_mapping_trans; [apply clear_step_same_mapping | apply IH].
Qed.

Lemma clear_same_mapping s : same_mapping s (clear s).
Proof.
  unfold Storage.clear.
  eapply same_mapping_trans; [apply clear_steps_same_mapping | by repeat split].
Qed.

(** *** Reading records after a store *)

Lemma marker_alter_marker (records : list record) m i j :
  marker (alter (Storage.set_marker m) i records !!! j)
  = if decide (i = j ∧ i < length records) then m else marker (records !!! j).
Proof. rewrite list_lookup_total_alter. case_decide as Hd; [by destruct Hd as [-> _] | done]. Qed.

Lemma data_alter_marker (records : list record) m i j :
  data (alter (Storage.set_marker m) i records !!! j) = data (records !!! j).
Proof. rewrite list_lookup_total_alter. case_decide as Hd; [by destruct Hd as [-> _] | done]. Qed.

Lemma marker_alter_data (records : list record) v i j :
  marker (alter (Storage.set_data v) i records !!! j) = marker (records !!! j).
Proof. rewrite list_lookup_total_alter. case_decide as Hd; [by destruct Hd as [-> _] | done]. Qed.

Lemma data_alter_data (records : list record) v i j :
  data (alter (Storage.set_data v) i records !!! j)
  = if decide (i = j ∧ i < length records) then v else data (records !!! j).
Proof. rewrite list_lookup_total_alter. case_decide as Hd; [by destruct Hd as [-> _] | done]. Qed.

(** *** The operations keep the store consistent *)

Ltac unfold_slots :=
  unfold Storage.is_occupied, Storage.is_empty, Storage.key_at in *.

Ltac unfold_store :=
  unfold Storage.header_, Storage.records_, Storage.with_records, Storage.with_occupied,
    Storage.with_free, Storage.with_bytes, Storage.file_with_records,
    Storage.file_with_header, Storage.capacity, Storage.size in *;
  simpl in *.

Ltac read_records :=
  rewrite ?marker_alter_data, ?marker_alter_marker, ?data_alter_data, ?data_alter_marker,
    ?length_alter.

(** Taking a slot off the free list loses nothing else. *)
Lemma pop_back_consistent s index :
  consistent s → Storage.back (Storage.free_indices_ s) = Some index →
  consistent (Storage.with_free (Storage.pop_back (Storage.free_indices_ s)) s).
Proof.
  intros [Hs Hc Hm Hf Hn Hl Hr] Hb. apply back_Some in Hb.
  rewrite Hb in Hf, Hn. apply NoDup_app in Hn as (Hn & _ & _).
  constructor; simpl; try done.
  intros i Hi. apply Hf. apply elem_of_app. by left.
Qed.

Lemma insert_consistent value s : consistent s → consistent (insert value s).2.
Proof.
  intros Hcons. unfold Storage.insert.
  destruct (Storage.back (Storage.free_indices_ s)) as [index|] eqn:Hb; [|done].
  pose proof (pop_back_consistent s index Hcons Hb) as Hpop. simpl.
  destruct (Storage.occupied_indices_ s !! key_of value) as [?|] eqn:Hk; [done|].
  destruct Hcons as [Hs Hc Hm Hf Hn Hl Hr]. apply back_Some in Hb.
  destruct (Hf index) as [Hi He]; [rewrite Hb; apply elem_of_app; right; by left|].
  rewrite Hb in Hn. apply NoDup_app in Hn as (Hn & Hd & _).
  unfold_slots. unfold_store.
  constructor; unfold_slots; unfold_store.
  - intros k i. read_records.
    destruct (decide (key_of value = k)) as [<- | Hne].
    + rewrite lookup_insert_eq. intros [= <-].
      rewrite !decide_True by (split; [done | lia]). done.
    + rewrite lookup_insert_ne by done. intros Hki.
      destruct (Hs k i Hki) as (? & Ho & ?).
      assert (index ≠ i) by (intros ->; rewrite He in Ho; done).
      rewrite !decide_False by (intros [? ?]; congruence). done.
  - intros i Hi'. read_records.
    destruct (decide (index = i)) as [<- | Hne].
    + rewrite !decide_True by (split; [done | lia]). intros _. apply lookup_insert_eq.
    + rewrite !decide_False by (intros [? ?]; congruence). intros Ho.
      rewrite lookup_insert_ne; [by apply Hc|].
      intros Heq. specialize (Hc i Hi' Ho). rewrite <- Heq in Hc. congruence.
  - intros i Hi'. read_records.
    case_decide; [by right | by apply Hm].
  - intros i Hi'. read_records.
    assert (index ≠ i) by (intros ->; apply (Hd i Hi'); by left).
    rewrite decide_False by (intros [? ?]; congruence).
    apply Hf. rewrite Hb. apply elem_of_app. by left.
  - done.
  - by read_records.
  - done.
Qed.

(** On a key that is not indexed [insert_or_assign] is [insert]. *)
Lemma insert_or_assign_new value s :
  Storage.occupied_indices_ s !! key_of value = None →
  insert_or_assign value s = insert value s.
Proof.
  intros Hk. unfold Storage.insert_or_assign, Storage.insert. rewrite Hk.
  destruct (Storage.back (Storage.free_indices_ s)); [|done]. simpl. by rewrite Hk.
Qed.

Lemma insert_or_assign_consistent value s :
  consistent s → consistent (insert_or_assign value s).2.
Proof.
  intros Hcons.
  destruct (Storage.occupied_indices_ s !! key_of value) as [index|] eqn:Hk.
  - unfold Storage.insert_or_assign. rewrite Hk. simpl.
    destruct Hcons as [Hs Hc Hm Hf Hn Hl Hr].
    destruct (Hs _ _ Hk) as (Hi & Ho & Hkey).
    unfold_slots. unfold_store.
    assert (∀ i, key_of (data (alter (Storage.set_data value) index
                    (Storage.file_records (MappedFile.bytes (Storage.mapped_file_ s))) !!! i))
                 = key_of (data (Storage.file_records
                    (MappedFile.bytes (Storage.mapped_file_ s)) !!! i))) as Hsame.
    { intros i. read_records. case_decide as Hd; [|done]. destruct Hd as [<- _]. done. }
    constructor; unfold_slots; unfold_store.
    + intros k i Hki. rewrite Hsame. read_records. by apply Hs.
    + intros i Hi'. rewrite Hsame. read_records. by apply Hc.
    + intros i Hi'. read_records. by apply Hm.
    + intros i Hi'. read_records. by apply Hf.
    + done.
    + by read_records.
    + done.
  - rewrite insert_or_assign_new by done. by apply insert_consistent.
Qed.

Lemma erase_consistent key s : consistent s → consistent (erase key s).2.
Proof.
  intros Hcons. unfold Storage.erase.
  destruct (Storage.occupied_indices_ s !! key) as [index|] eqn:Hk; [|done]. simpl.
  destruct Hcons as [Hs Hc Hm Hf Hn Hl Hr].
  destruct (Hs _ _ Hk) as (Hi & Ho & Hkey).
  unfold_slots. unfold_store.
  assert (index ∉ Storage.elements (Storage.free_indices_ s)) as Hnf.
  { intros Hin. destruct (Hf _ Hin) as [_ He]. rewrite He in Ho. done. }
  constructor; unfold_slots; unfold_store.
  - intros k i. rewrite lookup_delete_Some. intros [Hne Hki].
    destruct (Hs k i Hki) as (? & Hoi & Hkk). read_records.
    assert (index ≠ i) by (intros ->; congruence).
    rewrite decide_False by (intros [? ?]; congruence). done.
  - intros i Hi'. read_records. case_decide as Hd; [done|]. intros Hoi.
    assert (index ≠ i) by (intros ->; apply Hd; split; [done | lia]).
    rewrite lookup_delete_ne; [by apply Hc|].
    intros Heq. specialize (Hc i Hi' Hoi). rewrite <- Heq in Hc. congruence.
  - intros i Hi'. read_records. case_decide; [by left | by apply Hm].
  - intros i. rewrite elem_of_app, list_elem_of_singleton. read_records.
    intros [Hin | ->].
    + destruct (Hf i Hin) as [? He]. split; [done|]. by case_decide.
    + split; [done|]. by rewrite decide_True by (split; [done | lia]).
  - apply NoDup_app. split_and!; [done | | apply NoDup_singleton].
    intros i Hin. rewrite list_elem_of_singleton. intros ->. done.
  - by read_records.
  - rewrite decide_True; [done|].
    assert (length (index :: Storage.elements (Storage.free_indices_ s))
            ≤ capacity (Storage.file_header (MappedFile.bytes (Storage.mapped_file_ s)))).
    { apply NoDup_below_length; [by constructor|].
      intros i [-> | Hin]%elem_of_cons; [done | by apply Hf]. }
    simpl in *. lia.
Qed.

Lemma clear_step_spec (s : storage) (k : Key) i :
  Storage.occupied_indices_ (Storage.clear_step s (k, i)) = Storage.occupied_indices_ s
  ∧ Storage.elements (Storage.free_indices_ (Storage.clear_step s (k, i)))
    = Storage.elements (Storage.free_indices_ s) ++ [i]
  ∧ Storage.records_ (Storage.clear_step s (k, i))
    = alter (Storage.set_marker marker_empty) i (Storage.records_ s)
  ∧ Storage.vector_capacity (Storage.free_indices_ (Storage.clear_step s (k, i)))
    = if decide (length (Storage.elements (Storage.free_indices_ s))
                 < Storage.vector_capacity (Storage.free_indices_ s))
      then Storage.vector_capacity (Storage.free_indices_ s)
      else Nat.max 1 (2 * length (Storage.elements (Storage.free_indices_ s))).
Proof. done. Qed.

(** What the loop of [clear] has done after the entries [l]. *)
Lemma clear_steps_spec (l : list (Key * nat)) s :
  let s' := foldl Storage.clear_step s l in
  Storage.occupied_indices_ s' = Storage.occupied_indices_ s
  ∧ Storage.elements (Storage.free_indices_ s')
    = Storage.elements (Storage.free_indices_ s) ++ l.*2
  ∧ length (Storage.records_ s') = length (Storage.records_ s)
  ∧ (∀ j, data (Storage.records_ s' !!! j) = data (Storage.records_ s !!! j))
  ∧ (∀ j, marker (Storage.records_ s' !!! j)
          = if decide (j ∈ l.*2 ∧ j < length (Storage.records_ s))
            then marker_empty else marker (Storage.records_ s !!! j))
  ∧ (length (Storage.elements (Storage.free_indices_ s)) + length l
       ≤ Storage.vector_capacity (Storage.free_indices_ s) →
     Storage.vector_capacity (Storage.free_indices_ s')
     = Storage.vector_capacity (Storage.free_indices_ s)).
Proof.
  revert s. induction l as [|[k i] l IH]; intros s; simpl.
  - split_and!; try done; try (by rewrite app_nil_r);
      try (intros j; rewrite decide_False; [done|]; intros [Hj _]; by apply elem_of_nil in Hj).
  - destruct (IH (Storage.clear_step s (k, i))) as (Ho & Hf & Hl & Hd & Hm & Hc).
    destruct (clear_step_spec s k i) as (Ho1 & Hf1 & Hr1 & Hc1).
    rewrite Hr1 in Hl, Hd, Hm. rewrite Hf1 in Hf, Hc. rewrite length_alter in Hl, Hm.
    split_and!.
    + by rewrite Ho.
    + by rewrite Hf, <- app_assoc.
    + done.
    + intros j. rewrite Hd. by read_records.
    + intros j. rewrite Hm. read_records.
      destruct (decide (j ∈ l.*2 ∧ j < length (Storage.records_ s))) as [[Hin Hlt] | Hn1].
      * rewrite decide_True; [done|]. split; [by right | done].
      * destruct (decide (i = j ∧ i < length (Storage.records_ s))) as [[-> Hlt] | Hn2].
        -- rewrite decide_True; [done|]. split; [by left | done].
        -- rewrite decide_False; [done|].
           intros [[-> | Hin]%elem_of_cons Hlt]; [apply Hn2 | apply Hn1]; done.
    + intros Hlen. rewrite length_app in Hc. simpl in Hc. rewrite Hc.
      * simpl. rewrite decide_True; [done | lia].
      * simpl. rewrite decide_True; lia.
Qed.

(** An index that is sound holds every slot once. *)
Lemma index_slots_NoDup s :
  consistent s → NoDup (map_to_list (Storage.occupied_indices_ s)).*2.
Proof.
  intros [Hs _ _ _ _ _ _]. apply NoDup_fmap_2_strong; [|apply NoDup_map_to_list].
  intros [k1 i1] [k2 i2] H1 H2. simpl. intros <-.
  apply elem_of_map_to_list in H1, H2.
  destruct (Hs _ _ H1) as (_ & _ & <-). destruct (Hs _ _ H2) as (_ & _ & <-). done.
Qed.

Lemma index_slots_elem_of (m : gmap Key nat) i :
  i ∈ (map_to_list m).*2 ↔ ∃ k, m !! k = Some i.
Proof.
  rewrite list_elem_of_fmap. split.
  - intros ([k i'] & -> & Hin). exists k. by apply elem_of_map_to_list.
  - intros [k Hk]. exists (k, i). split; [done|]. by apply elem_of_map_to_list.
Qed.

Lemma clear_consistent s : consistent s → consistent (clear s).
Proof.
  intros Hcons. pose proof (index_slots_NoDup s Hcons) as Hnd.
  destruct (clear_same_mapping s) as (Hh & _).
  unfold Storage.clear in *.
  destruct (clear_steps_spec (map_to_list (Storage.occupied_indices_ s)) s)
    as (Ho & Hf & Hl & Hd & Hm & Hc).
  set (s' := foldl Storage.clear_step s (map_to_list (Storage.occupied_indices_ s))) in *.
  destruct Hcons as [Hs Hco Hma Hfr Hn Hle Hr].
  assert (Storage.header_ (Storage.with_occupied ∅ s') = Storage.header_ s') as Hh' by done.
  assert (Storage.header_ s' = Storage.header_ s) as Hhs by (by rewrite <- Hh' , Hh).
  assert (NoDup (Storage.elements (Storage.free_indices_ s)
                 ++ (map_to_list (Storage.occupied_indices_ s)).*2)) as Hnd'.
  { apply NoDup_app. split_and!; [done | | done].
    intros i Hi Hin. apply index_slots_elem_of in Hin as [k Hk].
    destruct (Hfr i Hi) as [_ He]. destruct (Hs k i Hk) as (_ & Hoc & _).
    by apply (empty_not_occupied _ _ He). }
  constructor.
  - intros k i. simpl. by rewrite lookup_empty.
  - intros i. rewrite Hh'. rewrite Hhs. intros Hi. unfold Storage.is_occupied.
    change (Storage.records_ (Storage.with_occupied ∅ s')) with (Storage.records_ s').
    rewrite Hm. case_decide as Hin; [done|]. intros Hoc. exfalso. apply Hin.
    split; [|lia]. apply index_slots_elem_of. eexists. by apply Hco.
  - intros i. rewrite Hh'. rewrite Hhs. intros Hi. unfold Storage.is_empty, Storage.is_occupied.
    change (Storage.records_ (Storage.with_occupied ∅ s')) with (Storage.records_ s').
    rewrite Hm. case_decide; [by left | by apply Hma].
  - intros i. rewrite Hh'. rewrite Hhs. unfold Storage.is_empty.
    change (Storage.records_ (Storage.with_occupied ∅ s')) with (Storage.records_ s').
    change (Storage.free_indices_ (Storage.with_occupied ∅ s'))
      with (Storage.free_indices_ s').
    rewrite Hf, Hm, elem_of_app. intros [Hi | Hi].
    + destruct (Hfr i Hi) as [? He]. split; [done|]. by case_decide.
    + apply index_slots_elem_of in Hi as Hk. destruct Hk as [k Hk].
      destruct (Hs k i Hk) as (? & _ & _). split; [done|].
      rewrite decide_True; [done|]. split; [done | lia].
  - change (Storage.free_indices_ (Storage.with_occupied ∅ s'))
      with (Storage.free_indices_ s').
    by rewrite Hf.
  - rewrite Hh', Hhs.
    change (Storage.records_ (Storage.with_occupied ∅ s')) with (Storage.records_ s').
    by rewrite Hl.
  - rewrite Hh', Hhs. rewrite <- Hr. unfold Storage.capacity.
    change (Storage.free_indices_ (Storage.with_occupied ∅ s'))
      with (Storage.free_indices_ s').
    apply Hc. fold (Storage.capacity s). rewrite Hr.
    rewrite <- (length_fmap snd), <- length_app.
    apply NoDup_below_length; [done|].
    intros i [Hi | Hi]%elem_of_app; [by apply Hfr|].
    apply index_slots_elem_of in Hi as [k Hk]. by apply (Hs k i).
Qed.

(** *** The counting invariant *)

(** A sound store satisfies the counting invariant. *)
Lemma sound_counted s : sound s → counted s.
Proof.
  intros [[Hs Hc Hm Hf Hn Hl Hr] Hfc]. unfold Storage.counted.
  assert (Storage.size s
          = occupied_count (Storage.records_ s) (capacity (Storage.header_ s))) as Hsize.
  { apply index_size. intros k j. split; [apply Hs|].
    intros (Hj & Ho & <-). by apply Hc. }
  split; [done|].
  rewrite (free_list_length (Storage.records_ s) (capacity (Storage.header_ s))); [|done|].
  - by apply occupied_plus_empty.
  - intros i. split; [apply Hf | intros [? ?]; by apply Hfc].
Qed.

Lemma insert_sound value s :
  sound s →
  Storage.occupied_indices_ s !! key_of value = None
  ∨ Storage.elements (Storage.free_indices_ s) = [] →
  sound (insert value s).2.
Proof.
  intros [Hcons Hfc] Hcase. split; [by apply insert_consistent|].
  unfold Storage.insert.
  destruct (Storage.back (Storage.free_indices_ s)) as [index|] eqn:Hb; [|done].
  apply back_Some in Hb. destruct Hcase as [Hk | He].
  2: { rewrite He in Hb. exfalso. eapply app_cons_not_nil. exact Hb. }
  simpl. rewrite Hk. simpl.
  destruct Hcons as [Hs Hc Hm Hf Hn Hl Hr].
  destruct (Hf index) as [Hi He]; [rewrite Hb; apply elem_of_app; right; by left|].
  unfold Storage.free_complete in *. unfold_slots. unfold_store.
  intros i Hi'. read_records. case_decide as Hd; [done|]. intros Hei.
  specialize (Hfc i Hi' Hei). rewrite Hb in Hfc.
  apply elem_of_app in Hfc as [? | ->%list_elem_of_singleton]; [done|].
  exfalso. apply Hd. split; [done | lia].
Qed.

Lemma insert_or_assign_sound value s : sound s → sound (insert_or_assign value s).2.
Proof.
  intros Hsound.
  destruct (Storage.occupied_indices_ s !! key_of value) as [index|] eqn:Hk.
  - destruct Hsound as [Hcons Hfc]. split; [by apply insert_or_assign_consistent|].
    unfold Storage.insert_or_assign. rewrite Hk. simpl.
    unfold Storage.free_complete in *. unfold_slots. unfold_store.
    intros i Hi. read_records. by apply Hfc.
  - rewrite insert_or_assign_new by done. apply insert_sound; auto.
Qed.

Lemma erase_sound key s : sound s → sound (erase key s).2.
Proof.
  intros [Hcons Hfc]. split; [by apply erase_consistent|].
  unfold Storage.erase.
  destruct (Storage.occupied_indices_ s !! key) as [index|] eqn:Hk; [|done]. simpl.
  unfold Storage.free_complete in *. unfold_slots. unfold_store.
  intros i Hi. read_records. rewrite elem_of_app, list_elem_of_singleton.
  case_decide as Hd; [destruct Hd; auto | intros He; left; by apply Hfc].
Qed.

Lemma clear_sound s : sound s → sound (clear s).
Proof.
  intros [Hcons Hfc]. split; [by apply clear_consistent|].
  destruct (clear_same_mapping s) as (Hh & _).
  unfold Storage.clear in *.
  destruct (clear_steps_spec (map_to_list (Storage.occupied_indices_ s)) s)
    as (Ho & Hf & Hl & Hd & Hm & Hc).
  set (s' := foldl Storage.clear_step s (map_to_list (Storage.occupied_indices_ s))) in *.
  unfold Storage.free_complete in *. intros i. rewrite Hh. intros Hi.
  unfold Storage.is_empty.
  change (Storage.records_ (Storage.with_occupied ∅ s')) with (Storage.records_ s').
  change (Storage.free_indices_ (Storage.with_occupied ∅ s'))
    with (Storage.free_indices_ s').
  rewrite Hf, Hm, elem_of_app. case_decide as Hin; [destruct Hin; auto|].
  intros He. left. by apply Hfc.
Qed.

(** The number of entries and the free slots after a failed [insert]. *)
Lemma insert_full value s :
  Storage.elements (Storage.free_indices_ s) = [] → insert value s = (false, s).
Proof.
  intros He. unfold Storage.insert, Storage.back. by rewrite He.
Qed.

(** With a free slot at hand, [insert] of an indexed key fails and the
    slot is gone from the free list. *)
Lemma insert_duplicate value s index :
  Storage.back (Storage.free_indices_ s) = Some index →
  is_Some (Storage.occupied_indices_ s !! key_of value) →
  insert value s
  = (false, Storage.with_free (Storage.pop_back (Storage.free_indices_ s)) s).
Proof.
  intros Hb [i Hk]. unfold Storage.insert. rewrite Hb. simpl. by rewrite Hk.
Qed.

(** *** Files and sizes *)

Lemma storage_size_mono n m :
  (0 ≤ sizeof_record)%Z → n ≤ m → (storage_size n ≤ storage_size m)%Z.
Proof. unfold Storage.storage_size. nia. Qed.

Lemma storage_size_positive n : (0 ≤ sizeof_record)%Z → (0 < storage_size n)%Z.
Proof. unfold Storage.storage_size, sizeof_header. nia. Qed.

Lemma records_in_storage_size n :
  (0 < sizeof_record)%Z → Storage.records_in sizeof_record (storage_size n) = n.
Proof.
  intros Hr. unfold Storage.records_in, Storage.storage_size.
  replace (sizeof_header + Z.of_nat n * sizeof_record - sizeof_header)%Z
    with (Z.of_nat n * sizeof_record)%Z by lia.
  rewrite Z.div_mul by lia. apply Nat2Z.id.
Qed.

Lemma construct_range_length first count (records : list record) :
  length (Storage.construct_range Value0 first count records) = length records.
Proof.
  unfold Storage.construct_range. revert first records.
  induction count as [|count IH]; intros first records; simpl; [done|].
  by rewrite IH, length_insert.
Qed.

Lemma construct_range_lookup first count (records : list record) j :
  Storage.construct_range Value0 first count records !!! j
  = if decide (first ≤ j < first + count ∧ j < length records)
    then Storage.record0 Value0 else records !!! j.
Proof.
  unfold Storage.construct_range. revert first records.
  induction count as [|count IH]; intros first records; simpl.
  - rewrite decide_False; [done | lia].
  - rewrite IH, length_insert, list_lookup_total_insert.
    repeat case_decide; try done; exfalso; lia.
Qed.

(** The scan reads the records it visits and nothing else. *)
Lemma scan_index_ext (r1 r2 : list record) m l :
  (∀ i, i ∈ l → r1 !!! i = r2 !!! i) →
  foldl (scan_index r1) m l = foldl (scan_index r2) m l.
Proof.
  revert m. induction l as [|i l IH]; intros m Hl; simpl; [done|].
  rewrite IH by (intros; apply Hl; by right).
  f_equal. assert (r1 !!! i = r2 !!! i) as Hi by (apply Hl; by left).
  unfold scan_index.
  destruct (decide (is_occupied r1 i)) as [H1 | H1], (decide (is_occupied r2 i)) as [H2 | H2];
    unfold Storage.is_occupied, Storage.key_at in *; rewrite ?Hi in *; done.
Qed.

Lemma scan_free_ext (r1 r2 : list record) v l :
  (∀ i, i ∈ l → r1 !!! i = r2 !!! i) →
  foldl (scan_free r1) v l = foldl (scan_free r2) v l.
Proof.
  revert v. induction l as [|i l IH]; intros v Hl; simpl; [done|].
  rewrite IH by (intros; apply Hl; by right).
  f_equal. assert (r1 !!! i = r2 !!! i) as Hi by (apply Hl; by left).
  unfold scan_free.
  destruct (decide (is_empty r1 i)) as [H1 | H1], (decide (is_empty r2 i)) as [H2 | H2];
    unfold Storage.is_empty in *; rewrite ?Hi in *; done.
Qed.

Lemma filter_is_empty_ext (r1 r2 : list record) (l : list nat) :
  (∀ i, i ∈ l → r1 !!! i = r2 !!! i) →
  filter (is_empty r1) l = filter (is_empty r2) l.
Proof.
  induction l as [|i l IH]; intros Hl; [done|].
  rewrite !filter_cons, IH by (intros; apply Hl; by right).
  assert (r1 !!! i = r2 !!! i) as Hi by (apply Hl; by left).
  destruct (decide (is_empty r1 i)) as [H1 | H1], (decide (is_empty r2 i)) as [H2 | H2];
    unfold Storage.is_empty in *; rewrite ?Hi in *; done.
Qed.

(** *** What [open] returns on a file it accepts *)

Lemma scanned_sound records n extra s :
  valid_records records n → scanned records n extra s → sound s.
Proof.
  intros [Hlen Hmark Hkeys] [Hi Hf Hc Hh Hl Hold Hnew].
  assert (∀ k j, Storage.occupied_indices_ s !! k = Some j
                 ↔ j < n ∧ is_occupied records j ∧ key_at records j = k) as Hlook.
  { intros k j. rewrite Hi. by apply scan_index_lookup. }
  assert (∀ i, i < n → is_occupied (Storage.records_ s) i ↔ is_occupied records i) as Ho.
  { intros i Hlt. unfold Storage.is_occupied. by rewrite Hold. }
  assert (∀ i, i < n → is_empty (Storage.records_ s) i ↔ is_empty records i) as He.
  { intros i Hlt. unfold Storage.is_empty. by rewrite Hold. }
  assert (∀ i, n ≤ i < n + extra → is_empty (Storage.records_ s) i) as Hne.
  { intros i Hlt. unfold Storage.is_empty. by rewrite Hnew. }
  split; [constructor|].
  - intros k i Hk. apply Hlook in Hk as (Hlt & Hoc & Hkey). rewrite Hh.
    split_and!; [lia | by apply Ho |]. unfold Storage.key_at in *. by rewrite Hold.
  - intros i. rewrite Hh. intros Hlt Hoc.
    destruct (decide (i < n)) as [Hin | Hout].
    + apply Hlook. split_and!; [done | by apply Ho |].
      unfold Storage.key_at. by rewrite Hold.
    + exfalso. apply (empty_not_occupied (Storage.records_ s) i); [apply Hne; lia | done].
  - intros i. rewrite Hh. intros Hlt.
    destruct (decide (i < n)) as [Hin | Hout].
    + destruct (Hmark i Hin); [left; by apply He | right; by apply Ho].
    + left. apply Hne. lia.
  - intros i. rewrite Hf, Hh, elem_of_app, list_elem_of_filter, !elem_of_seq.
    intros [[Hei Hlt] | Hlt].
    + split; [lia|]. apply He; [lia | done].
    + split; [lia|]. apply Hne. lia.
  - rewrite Hf. apply NoDup_app. split_and!.
    + apply NoDup_filter, NoDup_seq.
    + intros i. rewrite list_elem_of_filter, !elem_of_seq. lia.
    + apply NoDup_seq.
  - by rewrite Hh.
  - by rewrite Hc, Hh.
  - unfold Storage.free_complete. intros i. rewrite Hh, Hf. intros Hlt Hei.
    rewrite elem_of_app, list_elem_of_filter, !elem_of_seq.
    destruct (decide (i < n)) as [Hin | Hout].
    + left. split; [by apply He | lia].
    + right. lia.
Qed.

(** Every occupied slot of the file is found under its key. *)
Lemma scanned_find records n extra s i :
  valid_records records n → scanned records n extra s →
  i < n → is_occupied records i →
  find (key_at records i) s = Some (data (records !!! i)).
Proof.
  intros [Hlen Hmark Hkeys] [Hi Hf Hc Hh Hl Hold Hnew] Hlt Hoc.
  unfold Storage.find.
  assert (Storage.occupied_indices_ s !! key_at records i = Some i) as ->.
  { rewrite Hi. apply scan_index_lookup; [done | auto]. }
  by rewrite Hold.
Qed.

Lemma scanned_size records n extra s :
  valid_records records n → scanned records n extra s →
  Storage.size s = occupied_count records n.
Proof.
  intros [Hlen Hmark Hkeys] [Hi Hf Hc Hh Hl Hold Hnew].
  apply index_size. intros k j. rewrite Hi. by apply scan_index_lookup.
Qed.

Lemma valid_file_size f :
  (0 ≤ sizeof_record)%Z → valid_file f →
  (sizeof_header + sizeof_record ≤ Storage.file_size f)%Z.
Proof.
  intros Hr [_ _ Hcap Hsize _]. rewrite Hsize. unfold Storage.storage_size. nia.
Qed.

(** [open] of a valid file whose capacity is enough maps it and scans it. *)
Lemma open_accepts path n w f :
  (0 ≤ sizeof_record)%Z →
  Storage.no_faults w →
  MappedFile.fs w !! path = Some f →
  valid_file f →
  n ≤ capacity (Storage.file_header f) →
  ∃ s w', open path n w = (of_value s, w')
          ∧ MappedFile.same_disk w w'
          ∧ scanned (Storage.file_records f) (capacity (Storage.file_header f)) 0 s
          ∧ MappedFile.bytes (Storage.mapped_file_ s) = f
          ∧ maps_file path f s.
Proof.
  intros Hr Hnf Hfs Hvalid Hn.
  pose proof (valid_file_size f Hr Hvalid) as Hbig.
  destruct Hvalid as [Hsig Hitem Hcap Hsize [Hlen Hmark Hkeys]].
  destruct (MappedFileFacts.create_succeeds Storage.file_size path w f Hnf Hfs)
    as (m & w' & Hcreate).
  { unfold sizeof_header in Hbig. lia. }
  destruct (MappedFileFacts.create_value _ _ _ _ _ Hcreate)
    as (c & Hc & Hbytes & Hsz & _ & Hback & Haddr).
  assert (c = f) as -> by congruence.
  exists {| Storage.occupied_indices_ :=
              foldl (scan_index (Storage.file_records f)) ∅
                    (seq 0 (capacity (Storage.file_header f)));
            Storage.free_indices_ :=
              foldl (scan_free (Storage.file_records f))
                    (Storage.reserve (capacity (Storage.file_header f)) Storage.vector_new)
                    (seq 0 (capacity (Storage.file_header f)));
            Storage.mapped_file_ := m |}, w'.
  split_and!.
  - unfold Storage.open. rewrite Hcreate. cbv beta iota zeta. rewrite Hbytes, Hsz.
    rewrite decide_False by lia.
    unfold Storage.signature_matches. rewrite bool_decide_eq_true_2 by done. simpl.
    rewrite decide_False by (intros Hne; by apply Hne).
    rewrite decide_False by (intros Hne; by apply Hne).
    rewrite decide_False by lia.
    rewrite scan_fold by (intros j Hj; apply Hmark; lia). done.
  - by eapply MappedFileFacts.create_same_disk.
  - constructor; unfold_store.
    + done.
    + rewrite scan_free_elements. simpl. by rewrite app_nil_r.
    + rewrite scan_free_capacity; simpl; lia.
    + rewrite Hbytes. lia.
    + rewrite Hbytes. lia.
    + intros i _. by rewrite Hbytes.
    + intros i. lia.
  - done.
  - unfold maps_file. unfold_store. rewrite Hbytes. done.
Qed.

Lemma resized_records_old n f i :
  (0 < sizeof_record)%Z →
  i < n → i < length (Storage.file_records f) →
  Storage.file_records (resized (storage_size n) f) !!! i = Storage.file_records f !!! i.
Proof.
  intros Hr Hi Hl. unfold Storage.resized. simpl.
  rewrite records_in_storage_size by done. by apply lookup_total_resize.
Qed.

Lemma resized_records_length n f :
  (0 < sizeof_record)%Z →
  length (Storage.file_records (resized (storage_size n) f)) = n.
Proof.
  intros Hr. unfold Storage.resized. simpl.
  rewrite records_in_storage_size by done. apply length_resize.
Qed.

Lemma resized_header n f :
  (sizeof_header ≤ Storage.file_size f)%Z →
  Storage.file_header (resized n f) = Storage.file_header f.
Proof. intros Hs. unfold Storage.resized. simpl. rewrite decide_False; [done | lia]. Qed.

(** [expand] of a valid file grows it, maps it and scans it. *)
Lemma expand_accepts path n w f :
  (0 < sizeof_record)%Z →
  Storage.no_faults w →
  MappedFile.fs w !! path = Some f →
  valid_file f →
  capacity (Storage.file_header f) < n →
  ∃ s w', expand path n w = (of_value s, w')
          ∧ MappedFile.target w' = MappedFile.target w
          ∧ MappedFile.faults w' = MappedFile.faults w
          ∧ MappedFile.fs w' = <[path := resized (storage_size n) f]> (MappedFile.fs w)
          ∧ scanned (Storage.file_records f) (capacity (Storage.file_header f))
                    (n - capacity (Storage.file_header f)) s
          ∧ maps_file path (resized (storage_size n) f) s.
Proof.
  intros Hr Hnf Hfs Hvalid Hn.
  pose proof (valid_file_size f ltac:(lia) Hvalid) as Hbig.
  destruct Hvalid as [Hsig Hitem Hcap Hsize [Hlen Hmark Hkeys]].
  set (cap := capacity (Storage.file_header f)) in *.
  set (f' := resized (storage_size n) f).
  set (w1 := MappedFile.write_file path f' w).
  assert (Storage.file_header f' = Storage.file_header f) as Hhdr.
  { apply resized_header. unfold sizeof_header in *. lia. }
  assert (∀ i, i < cap → Storage.file_records f' !!! i = Storage.file_records f !!! i) as Hold.
  { intros i Hi. apply resized_records_old; [done | lia | lia]. }
  assert (length (Storage.file_records f') = n) as Hlen' by by apply resized_records_length.
  destruct (MappedFileFacts.create_succeeds Storage.file_size path w1 f')
    as (m & w' & Hcreate).
  { intros c. apply Hnf. }
  { apply lookup_insert_eq. }
  { subst f'. simpl. pose proof (storage_size_positive n ltac:(lia)). lia. }
  destruct (MappedFileFacts.create_value _ _ _ _ _ Hcreate)
    as (c & Hc & Hbytes & Hsz & _ & Hback & Haddr).
  assert (c = f') as ->.
  { subst w1. simpl in Hc. rewrite lookup_insert_eq in Hc. congruence. }
  destruct (MappedFileFacts.create_same_disk _ _ _ _ _ Hcreate) as (Ht & Hfa & Hfs').
  eexists _, w'. split_and!.
  - unfold Storage.expand, MappedFile.resize_file. rewrite Hnf, Hfs.
    fold f'. fold w1. rewrite Hcreate. cbv beta iota zeta. rewrite Hbytes, Hhdr.
    fold cap. rewrite scan_fold; [done|].
    intros j Hj. unfold Storage.is_empty, Storage.is_occupied.
    rewrite Hold by lia. apply Hmark. lia.
  - by rewrite Ht.
  - by rewrite Hfa.
  - by rewrite Hfs'.
  - constructor; unfold_store.
    + apply scan_index_ext. intros i Hi%elem_of_seq. apply Hold. lia.
    + rewrite push_range_elements, scan_free_elements. simpl. f_equal.
      apply filter_is_empty_ext. intros i Hi%elem_of_seq. apply Hold. lia.
    + rewrite push_range_capacity.
      * rewrite scan_free_capacity; simpl; lia.
      * rewrite scan_free_elements, scan_free_capacity by (simpl; lia). simpl.
        match goal with
        | |- length (filter ?P ?l) + _ ≤ _ => pose proof (length_filter P l) as Hle
        end.
        rewrite length_seq in Hle. lia.
    + lia.
    + rewrite construct_range_length. lia.
    + intros i Hi. rewrite construct_range_lookup.
      rewrite decide_False by lia. by apply Hold.
    + intros i Hi. rewrite construct_range_lookup. rewrite decide_True; [done | lia].
  - unfold maps_file. unfold_store. rewrite Hhdr. done.
Qed.

(** [open] of a valid file with less capacity than asked for expands it. *)
Lemma open_expands_file path n w f :
  (0 < sizeof_record)%Z →
  Storage.no_faults w →
  MappedFile.fs w !! path = Some f →
  valid_file f →
  capacity (Storage.file_header f) < n →
  ∃ s w', open path n w = (of_value s, w')
          ∧ MappedFile.target w' = MappedFile.target w
          ∧ MappedFile.faults w' = MappedFile.faults w
          ∧ MappedFile.fs w' = <[path := resized (storage_size n) f]> (MappedFile.fs w)
          ∧ scanned (Storage.file_records f) (capacity (Storage.file_header f))
                    (n - capacity (Storage.file_header f)) s
          ∧ maps_file path (resized (storage_size n) f) s.
Proof.
  intros Hr Hnf Hfs Hvalid Hn.
  pose proof (valid_file_size f ltac:(lia) Hvalid) as Hbig.
  destruct (MappedFileFacts.create_succeeds Storage.file_size path w f Hnf Hfs)
    as (m & w1 & Hcreate).
  { unfold sizeof_header in Hbig. lia. }
  destruct (MappedFileFacts.create_value _ _ _ _ _ Hcreate)
    as (c & Hc & Hbytes & Hsz & _ & Hback & Haddr).
  assert (c = f) as -> by congruence.
  destruct (MappedFileFacts.create_same_disk _ _ _ _ _ Hcreate) as (Ht & Hfa & Hfs').
  destruct (MappedFileFacts.dispose_target m w1) as [Ht2 Hfa2].
  assert (MappedFile.fs (MappedFile.dispose m w1) = MappedFile.fs w) as Hfs2.
  { rewrite MappedFileFacts.dispose_unchanged; [done|]. by rewrite Hback, Hbytes, Hfs'. }
  destruct (expand_accepts path n (MappedFile.dispose m w1) f Hr)
    as (s & w' & Hex & Ht3 & Hfa3 & Hfs3 & Hsc & Hmf); try done.
  { intros c. rewrite Hfa2, Hfa. apply Hnf. }
  { by rewrite Hfs2. }
  exists s, w'. split_and!; try done; try congruence.
  destruct Hvalid as [Hsig Hitem Hcap Hsize _].
  unfold Storage.open. rewrite Hcreate. cbv beta iota zeta. rewrite Hbytes, Hsz.
  rewrite decide_False by lia.
  unfold Storage.signature_matches. rewrite bool_decide_eq_true_2 by done. simpl.
  rewrite decide_False by (intros Hne; by apply Hne).
  rewrite decide_False by (intros Hne; by apply Hne).
  rewrite decide_True by lia. done.
Qed.

(** A scanned store is attached to the file it maps. *)
Lemma scanned_attached records n extra s f path :
  valid_records records n → scanned records n extra s → maps_file path f s →
  signature (Storage.file_header f) = (0xDA, 0x1A, 0xF1, 0x1E)%Z →
  item_size (Storage.file_header f) = sizeof_Value →
  0 < n + extra →
  Storage.file_size f = storage_size (n + extra) →
  attached path s.
Proof.
  intros Hv Hsc (Hb & Ha & Hfs & Hsig & Hit) Hmagic Hitem Hpos Hsize.
  destruct (scanned_sound _ _ _ _ Hv Hsc) as [Hcons _].
  destruct Hsc as [_ _ _ Hh _ _ _].
  constructor; try done; try congruence; try (by rewrite Hh); try (by rewrite Hh, Hfs).
Qed.

(** [create] makes the file, maps it and returns an empty store. *)
Lemma create_accepts path n w :
  (0 < sizeof_record)%Z →
  0 < n →
  Storage.no_faults w →
  ∃ s w', create path n w = (of_value s, w')
          ∧ MappedFile.target w' = MappedFile.target w
          ∧ MappedFile.faults w' = MappedFile.faults w
          ∧ MappedFile.fs w'
            = <[path := resized (storage_size n) Storage.no_bytes]> (MappedFile.fs w)
          ∧ Storage.occupied_indices_ s = ∅
          ∧ sound s
          ∧ attached path s.
Proof.
  intros Hr Hn Hnf.
  set (f' := resized (storage_size n) Storage.no_bytes).
  set (w0 := MappedFile.write_file path Storage.no_bytes w).
  set (w1 := MappedFile.write_file path f' w0).
  assert (length (Storage.file_records f') = n) as Hlen' by by apply resized_records_length.
  destruct (MappedFileFacts.create_succeeds Storage.file_size path w1 f')
    as (m & w' & Hcreate).
  { intros c. apply Hnf. }
  { apply lookup_insert_eq. }
  { subst f'. simpl. pose proof (storage_size_positive n ltac:(lia)). lia. }
  destruct (MappedFileFacts.create_value _ _ _ _ _ Hcreate)
    as (c & Hc & Hbytes & Hsz & _ & Hback & Haddr).
  assert (c = f') as ->.
  { subst w1. simpl in Hc. rewrite lookup_insert_eq in Hc. congruence. }
  destruct (MappedFileFacts.create_same_disk _ _ _ _ _ Hcreate) as (Ht & Hfa & Hfs').
  set (s0 := {| Storage.occupied_indices_ := ∅;
               Storage.free_indices_ :=
                 Storage.push_range 0 n (Storage.reserve n Storage.vector_new);
               Storage.mapped_file_ :=
                 Storage.with_bytes
                   (Storage.file_with_records
                      (Storage.construct_range Value0 0 n
                         (Storage.file_records (MappedFile.bytes m)))
                      (Storage.file_with_header
                         {| signature := (0xDA, 0x1A, 0xF1, 0x1E)%Z;
                            item_size := sizeof_Value;
                            capacity := n;
                            size := size (Storage.file_header (MappedFile.bytes m)) |}
                         (MappedFile.bytes m))) m |} : storage).
  exists s0, w'.
  assert (scanned [] 0 n s0) as Hsc.
  { clear Hlen'. constructor; subst s0 w1 w0 f'.
    - done.
    - simpl. by rewrite push_range_elements.
    - unfold Storage.capacity. simpl. rewrite push_range_capacity; simpl; lia.
    - done.
    - unfold Storage.records_. simpl.
      rewrite construct_range_length, Hbytes, resized_records_length by done. lia.
    - intros i. lia.
    - intros i Hi. unfold Storage.records_. simpl.
      rewrite construct_range_lookup, decide_True; [done|].
      rewrite Hbytes, resized_records_length by done. lia. }
  assert (valid_records [] 0) as Hv.
  { constructor; simpl; intros; lia. }
  split_and!.
  - unfold Storage.create, MappedFile.fopen_w, MappedFile.resize_file.
    rewrite decide_False by lia. rewrite !Hnf. fold w0. simpl.
    rewrite Hnf, lookup_insert_eq. fold f'. fold w1. rewrite Hcreate. done.
  - by rewrite Ht.
  - by rewrite Hfa.
  - rewrite Hfs'. subst w1 w0. simpl. apply insert_insert_eq.
  - done.
  - by eapply scanned_sound.
  - eapply (scanned_attached [] 0 n _
              {| Storage.file_size := storage_size n;
                 Storage.file_header :=
                   {| signature := (0xDA, 0x1A, 0xF1, 0x1E)%Z; item_size := sizeof_Value;
                      capacity := n; size := 0 |};
                 Storage.file_records := [] |}); try done.
    unfold maps_file. subst s0. unfold_store. rewrite Hbytes. done.
Qed.

(** The bytes an attached store maps are a valid file. *)
Lemma attached_valid_file path s :
  attached path s → valid_file (MappedFile.bytes (Storage.mapped_file_ s)).
Proof.
  intros [[Hs Hc Hm Hf Hn Hl Hr] Ha Hb Hsig Hit Hcap Hsize].
  constructor; try done.
  constructor; try done.
  intros i j Hi Hj Hoi Hoj Hk.
  pose proof (Hc i Hi Hoi) as H1. pose proof (Hc j Hj Hoj) as H2.
  unfold Storage.records_ in *. rewrite Hk in H1. congruence.
Qed.

(** The operations keep a store attached. *)
Lemma attached_same_mapping path s s' :
  attached path s → consistent s' → same_mapping s s' → attached path s'.
Proof.
  intros [_ Ha Hb Hsig Hit Hcap Hsize] Hcons (Hh & Hfs & Had & Hba & _).
  constructor; try done; rewrite ?Hh; congruence.
Qed.

Lemma apply_update_attached path s u :
  attached path s → attached path (Storage.apply_update key_of s u).
Proof.
  intros Hatt. pose proof (Storage.attached_consistent _ _ _ _ _ _ Hatt) as Hcons.
  destruct u as [v | k]; simpl.
  - eapply attached_same_mapping;
      [done | by apply insert_consistent | apply insert_same_mapping].
  - eapply attached_same_mapping;
      [done | by apply erase_consistent | apply erase_same_mapping].
Qed.

Lemma apply_updates_attached path us s :
  attached path s → attached path (Storage.apply_updates key_of s us).
Proof.
  unfold Storage.apply_updates. revert s.
  induction us as [|u us IH]; intros s Hatt; simpl; [done|].
  apply IH. by apply apply_update_attached.
Qed.

(** Destroying an attached store on a platform that maps the file shared
    and opening the file again gives back the same index over the same
    records. *)
Lemma reopen path n s w :
  (0 ≤ sizeof_record)%Z →
  attached path s →
  MappedFile.target w = Win32 →
  Storage.no_faults w →
  n ≤ capacity (Storage.header_ s) →
  ∃ s' w', open path n (Storage.destroy s w) = (of_value s', w')
           ∧ Storage.occupied_indices_ s' = Storage.occupied_indices_ s
           ∧ Storage.records_ s' = Storage.records_ s
           ∧ attached path s'.
Proof.
  intros Hr Hatt Ht Hnf Hn.
  pose proof (attached_valid_file path s Hatt) as Hvalid.
  destruct Hatt as [Hcons Ha Hb Hsig Hit Hcap Hsize].
  set (f := MappedFile.bytes (Storage.mapped_file_ s)) in *.
  destruct (MappedFileFacts.dispose_target (Storage.mapped_file_ s) w) as [Ht2 Hfa2].
  destruct (open_accepts path n (Storage.destroy s w) f Hr)
    as (s' & w' & Hopen & _ & Hsc & Hbytes & Hmf); try done.
  { intros c. unfold Storage.destroy. rewrite Hfa2. apply Hnf. }
  { unfold Storage.destroy. rewrite MappedFileFacts.dispose_shared by done.
    rewrite Hb. apply lookup_insert_eq. }
  exists s', w'. split; [done|].
  assert (Storage.occupied_indices_ s' = Storage.occupied_indices_ s) as Hocc.
  { apply map_eq. intros k. apply option_eq. intros j.
    destruct Hvalid as [_ _ _ _ [Hlen Hmark Hkeys]].
    rewrite (Storage.scanned_index _ _ _ _ _ _ Hsc), scan_index_lookup by done.
    destruct Hcons as [Hs Hc _ _ _ _ _]. split.
    - intros (Hj & Ho & <-). by apply Hc.
    - apply Hs. }
  split_and!; [done | unfold Storage.records_; by rewrite Hbytes |].
  destruct Hvalid as [Hvs Hvi Hvc Hvz Hvr].
  eapply (scanned_attached _ _ 0 s' f); try done; by rewrite Nat.add_0_r.
Qed.

(** *** What [open] and [create] do to the disk *)

(** A mapping made by [mapped_file::create] and not written to gives the
    file back as it was. *)
Lemma dispose_fresh path w (m : mapped_file) w1 :
  MappedFile.create Storage.file_size path w = (of_value m, w1) →
  MappedFile.fs (MappedFile.dispose m w1) = MappedFile.fs w.
Proof.
  intros Hcreate.
  destruct (MappedFileFacts.create_value _ _ _ _ _ Hcreate)
    as (c & Hc & Hbytes & _ & _ & Hback & _).
  destruct (MappedFileFacts.create_same_disk _ _ _ _ _ Hcreate) as (_ & _ & Hfs).
  rewrite MappedFileFacts.dispose_unchanged; [done|]. by rewrite Hback, Hbytes, Hfs.
Qed.

(** [expand] fails with a code of the system or with [file_is_corrupted]. *)
Lemma expand_error path n w e w' :
  expand path n w = (of_error (make_error_code e), w') → e = file_is_corrupted.
Proof.
  unfold Storage.expand, MappedFile.resize_file. intros Hex.
  repeat case_match; simplify_eq/=; try done.
  match goal with
  | Hc : MappedFile.create _ _ _ = (of_error _, _) |- _ =>
      apply MappedFileFacts.create_error in Hc as [code Hc]; done
  end.
Qed.

(** The four rejections of [open], in the order the checks are made, and
    what each leaves of the file system. *)
Lemma open_rejections path n w f :
  Storage.no_faults w →
  MappedFile.fs w !! path = Some f →
  Storage.file_size f ≠ 0%Z →
  let too_small := (Storage.file_size f < sizeof_header + sizeof_record)%Z in
  let bad_signature := signature (Storage.file_header f) ≠ (0xDA, 0x1A, 0xF1, 0x1E)%Z in
  let bad_size :=
    Storage.file_size f ≠ storage_size (capacity (Storage.file_header f)) in
  let bad_item_size := item_size (Storage.file_header f) ≠ sizeof_Value in
  ((open path n w).1 = of_error (make_error_code file_size_is_too_small) ↔ too_small)
  ∧ ((open path n w).1 = of_error (make_error_code invalid_file_signature)
     ↔ ¬ too_small ∧ bad_signature)
  ∧ ((open path n w).1 = of_error (make_error_code mismatch_file_size)
     ↔ ¬ too_small ∧ ¬ bad_signature ∧ bad_size)
  ∧ ((open path n w).1 = of_error (make_error_code mismatch_item_size)
     ↔ ¬ too_small ∧ ¬ bad_signature ∧ ¬ bad_size ∧ bad_item_size)
  ∧ (too_small ∨ bad_signature ∨ bad_size ∨ bad_item_size →
     MappedFile.fs (open path n w).2 = MappedFile.fs w).
Proof.
  intros Hnf Hfs Hnz.
  destruct (MappedFileFacts.create_succeeds Storage.file_size path w f Hnf Hfs Hnz)
    as (m & w1 & Hcreate).
  destruct (MappedFileFacts.create_value _ _ _ _ _ Hcreate)
    as (c & Hc & Hbytes & Hsz & _ & Hback & Haddr).
  assert (c = f) as -> by congruence.
  pose proof (dispose_fresh _ _ _ _ Hcreate) as Hdisp.
  simpl. unfold Storage.open. rewrite Hcreate. cbv beta iota zeta. rewrite Hbytes, Hsz.
  unfold Storage.signature_matches.
  destruct (decide (Storage.file_size f < sizeof_header + sizeof_record)%Z) as [H1 | H1].
  { simpl. intuition (first [done | congruence]). }
  destruct (decide (signature (Storage.file_header f) = (0xDA, 0x1A, 0xF1, 0x1E)%Z))
    as [H2 | H2].
  2: { rewrite bool_decide_eq_false_2 by done. simpl.
       intuition (first [done | congruence]). }
  rewrite bool_decide_eq_true_2 by done. simpl.
  destruct (decide (Storage.file_size f ≠ storage_size (capacity (Storage.file_header f))))
    as [H3 | H3].
  { simpl. intuition (first [done | congruence]). }
  apply dec_stable in H3.
  destruct (decide (sizeof_Value ≠ item_size (Storage.file_header f))) as [H4 | H4].
  { simpl. intuition (first [done | congruence]). }
  apply dec_stable in H4.
  assert (∀ e, e ≠ file_is_corrupted →
            (if decide (capacity (Storage.file_header f) < n)
             then expand path n (MappedFile.dispose m w1)
             else match scan (Storage.file_records f) 0 (capacity (Storage.file_header f)) ∅
                          (Storage.reserve (capacity (Storage.file_header f))
                             Storage.vector_new) with
                  | Some (occupied_indices, free_indices) =>
                      (of_value {| Storage.occupied_indices_ := occupied_indices;
                                   Storage.free_indices_ := free_indices;
                                   Storage.mapped_file_ := m |}, w1)
                  | None => (of_error (make_error_code file_is_corrupted),
                             MappedFile.dispose m w1)
                  end).1 ≠ of_error (make_error_code e)) as Hrest.
  { intros e He. case_decide.
    - destruct (expand path n (MappedFile.dispose m w1)) as [r w'] eqn:Hex. simpl.
      intros ->. apply expand_error in Hex. done.
    - repeat case_match; simpl; congruence. }
  split_and!.
  - split; [intros Heq; by apply Hrest in Heq | done].
  - split; [intros Heq; by apply Hrest in Heq | intros [_ ?]; done].
  - split; [intros Heq; by apply Hrest in Heq | intros (_ & _ & ?); done].
  - split; [intros Heq; by apply Hrest in Heq | intros (_ & _ & _ & ?); congruence].
  - intros [? | [? | [? | ?]]]; first [done | congruence].
Qed.

(** Claim C7, as amended: [open] of a file of length zero fails, with the
    code the system gave when the mapping was refused and not with
    [file_size_is_too_small]; no store is returned and the file system is
    left as it was. *)
Theorem open_empty_file path n w f :
  MappedFile.fs w !! path = Some f →
  Storage.file_size f = 0%Z →
  ∃ code, (open path n w).1 = of_error (system_error code)
          ∧ MappedFile.fs (open path n w).2 = MappedFile.fs w.
Proof.
  intros Hfs Hz.
  destruct (MappedFileFacts.create_empty_file Storage.file_size path w f Hfs Hz)
    as (code & w' & Hcreate).
  destruct (MappedFileFacts.create_same_disk _ _ _ _ _ Hcreate) as (_ & _ & Hfs').
  exists code. unfold Storage.open. rewrite Hcreate. done.
Qed.

(** Claim C10: [create] with an initial capacity of zero fails with
    [file_size_is_too_small] and leaves the machine as it was: no file is
    made, resized or written, no handle is taken. *)
Theorem create_zero_capacity path w :
  create path 0 w = (of_error (make_error_code file_size_is_too_small), w).
Proof. done. Qed.

(** *** The backing file over a session *)

Lemma expand_disk path n w f r w' :
  MappedFile.fs w !! path = Some f →
  (Storage.file_size f ≤ storage_size n)%Z →
  expand path n w = (r, w') →
  ∃ f', MappedFile.fs w' !! path = Some f'
        ∧ (Storage.file_size f ≤ Storage.file_size f')%Z
        ∧ serves path f' (value_of r).
Proof.
  intros Hfs Hle. unfold Storage.expand, MappedFile.resize_file. rewrite Hfs.
  destruct (MappedFile.faults w sys_resize_file) as [code|].
  { intros [= <- <-]. exists f. split_and!; [done | lia | by intros s]. }
  set (f1 := resized (storage_size n) f).
  set (w1 := MappedFile.write_file path f1 w).
  assert (MappedFile.fs w1 !! path = Some f1) as Hfs1 by apply lookup_insert_eq.
  destruct (MappedFile.create Storage.file_size path w1) as [[m|ec] w2] eqn:Hcreate.
  2: { intros [= <- <-].
       destruct (MappedFileFacts.create_same_disk _ _ _ _ _ Hcreate) as (_ & _ & Hfs2).
       exists f1. rewrite Hfs2. split_and!; [done | done | by intros s]. }
  destruct (MappedFileFacts.create_value _ _ _ _ _ Hcreate)
    as (c & Hc & Hbytes & _ & _ & Hback & _).
  assert (c = f1) as -> by congruence.
  destruct (MappedFileFacts.create_same_disk _ _ _ _ _ Hcreate) as (_ & _ & Hfs2).
  destruct (scan _ _ _ _ _) as [[occ free]|].
  - intros [= <- <-]. exists f1. rewrite Hfs2. split_and!; [done | done |].
    intros s [= <-]. simpl. by rewrite Hbytes.
  - intros [= <- <-]. exists f1. rewrite (dispose_fresh _ _ _ _ Hcreate).
    split_and!; [done | done | by intros s].
Qed.

Lemma open_disk path n w f r w' :
  (0 ≤ sizeof_record)%Z →
  MappedFile.fs w !! path = Some f →
  open path n w = (r, w') →
  ∃ f', MappedFile.fs w' !! path = Some f'
        ∧ (Storage.file_size f ≤ Storage.file_size f')%Z
        ∧ serves path f' (value_of r).
Proof.
  intros Hr Hfs. unfold Storage.open.
  destruct (MappedFile.create Storage.file_size path w) as [[m|ec] w1] eqn:Hcreate.
  2: { intros [= <- <-].
       destruct (MappedFileFacts.create_same_disk _ _ _ _ _ Hcreate) as (_ & _ & Hfs1).
       exists f. rewrite Hfs1. split_and!; [done | lia | by intros s]. }
  destruct (MappedFileFacts.create_value _ _ _ _ _ Hcreate)
    as (c & Hc & Hbytes & Hsz & _ & Hback & _).
  assert (c = f) as -> by congruence.
  pose proof (dispose_fresh _ _ _ _ Hcreate) as Hdisp.
  destruct (MappedFileFacts.create_same_disk _ _ _ _ _ Hcreate) as (_ & _ & Hfs1).
  assert (∀ e, ∃ f', MappedFile.fs (MappedFile.dispose m w1) !! path = Some f'
             ∧ (Storage.file_size f ≤ Storage.file_size f')%Z
             ∧ serves path f' (value_of (of_error e))) as Hrej.
  { intros e. exists f. rewrite Hdisp. split_and!; [done | lia | by intros s]. }
  cbv beta iota zeta.
  repeat (case_decide || case_match); try (intros [= <- <-]; by apply Hrej).
  - intros Hex. eapply expand_disk; [by rewrite Hdisp | | done].
    rewrite <- Hsz.
    match goal with Hn : MappedFile.size_ m = _ |- _ => rewrite Hn end.
    apply storage_size_mono; [done | lia].
  - intros [= <- <-]. exists f. rewrite Hfs1. split_and!; [done | lia |].
    intros s [= <-]. simpl. by rewrite Hbytes.
Qed.

Lemma create_disk path n w r w' :
  is_Some (MappedFile.fs w !! path) →
  create path n w = (r, w') →
  ∃ f', MappedFile.fs w' !! path = Some f' ∧ serves path f' (value_of r).
Proof.
  intros [f Hfs]. unfold Storage.create, MappedFile.fopen_w, MappedFile.resize_file.
  case_decide.
  { intros [= <- <-]. exists f. split; [done | by intros s]. }
  destruct (MappedFile.faults w sys_fopen) as [code|].
  { intros [= <- <-]. exists f. split; [done | by intros s]. }
  simpl. rewrite lookup_insert_eq.
  destruct (MappedFile.faults w sys_resize_file) as [code|].
  { intros [= <- <-]. eexists. split; [apply lookup_insert_eq | by intros s]. }
  set (f1 := resized (storage_size n) Storage.no_bytes).
  set (w1 := MappedFile.write_file path f1 _).
  assert (MappedFile.fs w1 !! path = Some f1) as Hfs1 by apply lookup_insert_eq.
  destruct (MappedFile.create Storage.file_size path w1) as [[m|ec] w2] eqn:Hcreate.
  2: { intros [= <- <-].
       destruct (MappedFileFacts.create_same_disk _ _ _ _ _ Hcreate) as (_ & _ & Hfs2).
       exists f1. rewrite Hfs2. split; [done | by intros s]. }
  destruct (MappedFileFacts.create_value _ _ _ _ _ Hcreate)
    as (c & Hc & Hbytes & _ & _ & Hback & _).
  assert (c = f1) as -> by congruence.
  destruct (MappedFileFacts.create_same_disk _ _ _ _ _ Hcreate) as (_ & _ & Hfs2).
  intros [= <- <-]. exists f1. rewrite Hfs2. split; [done|].
  intros s [= <-]. simpl. by rewrite Hbytes.
Qed.

(** Destroying the live store leaves the file there and as long. *)
Lemma drop_instance_disk path l ss :
  session_ok path l ss →
  ∃ f, MappedFile.fs (Storage.drop_instance ss) !! path = Some f
       ∧ (l ≤ Storage.file_size f)%Z.
Proof.
  intros (f & Hfs & Hl & Hserves). unfold Storage.drop_instance.
  destruct (Storage.instance ss) as [s|]; [|by exists f].
  destruct (Hserves s eq_refl) as [Hback Hsize]. unfold Storage.destroy.
  destruct (MappedFileFacts.dispose_fs (Storage.mapped_file_ s) (Storage.machine ss))
    as [-> | ->].
  - by exists f.
  - rewrite Hback. eexists. split; [apply lookup_insert_eq | lia].
Qed.

Lemma on_instance_ok path l ss (g : storage → storage) :
  (∀ s, same_mapping s (g s)) →
  session_ok path l ss → session_ok path l (Storage.on_instance g ss).
Proof.
  intros Hg (f & Hfs & Hl & Hserves). exists f. split_and!; [done | done |].
  intros s'. simpl. destruct (Storage.instance ss) as [s|]; [|done].
  intros [= <-]. destruct (Hserves s eq_refl) as [Hback Hsize].
  destruct (Hg s) as (_ & Hfsz & _ & Hb & _). split; congruence.
Qed.

#[local] Abbreviation step := (Storage.step key_of sizeof_Value sizeof_record Value0).
#[local] Abbreviation run := (Storage.run key_of sizeof_Value sizeof_record Value0).

(** A call other than [create] leaves the file there and no shorter. *)
Lemma step_keeps_length path l ss c :
  (0 ≤ sizeof_record)%Z →
  session_ok path l ss →
  Storage.is_create c = false →
  session_ok path l (step path ss c).
Proof.
  intros Hr Hok Hc. destruct c as [n | n | v | v | k | |]; simpl; try done.
  - destruct (drop_instance_disk path l ss Hok) as (f0 & Hfs0 & Hl0).
    destruct (open path n (Storage.drop_instance ss)) as [r w'] eqn:Hopen.
    destruct (open_disk _ _ _ _ _ _ Hr Hfs0 Hopen) as (f' & Hfs' & Hl' & Hs').
    exists f'. split_and!; [done | lia |]. by destruct r.
  - apply on_instance_ok; [|done]. intros s. apply insert_same_mapping.
  - apply on_instance_ok; [|done]. intros s. apply insert_or_assign_same_mapping.
  - apply on_instance_ok; [|done]. intros s. apply erase_same_mapping.
  - apply on_instance_ok; [|done]. intros s. apply clear_same_mapping.
  - destruct (drop_instance_disk path l ss Hok) as (f0 & Hfs0 & Hl0).
    exists f0. split_and!; [done | done | by intros s].
Qed.

(** Any call leaves the file there. *)
Lemma step_keeps_file path l ss c :
  (0 ≤ sizeof_record)%Z →
  session_ok path l ss →
  ∃ l', session_ok path l' (step path ss c).
Proof.
  intros Hr Hok. destruct (Storage.is_create c) eqn:Hc.
  - destruct c as [n | | | | | |]; try done. simpl.
    destruct (drop_instance_disk path l ss Hok) as (f0 & Hfs0 & Hl0).
    destruct (create path n (Storage.drop_instance ss)) as [r w'] eqn:Hcreate.
    destruct (create_disk _ _ _ _ _ ltac:(by eexists) Hcreate) as (f' & Hfs' & Hs').
    exists (Storage.file_size f'), f'. split_and!; [done | lia |]. by destruct r.
  - exists l. by apply step_keeps_length.
Qed.

Lemma run_keeps_file path cs l ss :
  (0 ≤ sizeof_record)%Z →
  session_ok path l ss →
  ∃ l', session_ok path l' (run path ss cs).
Proof.
  intros Hr. unfold Storage.run. revert l ss.
  induction cs as [|c cs IH]; intros l ss Hok; simpl; [by exists l|].
  destruct (step_keeps_file path l ss c Hr Hok) as [l' Hok']. by eapply IH.
Qed.

Lemma run_keeps_length path cs l ss :
  (0 ≤ sizeof_record)%Z →
  session_ok path l ss →
  forallb (λ c, negb (Storage.is_create c)) cs = true →
  session_ok path l (run path ss cs).
Proof.
  intros Hr. unfold Storage.run. revert ss.
  induction cs as [|c cs IH]; intros ss Hok Hcs; simpl; [done|].
  simpl in Hcs. apply andb_true_iff in Hcs as [Hc Hcs].
  apply IH; [|done]. apply step_keeps_length; [done | done |].
  by destruct (Storage.is_create c).
Qed.

(** *** Round trip through a shared mapping *)

Lemma contents_eq s s' :
  Storage.occupied_indices_ s' = Storage.occupied_indices_ s →
  Storage.records_ s' = Storage.records_ s →
  contents s' = contents s ∧ Storage.iterate Value0 s' = Storage.iterate Value0 s.
Proof.
  unfold Storage.contents, Storage.iterate. by intros -> ->.
Qed.

(** [find] reads the contents. *)
Lemma find_contents key s : find key s = contents s !! key.
Proof.
  unfold Storage.find, Storage.contents. rewrite lookup_fmap.
  by destruct (Storage.occupied_indices_ s !! key).
Qed.


(** *** Expansion at [open] *)


(** *** The backing file *)


(** *** The store as a finite map of bounded size *)

Lemma free_slot_in_file s index :
  consistent s → Storage.back (Storage.free_indices_ s) = Some index →
  index < length (Storage.records_ s) ∧ is_empty (Storage.records_ s) index.
Proof.
  intros Hcons Hb. apply back_Some in Hb.
  destruct (Storage.free_sound _ _ _ Hcons index) as [Hi He].
  { rewrite Hb. apply elem_of_app. right. by left. }
  pose proof (Storage.records_mapped _ _ _ Hcons). split; [lia | done].
Qed.

Lemma insert_new_contents value s index :
  consistent s → Storage.back (Storage.free_indices_ s) = Some index →
  Storage.occupied_indices_ s !! key_of value = None →
  contents (insert value s).2 = <[key_of value := value]> (contents s).
Proof.
  intros Hcons Hb Hk.
  destruct (free_slot_in_file s index Hcons Hb) as [Hi He].
  unfold Storage.insert, Storage.contents. rewrite Hb. simpl. rewrite Hk.
  unfold_store. rewrite fmap_insert. read_records.
  rewrite decide_True by (split; [done | lia]).
  f_equal. apply map_fmap_ext. intros k i Hki. read_records.
  destruct (Storage.index_sound _ _ _ Hcons k i Hki) as (_ & Ho & _).
  rewrite decide_False; [done|]. intros [-> _]. by apply (empty_not_occupied _ _ He).
Qed.

(** Property X15. [insert] on a consistent store: it succeeds exactly when a slot is
    free and the key is not indexed; the store then holds the value under
    its key and everything it held before, and one entry more; when it
    fails the store holds what it held. *)
Theorem insert_spec value s :
  consistent s →
  ((insert value s).1 = true
   ↔ Storage.elements (Storage.free_indices_ s) ≠ []
     ∧ Storage.occupied_indices_ s !! key_of value = None)
  ∧ ((insert value s).1 = true →
     contents (insert value s).2 = <[key_of value := value]> (contents s)
     ∧ find (key_of value) (insert value s).2 = Some value
     ∧ (∀ key, key ≠ key_of value → find key (insert value s).2 = find key s)
     ∧ Storage.size (insert value s).2 = S (Storage.size s))
  ∧ ((insert value s).1 = false →
     contents (insert value s).2 = contents s
     ∧ Storage.size (insert value s).2 = Storage.size s).
Proof.
  intros Hcons.
  destruct (Storage.back (Storage.free_indices_ s)) as [index|] eqn:Hb.
  - pose proof (back_Some _ _ Hb) as Hel.
    destruct (Storage.occupied_indices_ s !! key_of value) as [i|] eqn:Hk.
    + rewrite (insert_duplicate value s index Hb) by (by rewrite Hk). simpl.
      split_and!; [split; [done | by intros [_ ?]] | done | done].
    + pose proof (insert_new_contents value s index Hcons Hb Hk) as Hc.
      assert ((insert value s).1 = true) as Hr.
      { unfold Storage.insert. rewrite Hb. simpl. by rewrite Hk. }
      split_and!.
      * split; [intros _ | done]. split; [|done].
        rewrite Hel. intros Hnil. symmetry in Hnil. by apply app_cons_not_nil in Hnil.
      * intros _. split_and!.
        -- done.
        -- by rewrite find_contents, Hc, lookup_insert_eq.
        -- intros key Hne. by rewrite !find_contents, Hc, lookup_insert_ne.
        -- unfold Storage.insert, Storage.size. rewrite Hb. simpl. rewrite Hk. simpl.
           by rewrite map_size_insert_None.
      * by rewrite Hr.
  - pose proof (back_None _ Hb) as Hel.
    rewrite (insert_full value s Hel). simpl.
    split_and!; [split; [done | by intros [? _]] | done | done].
Qed.


(** Property X17. [erase]: it succeeds exactly for an indexed key; afterwards the key is
    not found and every other key is found as before; an absent key
    leaves the store as it is; for an indexed key the store has one entry
    less and the slot of the key is the last of the free list. *)
Theorem erase_spec key s :
  ((erase key s).1 = true ↔ is_Some (Storage.occupied_indices_ s !! key))
  ∧ contents (erase key s).2 = delete key (contents s)
  ∧ find key (erase key s).2 = None
  ∧ (∀ k, k ≠ key → find k (erase key s).2 = find k s)
  ∧ ((erase key s).1 = false → (erase key s).2 = s)
  ∧ ((erase key s).1 = true →
     S (Storage.size (erase key s).2) = Storage.size s
     ∧ Storage.back (Storage.free_indices_ (erase key s).2)
       = Storage.occupied_indices_ s !! key).
Proof.
  assert (contents (erase key s).2 = delete key (contents s)) as Hc.
  { unfold Storage.erase, Storage.contents.
    destruct (Storage.occupied_indices_ s !! key) as [index|] eqn:Hk.
    - unfold_store. rewrite fmap_delete. f_equal.
      apply map_fmap_ext. intros k i _. by read_records.
    - simpl. symmetry. apply delete_id. by rewrite lookup_fmap, Hk. }
  split_and!.
  - unfold Storage.erase. destruct (Storage.occupied_indices_ s !! key); simpl.
    + split; eauto.
    + split; [done | by intros [? [=]]].
  - done.
  - by rewrite find_contents, Hc, lookup_delete_eq.
  - intros k Hne. by rewrite !find_contents, Hc, lookup_delete_ne.
  - unfold Storage.erase. by destruct (Storage.occupied_indices_ s !! key).
  - unfold Storage.erase, Storage.size, Storage.back.
    destruct (Storage.occupied_indices_ s !! key) as [index|] eqn:Hk; [|done].
    intros _. unfold_store. split.
    + rewrite map_size_delete, Hk.
      assert (base.size (Storage.occupied_indices_ s) ≠ 0); [|lia].
      intros Hz. apply map_size_empty_inv in Hz. rewrite Hz in Hk. done.
    + by rewrite last_snoc.
Qed.

(** Property X18. The slot freed last is taken first: after [erase] of an indexed key,
    [insert] of a value whose key is that key or is not indexed succeeds
    and puts the value into the slot the erased key had, and the free list
    holds again what it held before the two calls. *)
Theorem erase_then_insert_reuses_slot key value s index :
  Storage.occupied_indices_ s !! key = Some index →
  key_of value = key ∨ Storage.occupied_indices_ s !! key_of value = None →
  (insert value (erase key s).2).1 = true
  ∧ Storage.occupied_indices_ (insert value (erase key s).2).2 !! key_of value = Some index
  ∧ Storage.elements (Storage.free_indices_ (insert value (erase key s).2).2)
    = Storage.elements (Storage.free_indices_ s).
Proof.
  intros Hk Hv.
  unfold Storage.erase. rewrite Hk.
  unfold Storage.insert, Storage.back, Storage.pop_back. unfold_store.
  rewrite last_snoc. simpl.
  assert (delete key (Storage.occupied_indices_ s) !! key_of value = None) as ->.
  { destruct Hv as [-> | Hv]; [apply lookup_delete_eq|].
    rewrite lookup_delete_None. by right. }
  simpl. rewrite lookup_insert_eq, removelast_last. done.
Qed.

(** Property X19. In a store that satisfies the invariant the entries and the free slots
    together are the capacity: [size()] and the length of the free list add
    up to [capacity()], [fully_occupied()] says that [size()] has reached
    [capacity()], and [empty()] that every slot is free. *)
Theorem size_and_free_slots s :
  sound s →
  Storage.size s + length (Storage.elements (Storage.free_indices_ s)) = Storage.capacity s
  ∧ Storage.size s ≤ Storage.capacity s
  ∧ (Storage.fully_occupied s = true ↔ Storage.size s = Storage.capacity s)
  ∧ (Storage.empty s = true
     ↔ length (Storage.elements (Storage.free_indices_ s)) = Storage.capacity s).
Proof.
  intros Hs. destruct (sound_counted s Hs) as [Hsize Hsum].
  pose proof (Storage.capacity_reserved _ _ _ (proj1 Hs)) as Hcap.
  assert (Storage.size s + length (Storage.elements (Storage.free_indices_ s))
          = Storage.capacity s) as Hadd by lia.
  split_and!; [done | lia | |].
  - unfold Storage.fully_occupied.
    destruct (Storage.elements (Storage.free_indices_ s)); simpl in *;
      split; first [done | lia].
  - unfold Storage.empty. rewrite bool_decide_eq_true. fold (Storage.size s). lia.
Qed.

(** Property X20. The invariant is kept by [insert_or_assign], [erase] and [clear]
    always, and by [insert] of a key that is not indexed or into a store
    without a free slot. *)
Theorem operations_keep_invariant s :
  sound s →
  (∀ value,
     Storage.occupied_indices_ s !! key_of value = None
     ∨ Storage.elements (Storage.free_indices_ s) = [] →
     sound (insert value s).2 ∧ counted (insert value s).2)
  ∧ (∀ value, sound (insert_or_assign value s).2 ∧ counted (insert_or_assign value s).2)
  ∧ (∀ key, sound (erase key s).2 ∧ counted (erase key s).2)
  ∧ sound (clear s) ∧ counted (clear s).
Proof.
  intros Hs. split_and!.
  - intros value Hv. pose proof (insert_sound value s Hs Hv). split; [done|].
    by apply sound_counted.
  - intros value. pose proof (insert_or_assign_sound value s Hs). split; [done|].
    by apply sound_counted.
  - intros key. pose proof (erase_sound key s Hs). split; [done|]. by apply sound_counted.
  - by apply clear_sound.
  - by apply sound_counted, clear_sound.
Qed.

(** Property X21. [clear] on a store that satisfies the invariant: no key is found any
    more, [size()] is 0 and [empty()] true, [capacity()] is what it was
    and every slot is in the free list, so that as many inserts as the
    capacity find a slot again. *)
Theorem clear_frees_every_slot s :
  sound s →
  Storage.size (clear s) = 0
  ∧ Storage.empty (clear s) = true
  ∧ (∀ key, find key (clear s) = None)
  ∧ Storage.capacity (clear s) = Storage.capacity s
  ∧ length (Storage.elements (Storage.free_indices_ (clear s))) = Storage.capacity s
  ∧ (∀ i, i < Storage.capacity s → is_empty (Storage.records_ (clear s)) i).
Proof.
  intros Hs. pose proof (clear_sound s Hs) as Hs'.
  destruct (sound_counted _ Hs') as [Hsize Hsum].
  pose proof (Storage.capacity_reserved _ _ _ (proj1 Hs)) as Hcap.
  pose proof (Storage.capacity_reserved _ _ _ (proj1 Hs')) as Hcap'.
  destruct (clear_same_mapping s) as (Hh & _).
  assert (Storage.size (clear s) = 0) as Hz.
  { unfold Storage.clear, Storage.size. simpl. apply map_size_empty. }
  rewrite Hh in *.
  split_and!.
  - done.
  - unfold Storage.empty. fold (Storage.size (clear s)). rewrite Hz. done.
  - intros key. unfold Storage.find, Storage.clear. simpl. by rewrite lookup_empty.
  - lia.
  - lia.
  - intros i Hi.
    assert (i < capacity (Storage.header_ (clear s))) as Hi' by (rewrite Hh; lia).
    destruct (Storage.markers_sound _ _ _ (proj1 Hs') i Hi') as [He | Ho]; [done|].
    pose proof (Storage.index_complete _ _ _ (proj1 Hs') i Hi' Ho) as Hl.
    unfold Storage.clear in Hl. simpl in Hl. by rewrite lookup_empty in Hl.
Qed.

(** Property X22. Iterating from [begin()] to [end()] over a consistent store gives each
    entry once: as many values as [size()], under pairwise different keys,
    and a value is among them exactly when [find] returns it for its key. *)
Theorem iterate_visits_each_entry_once s :
  consistent s →
  length (Storage.iterate Value0 s) = Storage.size s
  ∧ NoDup (key_of <$> Storage.iterate Value0 s)
  ∧ (∀ v, v ∈ Storage.iterate Value0 s ↔ find (key_of v) s = Some v)
  ∧ Storage.iterate Value0 s ≡ₚ (map_to_list (contents s)).*2.
Proof.
  intros Hcons. unfold Storage.iterate. split_and!.
  - rewrite length_fmap. unfold Storage.size. by rewrite length_map_to_list.
  - rewrite <- list_fmap_compose.
    rewrite (list_fmap_ext _ fst (map_to_list (Storage.occupied_indices_ s))).
    + apply NoDup_fst_map_to_list.
    + intros j [k i] Hj. simpl.
      apply list_elem_of_lookup_2, elem_of_map_to_list in Hj.
      by destruct (Storage.index_sound _ _ _ Hcons k i Hj) as (_ & _ & ?).
  - intros v. rewrite list_elem_of_fmap. unfold Storage.find. split.
    + intros ([k i] & -> & Hki). apply elem_of_map_to_list in Hki. simpl.
      destruct (Storage.index_sound _ _ _ Hcons k i Hki) as (_ & _ & Hkey).
      unfold Storage.key_at in Hkey. by rewrite Hkey, Hki.
    + destruct (Storage.occupied_indices_ s !! key_of v) as [i|] eqn:Hk; [|done].
      intros [= Hv]. exists (key_of v, i).
      split; [by symmetry | by apply elem_of_map_to_list].
  - unfold Storage.contents. rewrite map_to_list_fmap, <- list_fmap_compose.
    apply Permutation_refl'. apply list_fmap_ext. by intros j [k i] _.
Qed.

(** *** What [create] and [open] return *)

Lemma apply_updates_same_mapping us s :
  same_mapping s (Storage.apply_updates key_of s us).
Proof.
  revert s. induction us as [|u us IH]; intros s; [apply same_mapping_refl|].
  unfold Storage.apply_updates. simpl.
  eapply same_mapping_trans; [|apply IH].
  destruct u; [apply insert_same_mapping | apply erase_same_mapping].
Qed.

(** The store a successful [create] returns, read off its code. *)
Lemma create_shape path n w s w' :
  create path n w = (of_value s, w') →
  n ≠ 0
  ∧ Storage.occupied_indices_ s = ∅
  ∧ Storage.free_indices_ s = Storage.push_range 0 n (Storage.reserve n Storage.vector_new)
  ∧ Storage.header_ s
    = {| signature := (0xDA, 0x1A, 0xF1, 0x1E)%Z; item_size := sizeof_Value;
         capacity := n; size := 0 |}
  ∧ MappedFile.fs w' !! path = Some (resized (storage_size n) Storage.no_bytes)
  ∧ ∃ m w1, MappedFile.create Storage.file_size path w1 = (of_value m, w')
            ∧ MappedFile.settled w w1
            ∧ MappedFile.address_ (Storage.mapped_file_ s) = MappedFile.address_ m
            ∧ MappedFile.file_ (Storage.mapped_file_ s) = MappedFile.file_ m
            ∧ MappedFile.mapping_ (Storage.mapped_file_ s) = MappedFile.mapping_ m.
Proof.
  unfold Storage.create.
  case_decide as Hn; [done|].
  pose proof (MappedFileFacts.fopen_w_settled Storage.no_bytes path w) as Hs0.
  destruct (MappedFile.fopen_w Storage.no_bytes path w) as [[code|] w0] eqn:Hfo; [done|].
  assert (MappedFile.fs w0 !! path = Some Storage.no_bytes) as Hfs0.
  { unfold MappedFile.fopen_w in Hfo. destruct (MappedFile.faults w sys_fopen); [done|].
    injection Hfo as <-. apply lookup_insert_eq. }
  pose proof (MappedFileFacts.resize_file_settled resized path (storage_size n) w0) as Hs1.
  destruct (MappedFile.resize_file resized path (storage_size n) w0) as [[code|] w1] eqn:Hre;
    [done|].
  assert (MappedFile.fs w1 !! path = Some (resized (storage_size n) Storage.no_bytes))
    as Hfs1.
  { unfold MappedFile.resize_file in Hre. rewrite Hfs0 in Hre.
    destruct (MappedFile.faults w0 sys_resize_file); [done|].
    injection Hre as <-. apply lookup_insert_eq. }
  destruct (MappedFile.create Storage.file_size path w1) as [[m|ec] w2] eqn:Hcreate; [|done].
  intros [= <- <-].
  destruct (MappedFileFacts.create_value _ _ _ _ _ Hcreate)
    as (c & Hc & Hbytes & _ & _ & _ & _).
  destruct (MappedFileFacts.create_same_disk _ _ _ _ _ Hcreate) as (_ & _ & Hfs2).
  assert (c = resized (storage_size n) Storage.no_bytes) as -> by congruence.
  split_and!; try done.
  - unfold_store. rewrite Hbytes. simpl. first [done | by rewrite decide_True by done].
  - by rewrite Hfs2.
  - exists m, w1. split_and!; try done. simpl in *. by eapply MappedFileFacts.settled_trans.
Qed.

(** Property X23. [create] with a capacity above zero, when no call fails: the file at
    the path is the header and that many records long, and the store
    returned is empty, with [capacity()] the capacity asked for and every
    slot in the free list in ascending order, so that the first [insert]
    takes the last slot. *)
Theorem create_makes_empty_store path n w :
  (0 < sizeof_record)%Z →
  0 < n →
  Storage.no_faults w →
  ∃ s w', create path n w = (of_value s, w')
          ∧ Storage.size s = 0
          ∧ Storage.empty s = true
          ∧ Storage.capacity s = n
          ∧ Storage.fully_occupied s = false
          ∧ Storage.elements (Storage.free_indices_ s) = seq 0 n
          ∧ (∀ key, find key s = None)
          ∧ Storage.file_length path w' = Some (storage_size n)
          ∧ sound s.
Proof.
  intros Hr Hn Hnf.
  destruct (create_accepts path n w Hr Hn Hnf) as (s & w' & Hc & _ & _ & _ & Hocc & Hs & _).
  destruct (create_shape _ _ _ _ _ Hc) as (_ & _ & Hfree & _ & Hfs & _).
  exists s, w'. unfold Storage.size, Storage.empty, Storage.capacity, Storage.fully_occupied,
    Storage.find, Storage.file_length.
  rewrite Hocc, Hfree, Hfs, push_range_elements. simpl.
  split_and!; try done.
  - rewrite push_range_capacity; simpl; lia.
  - destruct n; [lia | done].
Qed.



(** The scan fails exactly when one of the markers it reads is neither
    [empty] nor [occupied]. *)
Lemma scan_None records i n occ free :
  scan records i n occ free = None
  ↔ ∃ j, i ≤ j < i + n ∧ ¬ is_empty records j ∧ ¬ is_occupied records j.
Proof.
  revert i occ free. induction n as [|n IH]; intros i occ free; simpl.
  - split; [done | intros (j & ? & _); lia].
  - fold (is_empty records i). fold (is_occupied records i).
    destruct (decide (is_empty records i)) as [He | He].
    + rewrite IH. split; intros (j & Hj & Hne & Hno); exists j; split_and!; try done; try lia.
      destruct (decide (j = i)) as [-> | ?]; [done | lia].
    + destruct (decide (is_occupied records i)) as [Ho | Ho].
      * rewrite IH.
        split; intros (j & Hj & Hne & Hno); exists j; split_and!; try done; try lia.
        destruct (decide (j = i)) as [-> | ?]; [done | lia].
      * split; [intros _ | done]. exists i. split_and!; [lia | lia | done | done].
Qed.


(** Property X27. [open] of a path where no file is fails with the code of the system
    for a missing file and leaves the machine as it is: no file is made, no
    handle taken. *)
Theorem open_missing_file path n w :
  Storage.no_faults w →
  MappedFile.fs w !! path = None →
  open path n w
  = (of_error (system_error (match MappedFile.target w with
                             | Win32 => ERROR_FILE_NOT_FOUND
                             | Posix => ENOENT
                             end)), w).
Proof.
  intros Hnf Hfs. unfold Storage.open, MappedFile.create.
  destruct (MappedFile.target w); rewrite Hnf, Hfs; done.
Qed.

(** *** Handles *)

Lemma expand_error_settled path n w ec w' :
  MappedFile.target w = Posix ∨ MappedFile.faults w sys_MapViewOfFile = None →
  expand path n w = (of_error ec, w') → MappedFile.settled w w'.
Proof.
  intros Hp. unfold Storage.expand.
  pose proof (MappedFileFacts.resize_file_settled resized path (storage_size n) w) as Hs1.
  destruct (MappedFile.resize_file resized path (storage_size n) w) as [[code|] w1];
    simpl in Hs1.
  { by intros [= <- <-]. }
  assert (MappedFile.target w1 = Posix ∨ MappedFile.faults w1 sys_MapViewOfFile = None)
    as Hp1.
  { destruct Hs1 as (-> & -> & _). done. }
  destruct (MappedFile.create Storage.file_size path w1) as [[m|ec'] w2] eqn:Hcreate.
  - destruct (scan _ _ _ _ _) as [[occ free]|]; [done|].
    intros [= <- <-]. eapply MappedFileFacts.settled_trans; [exact Hs1|].
    by eapply MappedFileFacts.create_dispose_settled.
  - intros [= <- <-]. eapply MappedFileFacts.settled_trans; [exact Hs1|].
    by eapply MappedFileFacts.create_error_settled.
Qed.

Lemma open_error_settled path n w ec w' :
  MappedFile.target w = Posix ∨ MappedFile.faults w sys_MapViewOfFile = None →
  open path n w = (of_error ec, w') → MappedFile.settled w w'.
Proof.
  intros Hp. unfold Storage.open.
  destruct (MappedFile.create Storage.file_size path w) as [[m|ec'] w1] eqn:Hcreate.
  - pose proof (MappedFileFacts.create_dispose_settled _ _ _ _ _ m Hcreate
                  eq_refl eq_refl eq_refl) as Hs1.
    destruct (decide (MappedFile.size_ m < _)%Z); [by intros [= <- <-]|].
    destruct (negb _); [by intros [= <- <-]|].
    destruct (decide (MappedFile.size_ m ≠ _)); [by intros [= <- <-]|].
    destruct (decide (sizeof_Value ≠ _)); [by intros [= <- <-]|].
    destruct (decide (_ < n)).
    + intros Hex. eapply MappedFileFacts.settled_trans; [exact Hs1|].
      eapply expand_error_settled; [|exact Hex].
      destruct Hs1 as (-> & -> & _). done.
    + destruct (scan _ _ _ _ _) as [[occ free]|]; [done|]. by intros [= <- <-].
  - intros [= <- <-]. by eapply MappedFileFacts.create_error_settled.
Qed.

Lemma create_store_error_settled path n w ec w' :
  MappedFile.target w = Posix ∨ MappedFile.faults w sys_MapViewOfFile = None →
  create path n w = (of_error ec, w') → MappedFile.settled w w'.
Proof.
  intros Hp. unfold Storage.create.
  case_decide; [intros [= <- <-]; apply MappedFileFacts.settled_refl|].
  pose proof (MappedFileFacts.fopen_w_settled Storage.no_bytes path w) as Hs0.
  destruct (MappedFile.fopen_w Storage.no_bytes path w) as [[code|] w0]; simpl in Hs0.
  { by intros [= <- <-]. }
  pose proof (MappedFileFacts.resize_file_settled resized path (storage_size n) w0) as Hs1.
  destruct (MappedFile.resize_file resized path (storage_size n) w0) as [[code|] w1];
    simpl in Hs1.
  { intros [= <- <-]. by eapply MappedFileFacts.settled_trans. }
  pose proof (MappedFileFacts.settled_trans _ _ _ Hs0 Hs1) as Hs.
  destruct (MappedFile.create Storage.file_size path w1) as [[m|ec'] w2] eqn:Hcreate; [done|].
  intros [= <- <-]. eapply MappedFileFacts.settled_trans; [exact Hs|].
  eapply MappedFileFacts.create_error_settled; [|exact Hcreate].
  destruct Hs as (-> & -> & _). done.
Qed.

(** Property X28. When [create] or [open] returns an error on Unix, and on Windows when
    it does and [MapViewOfFile] has not failed, every handle taken on the
    way has been released: the mapping [open] made to read the header, the
    one [expand] made, the descriptor of a file that could not be mapped. *)
Theorem failure_releases_handles path n w :
  MappedFile.target w = Posix ∨ MappedFile.faults w sys_MapViewOfFile = None →
  (∀ ec w', open path n w = (of_error ec, w') →
     ∃ events, MappedFile.trace w' = MappedFile.trace w ++ events
               ∧ MappedFile.live_handles events [] = [])
  ∧ (∀ ec w', create path n w = (of_error ec, w') →
       ∃ events, MappedFile.trace w' = MappedFile.trace w ++ events
                 ∧ MappedFile.live_handles events [] = []).
Proof.
  intros Hp. split; intros ec w' Hr.
  - by destruct (open_error_settled _ _ _ _ _ Hp Hr) as (_ & _ & ?).
  - by destruct (create_store_error_settled _ _ _ _ _ Hp Hr) as (_ & _ & ?).
Qed.

Lemma expand_value_settled path n w s w1 (s' : storage) :
  expand path n w = (of_value s, w1) → same_mapping s s' →
  MappedFile.settled w (Storage.destroy s' w1).
Proof.
  unfold Storage.expand.
  pose proof (MappedFileFacts.resize_file_settled resized path (storage_size n) w) as Hs1.
  destruct (MappedFile.resize_file resized path (storage_size n) w) as [[code|] w0];
    simpl in Hs1; [done|].
  destruct (MappedFile.create Storage.file_size path w0) as [[m|ec'] w2] eqn:Hcreate; [|done].
  destruct (scan _ _ _ _ _) as [[occ free]|]; [|done].
  intros [= <- <-] (_ & _ & Ha & _ & Hf & Hm).
  eapply MappedFileFacts.settled_trans; [exact Hs1|].
  by eapply MappedFileFacts.create_dispose_settled.
Qed.

(** Property X29. A store that [create] or [open] returned, worked on and destroyed has
    given back every handle that was taken since the call, the handles of
    the mapping [open] drops before it expands the file among them. *)
Theorem destruction_releases_handles path n w :
  (∀ s w1 s', open path n w = (of_value s, w1) → same_mapping s s' →
     ∃ events, MappedFile.trace (Storage.destroy s' w1) = MappedFile.trace w ++ events
               ∧ MappedFile.live_handles events [] = [])
  ∧ (∀ s w1 s', create path n w = (of_value s, w1) → same_mapping s s' →
       ∃ events, MappedFile.trace (Storage.destroy s' w1) = MappedFile.trace w ++ events
                 ∧ MappedFile.live_handles events [] = []).
Proof.
  split; intros s w1 s' Hr Hsame.
  - revert Hr. unfold Storage.open.
    destruct (MappedFile.create Storage.file_size path w) as [[m|ec'] w0] eqn:Hcreate; [|done].
    pose proof (MappedFileFacts.create_dispose_settled _ _ _ _ _ m Hcreate
                  eq_refl eq_refl eq_refl) as Hs1.
    destruct (decide (MappedFile.size_ m < _)%Z); [done|].
    destruct (negb _); [done|].
    destruct (decide (MappedFile.size_ m ≠ _)); [done|].
    destruct (decide (sizeof_Value ≠ _)); [done|].
    destruct (decide (_ < n)).
    + intros Hex.
      destruct (MappedFileFacts.settled_trans _ _ _ Hs1
                  (expand_value_settled _ _ _ _ _ _ Hex Hsame)) as (_ & _ & ?). done.
    + destruct (scan _ _ _ _ _) as [[occ free]|]; [|done].
      intros [= <- <-]. destruct Hsame as (_ & _ & Ha & _ & Hf & Hm).
      by destruct (MappedFileFacts.create_dispose_settled _ _ _ _ _
                     (Storage.mapped_file_ s') Hcreate Ha Hf Hm) as (_ & _ & ?).
  - destruct (create_shape _ _ _ _ _ Hr)
      as (_ & _ & _ & _ & _ & m & w0 & Hcreate & Hs0 & Ha & Hf & Hm).
    destruct Hsame as (_ & _ & Ha' & _ & Hf' & Hm').
    assert (MappedFile.settled w0 (Storage.destroy s' w1)) as Hs1.
    { eapply MappedFileFacts.create_dispose_settled; [exact Hcreate | | |]; congruence. }
    by destruct (MappedFileFacts.settled_trans _ _ _ Hs0 Hs1) as (_ & _ & ?).
Qed.

(** *** A failed expansion *)


End Facts.

End StorageFacts.

(** ** The rejections of [open], for both file layouts *)

Module Claims.


End Claims.

(** ** The stores of the tests *)

Module Scenarios.

Import Test.

(** The model on the scenarios of test/storage.test.hpp, where the files
    are mapped shared: after [create("test.pmap", 1)], [insert(item{1, 1})]
    and the end of the store, the file is the one written out above. *)
Example file_after_one_item :
  MappedFile.fs (after_one_item Win32 1) !! "test.pmap" = Some one_item_file.
Proof. vm_compute. reflexivity. Qed.

(** "insertinf into fully occupied storage": the insert fails, the size
    stays 1. *)
Example insert_into_full_storage :
  (insert {| key := 2; data := 2 |} (with_one_item Win32 1)).1 = false
  ∧ Storage.size (insert {| key := 2; data := 2 |} (with_one_item Win32 1)).2 = 1.
Proof. vm_compute. done. Qed.

(** [open] of queue.hpp accepts the file laid out for capacity 1 where
    [char] is unsigned. *)
Example ring_file_opens :
  (queue_open false "queue.pmap" 1 (queue_disk Win32 "queue.pmap" ring_file)).1
  = Queue.of_value ring_storage.
Proof. vm_compute. reflexivity. Qed.

(** Claim C1, at the input where the code fails it: on a platform where
    the mapping is made with [MAP_PRIVATE], [create("test.pmap", 1)]
    succeeds and [insert(item{1, 1})] stores the item, but after the store
    is destroyed the file holds none of it: [open("test.pmap", 1)] fails
    with [invalid_file_signature]. *)
Theorem private_mapping_loses_the_store :
  has_value (created Posix 1).1 = true
  ∧ find 1 (with_one_item Posix 1) = Some {| key := 1; data := 1 |}
  ∧ (open "test.pmap" 1 (after_one_item Posix 1)).1
    = of_error (make_error_code invalid_file_signature).
Proof. vm_compute. done. Qed.

(** Claim C2, at the input where the code fails it: [map::insert] of
    queue.hpp into a map whose only slot is taken fails with
    [storage_is_full] for the new key 2, and [size()] has gone from 1
    to 2: the key stays in the index, on the sentinel slot 0. *)
Theorem map_insert_into_full_map_grows_size :
  map_find 2 full_map = None
  ∧ map_size full_map = 1
  ∧ (map_insert {| key := 2; data := 2 |} full_map).1
    = Queue.of_error (Queue.make_error_code Queue.storage_is_full)
  ∧ map_size (map_insert {| key := 2; data := 2 |} full_map).2 = 2
  ∧ map_find 2 (map_insert {| key := 2; data := 2 |} full_map).2 = Some item0.
Proof. vm_compute. done. Qed.

(** Claim C3, at the input where the code fails it: [storage::insert] of
    an indexed key into a store with a free slot fails and changes no
    record and no entry, but the free slot is gone from the free list:
    the next insert of a new key fails with one entry in two slots. *)
Theorem insert_duplicate_takes_a_free_slot :
  after_duplicate.1 = false
  ∧ Storage.size after_duplicate.2 = Storage.size (with_one_item Win32 2)
  ∧ Storage.records_ after_duplicate.2 = Storage.records_ (with_one_item Win32 2)
  ∧ Storage.elements (Storage.free_indices_ (with_one_item Win32 2)) = [0]
  ∧ Storage.elements (Storage.free_indices_ after_duplicate.2) = []
  ∧ Storage.size after_duplicate.2 = 1
  ∧ Storage.capacity after_duplicate.2 = 2
  ∧ (insert {| key := 2; data := 2 |} after_duplicate.2).1 = false.
Proof. vm_compute. done. Qed.

(** Claim C4, at the input where the code fails it: the counting
    invariant holds of a store of capacity 2 with one entry, and no longer
    after [storage::insert] of the key it holds: one occupied slot and no
    free slot for a capacity of 2. *)
Theorem insert_duplicate_breaks_counting :
  Storage.counted item0 (with_one_item Win32 2)
  ∧ ¬ Storage.counted item0 after_duplicate.2
  ∧ Storage.occupied_count item0 (Storage.records_ after_duplicate.2) 2 = 1
  ∧ length (Storage.elements (Storage.free_indices_ after_duplicate.2)) = 0
  ∧ Storage.detail.capacity (Storage.header_ after_duplicate.2) = 2.
Proof.
  split_and!; try (vm_compute; done).
  intros [_ Hsum]. vm_compute in Hsum. done.
Qed.

(** Claim C8, at the input where the code fails it: on Win32, when
    [MapViewOfFile] fails after the file was opened and the mapping object
    made, [mapped_file::create] returns the error with the file handle
    closed and the mapping handle still open. *)
Theorem view_failure_leaks_mapping_handle :
  (MappedFile.create Storage.file_size "dummy" view_refused).1
  = of_error (system_error 8)
  ∧ MappedFile.trace (MappedFile.create Storage.file_size "dummy" view_refused).2
    = [Acquire (file_handle, 0); Acquire (mapping_handle, 1); Release (file_handle, 0)]
  ∧ MappedFile.leaked (MappedFile.create Storage.file_size "dummy" view_refused).2
    = [(mapping_handle, 1)].
Proof. vm_compute. done. Qed.

(** The same failure of [mmap] on Posix leaves nothing open. *)
Example mmap_failure_leaks_nothing :
  (MappedFile.create Storage.file_size "dummy" mmap_refused).1
  = of_error (system_error 12)
  ∧ MappedFile.leaked (MappedFile.create Storage.file_size "dummy" mmap_refused).2 = [].
Proof. vm_compute. done. Qed.

Lemma one_item_file_valid :
  Storage.valid_file key_of sizeof_item sizeof_record item0 one_item_file.
Proof.
  constructor; try done.
  - simpl. lia.
  - constructor.
    + simpl. lia.
    + intros i Hi. simpl in Hi. assert (i = 0) as -> by lia. by right.
    + intros i j Hi Hj. simpl in Hi, Hj. lia.
Defined.




(** Counterexample to C7 as stated: [open] of a file of length zero fails
    with the code of the refused mapping, [EINVAL] on Posix and
    [ERROR_FILE_INVALID] on Win32, which is not [file_size_is_too_small]. *)
Lemma empty_file_is_not_too_small :
  (open "dummy" 1 (disk Posix "dummy" empty_file)).1 = of_error (system_error EINVAL)
  ∧ (open "dummy" 1 (disk Win32 "dummy" empty_file)).1
    = of_error (system_error ERROR_FILE_INVALID)
  ∧ (open "dummy" 1 (disk Posix "dummy" empty_file)).1
    ≠ of_error (make_error_code file_size_is_too_small)
  ∧ (open "dummy" 1 (disk Win32 "dummy" empty_file)).1
    ≠ of_error (make_error_code file_size_is_too_small).
Proof. split_and!; vm_compute; done. Qed.

(** Witness of C7: the empty file of the mapped-file tests. *)
Lemma open_empty_file_witness :
  ∃ code,
    (open "dummy" 1 (disk Posix "dummy" empty_file)).1 = of_error (system_error code)
    ∧ MappedFile.fs (open "dummy" 1 (disk Posix "dummy" empty_file)).2
      = MappedFile.fs (disk Posix "dummy" empty_file).
Proof.
  apply (StorageFacts.open_empty_file key_of sizeof_item sizeof_record item0
           "dummy" 1 (disk Posix "dummy" empty_file) empty_file).
  - vm_compute. reflexivity.
  - reflexivity.
Defined.



End Scenarios.

(** ** The properties on the stores of the examples *)

Module Examples.

Import Test Fixtures.

(** *** The mapped file *)


Lemma mapping_released_once_witness :
  ∃ w2, MappedFile.trace w2
        = [Acquire (file_handle, 0); Acquire (view_address, 1);
           Release (view_address, 1); Release (file_handle, 0)]
        ∧ MappedFile.fs w2 = MappedFile.fs (disk Posix "dummy" one_item_file).
Proof.
  destruct (MappedFileFacts.mapping_released_once Storage.file_size empty_file "dummy"
              (disk Posix "dummy" one_item_file) one_item_mapping
              (MappedFile.create Storage.file_size "dummy"
                 (disk Posix "dummy" one_item_file)).2)
    as (w2 & _ & _ & _ & Ht & _ & Hfs).
  - vm_compute. reflexivity.
  - exists w2. split; [exact Ht | exact Hfs].
Defined.

Lemma create_error_releases_witness :
  ∃ events,
    MappedFile.trace (MappedFile.create Storage.file_size "dummy" mmap_refused).2
    = MappedFile.trace mmap_refused ++ events
    ∧ MappedFile.live_handles events [] = [].
Proof.
  destruct (MappedFileFacts.create_error_releases Storage.file_size "dummy" mmap_refused
              (system_error 12)
              (MappedFile.create Storage.file_size "dummy" mmap_refused).2)
    as (_ & He & _).
  - left. reflexivity.
  - vm_compute. reflexivity.
  - exact He.
Defined.

(** *** The rings *)

#[local] Hint Extern 0 (Inhabited (Queue.detail.record _)) =>
  exact (Queue.detail.record_inhabited item0) : typeclass_instances.

Lemma new_ring_rings : Queue.detail.rings item0 new_ring [] [2].
Proof.
  split_and!.
  - vm_compute. done.
  - vm_compute. done.
  - unfold Queue.detail.first_occupied_index, Queue.detail.first_free_index. simpl.
    repeat (apply NoDup_cons; split; [rewrite ?elem_of_cons, ?elem_of_nil; lia|]).
    apply NoDup_nil_2.
  - intros i Hi. change (length new_ring) with 3.
    unfold Queue.detail.first_occupied_index, Queue.detail.first_free_index in Hi.
    simpl in Hi. rewrite ?elem_of_cons, ?elem_of_nil in Hi. lia.
Qed.

Lemma one_item_ring_rings : Queue.detail.rings item0 one_item_ring [2] [].
Proof.
  split_and!.
  - vm_compute. done.
  - vm_compute. done.
  - unfold Queue.detail.first_occupied_index, Queue.detail.first_free_index. simpl.
    repeat (apply NoDup_cons; split; [rewrite ?elem_of_cons, ?elem_of_nil; lia|]).
    apply NoDup_nil_2.
  - intros i Hi. change (length one_item_ring) with 3.
    unfold Queue.detail.first_occupied_index, Queue.detail.first_free_index in Hi.
    simpl in Hi. rewrite ?elem_of_cons, ?elem_of_nil in Hi. lia.
Qed.



Lemma iterate_follows_occupied_ring_witness :
  Queue.detail.iterate item0 one_item_ring = Some [2].
Proof.
  by destruct (RingFacts.iterate_follows_occupied_ring item0 one_item_ring [2] []
                 one_item_ring_rings) as (? & _).
Defined.

Lemma create_links_every_slot_free_witness :
  Queue.detail.rings item0 (Queue.detail.create_rings item0 3) [] [2; 3; 4]
  ∧ length (Queue.detail.create_rings item0 3) = 5.
Proof.
  destruct (RingFacts.create_links_every_slot_free item0 3) as (Hr & Hl & _).
  - lia.
  - split; [exact Hr | exact Hl].
Defined.

(** *** The map of queue.hpp *)

Lemma new_map_well_formed : Queue.well_formed key_of item0 new_map [] [2].
Proof.
  exists new_ring. split_and!; [reflexivity | exact new_ring_rings |].
  intros k i. simpl. rewrite lookup_empty, elem_of_nil. split; [done | by intros [? _]].
Qed.

Lemma full_map_well_formed : Queue.well_formed key_of item0 full_map [2] [].
Proof.
  exists one_item_ring. split_and!; [reflexivity | exact one_item_ring_rings |].
  intros k i.
  assert (Queue.indices_ full_map = {[1%Z := 2]}) as -> by (vm_compute; reflexivity).
  rewrite lookup_singleton_Some, list_elem_of_singleton. split.
  - intros [<- <-]. split; [done | vm_compute; reflexivity].
  - intros [-> <-]. split; [vm_compute; reflexivity | done].
Qed.


Lemma map_assign_in_place_witness :
  ∃ m', Queue.insert_or_assign key_of item0 {| key := 1; data := 5 |} full_map
        = (Queue.of_value (), m')
        ∧ map_find 1 m' = Some {| key := 1; data := 5 |}
        ∧ Queue.indices_ m' = Queue.indices_ full_map.
Proof.
  destruct (MapFacts.map_assign_in_place key_of item0 {| key := 1; data := 5 |}
              full_map [2] [] 2 full_map_well_formed)
    as (m' & Hins & _ & Hidx & Hfind & _).
  - vm_compute. reflexivity.
  - exists m'. split_and!; [exact Hins | exact Hfind | exact Hidx].
Defined.

Lemma map_erase_frees_slot_witness :
  ∃ m', Queue.erase item0 1%Z full_map = (true, m') ∧ map_find 1 m' = None.
Proof.
  pose proof (MapFacts.map_erase_frees_slot key_of item0 1%Z full_map [2] []
                full_map_well_formed) as Hth.
  destruct (Queue.indices_ full_map !! 1%Z) as [index|] eqn:Hl;
    [|vm_compute in Hl; discriminate].
  destruct Hth as (before & after & m' & _ & He & _ & Hf & _).
  exists m'. split; [exact He | exact Hf].
Defined.



(** *** The store of storage.hpp *)

Lemma created_value : created Win32 2 = (of_value new_store, (created Win32 2).2).
Proof.
  unfold new_store. destruct (created Win32 2) as [[s|ec] w] eqn:Hc; [reflexivity|].
  vm_compute in Hc. discriminate.
Qed.

Lemma new_store_sound : Storage.sound key_of item0 new_store.
Proof.
  destruct (StorageFacts.create_accepts key_of sizeof_item sizeof_record item0
              "test.pmap" 2 (boot Win32)) as (s & w' & Hc & _ & _ & _ & _ & Hs & _).
  - unfold sizeof_record. lia.
  - lia.
  - intros call. reflexivity.
  - pose proof created_value as Hv. unfold created, create in Hv.
    rewrite Hc in Hv. by injection Hv as <-.
Qed.

Lemma one_item_store_sound : Storage.sound key_of item0 one_item_store.
Proof.
  apply (StorageFacts.insert_sound key_of item0 {| key := 1; data := 1 |} new_store).
  - exact new_store_sound.
  - left. vm_compute. reflexivity.
Qed.

Lemma insert_spec_witness :
  (insert {| key := 1; data := 1 |} new_store).1 = true
  ∧ find 1 (insert {| key := 1; data := 1 |} new_store).2 = Some {| key := 1; data := 1 |}
  ∧ Storage.size (insert {| key := 1; data := 1 |} new_store).2 = 1.
Proof.
  destruct (StorageFacts.insert_spec key_of item0 {| key := 1; data := 1 |} new_store
              (proj1 new_store_sound)) as (Hiff & Htrue & _).
  assert ((insert {| key := 1; data := 1 |} new_store).1 = true) as Hr.
  { apply Hiff. split; [vm_compute; discriminate | vm_compute; reflexivity]. }
  destruct (Htrue Hr) as (_ & Hfind & _ & Hsize).
  split_and!; [exact Hr | exact Hfind | exact Hsize].
Defined.


Lemma erase_then_insert_reuses_slot_witness :
  (insert {| key := 1; data := 7 |} (erase 1 one_item_store).2).1 = true
  ∧ Storage.occupied_indices_ (insert {| key := 1; data := 7 |} (erase 1 one_item_store).2).2
    !! 1%Z = Some 1
  ∧ Storage.elements
      (Storage.free_indices_ (insert {| key := 1; data := 7 |} (erase 1 one_item_store).2).2)
    = Storage.elements (Storage.free_indices_ one_item_store).
Proof.
  apply (StorageFacts.erase_then_insert_reuses_slot key_of 1%Z {| key := 1; data := 7 |}
           one_item_store 1).
  - vm_compute. reflexivity.
  - left. reflexivity.
Defined.

Lemma size_and_free_slots_witness :
  Storage.size one_item_store
  + length (Storage.elements (Storage.free_indices_ one_item_store))
  = Storage.capacity one_item_store
  ∧ Storage.size one_item_store ≤ Storage.capacity one_item_store.
Proof.
  destruct (StorageFacts.size_and_free_slots key_of item0 one_item_store
              one_item_store_sound) as (Hsum & Hle & _).
  split; [exact Hsum | exact Hle].
Defined.

Lemma operations_keep_invariant_witness :
  Storage.sound key_of item0 (erase 1 one_item_store).2
  ∧ Storage.counted item0 (Storage.clear one_item_store).
Proof.
  destruct (StorageFacts.operations_keep_invariant key_of item0 one_item_store
              one_item_store_sound) as (_ & _ & Herase & _ & Hclear).
  split; [exact (proj1 (Herase 1%Z)) | exact Hclear].
Defined.

Lemma clear_frees_every_slot_witness :
  Storage.size (Storage.clear one_item_store) = 0
  ∧ length (Storage.elements (Storage.free_indices_ (Storage.clear one_item_store)))
    = Storage.capacity one_item_store.
Proof.
  destruct (StorageFacts.clear_frees_every_slot key_of item0 one_item_store
              one_item_store_sound) as (Hsize & _ & _ & _ & Hfree & _).
  split; [exact Hsize | exact Hfree].
Defined.

Lemma iterate_visits_each_entry_once_witness :
  length (Storage.iterate item0 one_item_store) = Storage.size one_item_store
  ∧ NoDup (key_of <$> Storage.iterate item0 one_item_store).
Proof.
  destruct (StorageFacts.iterate_visits_each_entry_once key_of item0 one_item_store
              (proj1 one_item_store_sound)) as (Hlen & Hnd & _).
  split; [exact Hlen | exact Hnd].
Defined.

Lemma create_makes_empty_store_witness :
  ∃ s w', create "test.pmap" 2 (boot Posix) = (of_value s, w')
          ∧ Storage.capacity s = 2
          ∧ Storage.elements (Storage.free_indices_ s) = [0; 1]
          ∧ Storage.file_length "test.pmap" w' = Some 48%Z.
Proof.
  destruct (StorageFacts.create_makes_empty_store key_of sizeof_item sizeof_record item0
              "test.pmap" 2 (boot Posix))
    as (s & w' & Hc & _ & _ & Hcap & _ & Hfree & _ & Hlen & _).
  - unfold sizeof_record. lia.
  - lia.
  - intros call. reflexivity.
  - exists s, w'. split_and!; [exact Hc | exact Hcap | exact Hfree | exact Hlen].
Defined.




Lemma open_missing_file_witness :
  open "test.pmap" 1 (boot Posix) = (of_error (system_error ENOENT), boot Posix).
Proof.
  apply (StorageFacts.open_missing_file key_of sizeof_item sizeof_record item0
           "test.pmap" 1 (boot Posix)).
  - intros call. reflexivity.
  - vm_compute. reflexivity.
Defined.

Lemma failure_releases_handles_witness :
  ∃ events,
    MappedFile.trace (open "test.pmap" 1 (disk Posix "test.pmap" foreign_file)).2
    = MappedFile.trace (disk Posix "test.pmap" foreign_file) ++ events
    ∧ MappedFile.live_handles events [] = [].
Proof.
  destruct (StorageFacts.failure_releases_handles key_of sizeof_item sizeof_record item0
              "test.pmap" 1 (disk Posix "test.pmap" foreign_file)) as [Hopen _].
  - left. reflexivity.
  - apply (Hopen (make_error_code invalid_file_signature)). vm_compute. reflexivity.
Defined.

Lemma opened_value :
  open "test.pmap" 1 (disk Posix "test.pmap" one_item_file)
  = (of_value (Storage.dereference (open "test.pmap" 1 (disk Posix "test.pmap" one_item_file)).1),
     (open "test.pmap" 1 (disk Posix "test.pmap" one_item_file)).2).
Proof.
  destruct (open "test.pmap" 1 (disk Posix "test.pmap" one_item_file)) as [[s|ec] w] eqn:Ho;
    [reflexivity|].
  vm_compute in Ho. discriminate.
Qed.

Lemma destruction_releases_handles_witness :
  ∃ events,
    MappedFile.trace
      (Storage.destroy
         (insert_or_assign {| key := 1; data := 2 |}
            (Storage.dereference
               (open "test.pmap" 1 (disk Posix "test.pmap" one_item_file)).1)).2
         (open "test.pmap" 1 (disk Posix "test.pmap" one_item_file)).2)
    = MappedFile.trace (disk Posix "test.pmap" one_item_file) ++ events
    ∧ MappedFile.live_handles events [] = [].
Proof.
  destruct (StorageFacts.destruction_releases_handles key_of sizeof_item sizeof_record item0
              "test.pmap" 1 (disk Posix "test.pmap" one_item_file)) as [Hopen _].
  apply (Hopen _ _ _ opened_value).
  apply StorageFacts.insert_or_assign_same_mapping.
Defined.



End Examples.
